(** * dudewheresmytube: the feed, the station lookup, track-constrained
    path resolution, train animation and the layers of the map

    A shallow embedding of

    - [src/lib/trackGeometry.ts]: the geometry index, [findTrackPath],
      [interpolateAlongPath] and [getLineDisplayName] (module [TrackGeometry]);
    - [src/hooks/useTrainPositions.ts], the track-path hook: the effect that
      takes in a batch of trains and the animation frame (module
      [TrainPositions]);
    - the older straight-line version of that hook, which keeps a train that
      left the feed for 60 s: its effect (module [TrainPositionsLegacy]) and
      its frame (module [LegacyAnimation]);
    - [src/lib/lineColors.ts] (module [LineColors]);
    - [api/trains.ts], the function behind [/api/trains], which the
      development server of [vite.config.ts] repeats: what it makes of the
      arrivals the TfL service lists (module [Api]);
    - [src/lib/stationLookup.ts]: the map of stations and
      [getStationCoordinates] (module [StationLookup]);
    - [src/components/Map/TubeMap.tsx]: the filters and the GeoJSON of the
      trains (module [TubeMap]).

    JavaScript numbers stand behind the interface [Number]. Its instance
    [JsNumber.js_number] is IEEE-754 binary64, on the kernel's primitive
    floats: the theorems hold of every instance, or of every instance with
    the order laws that binary64 has, or of binary64 itself. The instance
    [RealNumber.real_number] reads the same code in exact arithmetic; one
    lemma on the sampler uses it, to say what rounding takes away. The [Map] from train ids to records is a
    [gmap string _]: only the order in which [forEach] visits it is lost, and
    no state depends on it. A [Map] whose order is read, and an object literal
    used as a table, is the list of its entries (module [Js]); the names
    looked up in the tables are line ids and line names, none of which is a
    property of [Object.prototype]. An exception is the result [None].

    Not embedded: [Math.atan2], so that [calculateHeading] is a parameter of
    the animation frame; the regular expressions of [normalizeStationName]
    and Unicode's [toLowerCase], which are parameters of the station lookup;
    the contents of [tfl_lines.json] and [tfl_stations.json] and the answers
    of the TfL service, which are parameters as well; the easing functions
    that nothing calls, the TrackerNet client, and the rendering.

    The definitions come first; the lemmas and the theorems C1 to C10 follow,
    and are run on a small network; the theorems on the rest of the code,
    numbered from X1 on, come last. *)

From Stdlib Require Import ZArith Lia List Bool.
From Stdlib Require Floats.
From Stdlib Require Reals Lra.
From stdpp Require Import base option list gmap strings.

(* ================================================================== *)
(** * Numbers *)

(** The operations the sources apply to a [number]. [num_of_Z] stands for an
    integer literal; a decimal literal such as [0.48] is [dec 48 100]: IEEE
    division is correctly rounded, so on binary64 the quotient of the two exact
    integers is the literal's value. *)
Class Number (num : Type) := {
  num_of_Z : Z -> num;
  num_add : num -> num -> num;
  num_sub : num -> num -> num;
  num_mul : num -> num -> num;
  num_div : num -> num -> num;
  num_sqrt : num -> num;          (* Math.sqrt *)
  num_abs : num -> num;           (* Math.abs *)
  num_min : num -> num -> num;    (* Math.min *)
  num_max : num -> num -> num;    (* Math.max *)
  num_ltb : num -> num -> bool;   (* a < b *)
  num_leb : num -> num -> bool;   (* a <= b *)
  num_eqb : num -> num -> bool;   (* a === b *)
}.

(** [Infinity], which only [findTrackPath] uses. *)
Class Infinity (num : Type) := num_infinity : num.

Declare Scope num_scope.
Delimit Scope num_scope with num.
Infix "+" := num_add : num_scope.
Infix "-" := num_sub : num_scope.
Infix "*" := num_mul : num_scope.
Infix "/" := num_div : num_scope.
Infix "<?" := num_ltb : num_scope.
Infix "<=?" := num_leb : num_scope.
Infix "=?" := num_eqb : num_scope.
Notation "a >? b" := (num_ltb b a) (at level 70) : num_scope.
Notation "a >=? b" := (num_leb b a) (at level 70) : num_scope.
Notation "a !=? b" := (negb (num_eqb a b)) (at level 70) : num_scope.

Definition lit {num} `{Number num} (z : Z) : num := num_of_Z z.
Definition dec {num} `{Number num} (n d : Z) : num := (num_of_Z n / num_of_Z d)%num.

(** The laws of [<], [<=], [+] and [Infinity] that the proofs about
    [findTrackPath] and the sampler use; binary64 has them all
    ([JsLaws.js_laws]). *)
Class NumberLaws (num : Type) `{Number num} `{Infinity num} : Prop := {
  ltb_trans : forall a b c : num,
    (a <? b)%num = true -> (b <? c)%num = true -> (a <? c)%num = true;
  ltb_irrefl : forall a : num, (a <? a)%num = false;
  ltb_false_leb : forall a b : num,
    (a <? num_infinity)%num = true -> (b <? num_infinity)%num = true ->
    (a <? b)%num = false -> (b <=? a)%num = true;
  add_comm : forall a b : num, (a + b)%num = (b + a)%num;
  add_infinity_not_below : forall a b : num, (num_infinity + a <? b)%num = false;
  leb_one_zero : forall p : num,
    (lit 1 <=? p)%num = true -> (p <=? lit 0)%num = false;
}.

(** The laws of [<=], [<] and [+] that the proofs about the walk of the
    sampler use; binary64 has them too ([JsLaws.js_sampler_laws]). *)
Class SamplerLaws (num : Type) `{Number num} : Prop := {
  leb_trans : forall a b c : num,
    (a <=? b)%num = true -> (b <=? c)%num = true -> (a <=? c)%num = true;
  add_zero_not_above : forall a z : num,
    (z =? lit 0)%num = true -> (a <? a + z)%num = false;
}.

(** ** IEEE-754 binary64 *)
Module JsNumber.
Import Floats.

(** Integer literals of the sources are far below 2^53, hence exact. *)
Definition of_Z (z : Z) : float :=
  match z with
  | Z0 => PrimFloat.zero
  | Zpos _ => PrimFloat.of_uint63 (Uint63.of_Z z)
  | Zneg p => PrimFloat.opp (PrimFloat.of_uint63 (Uint63.of_Z (Zpos p)))
  end.

Definition is_nan (a : float) : bool := negb (PrimFloat.eqb a a).

(** [Math.min]: NaN if an argument is NaN, and [-0] counts as below [+0]. *)
Definition min (a b : float) : float :=
  if is_nan a then a else if is_nan b then b
  else if PrimFloat.ltb a b then a else if PrimFloat.ltb b a then b
  else match PrimFloat.classify a with NZero => a | _ => b end.

(** [Math.max]: NaN if an argument is NaN, and [+0] counts as above [-0]. *)
Definition max (a b : float) : float :=
  if is_nan a then a else if is_nan b then b
  else if PrimFloat.ltb a b then b else if PrimFloat.ltb b a then a
  else match PrimFloat.classify a with PZero => a | _ => b end.

#[global] Instance js_number : Number float := {|
  num_of_Z := of_Z;
  num_add := PrimFloat.add;
  num_sub := PrimFloat.sub;
  num_mul := PrimFloat.mul;
  num_div := PrimFloat.div;
  num_sqrt := PrimFloat.sqrt;
  num_abs := PrimFloat.abs;
  num_min := min;
  num_max := max;
  num_ltb := PrimFloat.ltb;
  num_leb := PrimFloat.leb;
  num_eqb := PrimFloat.eqb;
|}.

#[global] Instance js_infinity : Infinity float := PrimFloat.infinity.
End JsNumber.

(** ** The reals *)
Module RealNumber.
Import Reals.

Definition ltb (a b : R) : bool := if Rlt_dec a b then true else false.
Definition leb (a b : R) : bool := if Rle_dec a b then true else false.
Definition eqb (a b : R) : bool := if Req_dec_T a b then true else false.

#[global] Instance real_number : Number R := {|
  num_of_Z := IZR;
  num_add := Rplus;
  num_sub := Rminus;
  num_mul := Rmult;
  num_div := Rdiv;
  num_sqrt := sqrt;
  num_abs := Rabs;
  num_min := Rmin;
  num_max := Rmax;
  num_ltb := ltb;
  num_leb := leb;
  num_eqb := eqb;
|}.
End RealNumber.

(* ================================================================== *)
(** * JavaScript arrays *)

(** [Array.prototype.slice(start, end)]: a negative index counts from the end,
    both indices are clamped to the array, [end] defaults to the length. *)
Definition sliceIndex (len k : Z) : Z :=
  if (k <? 0)%Z then Z.max (len + k) 0 else Z.min k len.

Definition slice {A} (l : list A) (start : Z) (stop : option Z) : list A :=
  let len := Z.of_nat (length l) in
  let k := sliceIndex len start in
  let final := match stop with Some e => sliceIndex len e | None => len end in
  take (Z.to_nat (final - k)) (drop (Z.to_nat k) l).

(* ================================================================== *)
(** * src/lib/trackGeometry.ts *)
Module TrackGeometry.
Section TrackGeometry.
Context {num : Type} `{Number num}.
Local Open Scope num_scope.

(** geojson's [Position], of which the code reads components 0 and 1. *)
Abbreviation Position := (num * num)%type.

Record LineSegment := {
  lineName : string;
  coordinates : list Position;
}.

(** A feature of [tfl_lines.json]: the names in [properties.lines] and the
    line string's coordinates (an absent field reads as the empty array). *)
Record Feature := {
  lines : list string;
  coords : list Position;
}.

Definition pushSegment (cs : list Position) (index : gmap string (list LineSegment))
    (name : string) : gmap string (list LineSegment) :=
  let index := match index !! name with
               | None => <[name := []]> index
               | Some _ => index
               end in
  <[name := default [] (index !! name) ++ [{| lineName := name; coordinates := cs |}]]> index.

Definition initializeLineSegments (features : list Feature) : gmap string (list LineSegment) :=
  foldl (fun index feature =>
           if (length (coords feature) <? 2)%nat then index
           else foldl (pushSegment (coords feature)) index (lines feature))
        ∅ features.

Definition distance (a b : Position) : num :=
  let dx := a.1 - b.1 in
  let dy := a.2 - b.2 in
  num_sqrt (dx * dx + dy * dy).

(** ** findTrackPath *)

(** The four variables of the inner loop. *)
Record Scan := {
  fromIdx : Z;
  toIdx : Z;
  fromDist : num;
  toDist : num;
}.

(** The four variables of the outer loop. *)
Record Best := {
  bestSegment : option LineSegment;
  bestFromIdx : Z;
  bestToIdx : Z;
  bestScore : num;
}.

Section WithInfinity.
Context `{Infinity num}.

Definition scanInit : Scan :=
  {| fromIdx := -1; toIdx := -1; fromDist := num_infinity; toDist := num_infinity |}.

(** One iteration of [for (let i = 0; i < coords.length; i++)]. *)
Definition scanStep (from to : Position) (i : Z) (c : Position) (s : Scan) : Scan :=
  let d1 := distance c from in
  let d2 := distance c to in
  let s := if d1 <? fromDist s
           then {| fromIdx := i; toIdx := toIdx s; fromDist := d1; toDist := toDist s |}
           else s in
  if d2 <? toDist s
  then {| fromIdx := fromIdx s; toIdx := i; fromDist := fromDist s; toDist := d2 |}
  else s.

Fixpoint scanFrom (from to : Position) (i : Z) (cs : list Position) (s : Scan) : Scan :=
  match cs with
  | [] => s
  | c :: cs => scanFrom from to (i + 1) cs (scanStep from to i c s)
  end.

Definition nearest (from to : Position) (cs : list Position) : Scan :=
  scanFrom from to 0 cs scanInit.

Definition score (s : Scan) : num := fromDist s + toDist s.

Definition bestInit : Best :=
  {| bestSegment := None; bestFromIdx := -1; bestToIdx := -1; bestScore := num_infinity |}.

(** One iteration of [for (const segment of segments)]. *)
Definition considerSegment (from to : Position) (b : Best) (segment : LineSegment) : Best :=
  let s := nearest from to (coordinates segment) in
  if (score s <? bestScore b) && negb (fromIdx s =? toIdx s)%Z
  then {| bestSegment := Some segment; bestFromIdx := fromIdx s;
          bestToIdx := toIdx s; bestScore := score s |}
  else b.

Definition selectSegment (from to : Position) (segments : list LineSegment) : Best :=
  foldl (considerSegment from to) bestInit segments.

(** The path between the two indices, turned to run from [from] to [to]. *)
Definition extractPath (cs : list Position) (iFrom iTo : Z) : list Position :=
  let startIdx := Z.min iFrom iTo in
  let endIdx := Z.max iFrom iTo in
  let path := slice cs startIdx (Some (endIdx + 1)%Z) in
  if (iFrom >? iTo)%Z then reverse path else path.

Definition findTrackPath (lineSegments : gmap string (list LineSegment))
    (from to : Position) (name : string) : option (list Position) :=
  match lineSegments !! name with
  | None => None
  | Some segments =>
    if (length segments =? 0)%nat then None
    else
      let b := selectSegment from to segments in
      match bestSegment b with
      | None => None
      | Some segment =>
        if (bestFromIdx b =? -1)%Z || (bestToIdx b =? -1)%Z then None
        else Some (extractPath (coordinates segment) (bestFromIdx b) (bestToIdx b))
      end
  end.
End WithInfinity.

(** ** interpolateAlongPath

    An array read [path[k]] is the partial [path !! k]; [None] is the
    [TypeError] a read of a component of [undefined] raises. *)

(** The loop [for (let i = 1; i < path.length; i++)]: the running total and
    the segment lengths pushed so far. *)
Definition measureStep (path : list Position) (acc : option (num * list num)) (i : nat)
    : option (num * list num) :=
  '(totalLength, segmentLengths) ← acc;
  a ← path !! (i - 1)%nat;
  b ← path !! i;
  let len := distance a b in
  Some (totalLength + len, segmentLengths ++ [len]).

Definition measure (path : list Position) : option (num * list num) :=
  foldl (measureStep path) (Some (lit 0, [])) (seq 1 (length path - 1)).

(** The loop [for (let i = 0; i < segmentLengths.length; i++)] from index [i]
    on, with the fallback to the end behind it. *)
Fixpoint walk (path : list Position) (targetDist : num) (segmentLengths : list num)
    (i : nat) (currentDist : num) : option Position :=
  match segmentLengths with
  | [] => p ← path !! (length path - 1)%nat; Some (p.1, p.2)
  | segLen :: rest =>
    if currentDist + segLen >=? targetDist then
      let segProgress := (targetDist - currentDist) / segLen in
      p1 ← path !! i;
      p2 ← path !! (i + 1)%nat;
      Some (p1.1 + (p2.1 - p1.1) * segProgress, p1.2 + (p2.2 - p1.2) * segProgress)
    else walk path targetDist rest (S i) (currentDist + segLen)
  end.

Definition interpolateAlongPath (path : list Position) (progress : num) : option Position :=
  if (length path =? 0)%nat then Some (lit 0, lit 0)
  else if (length path =? 1)%nat then p ← path !! 0%nat; Some (p.1, p.2)
  else if progress <=? lit 0 then p ← path !! 0%nat; Some (p.1, p.2)
  else if progress >=? lit 1 then p ← path !! (length path - 1)%nat; Some (p.1, p.2)
  else
    '(totalLength, segmentLengths) ← measure path;
    if totalLength =? lit 0 then p ← path !! 0%nat; Some (p.1, p.2)
    else
      let targetDist := progress * totalLength in
      walk path targetDist segmentLengths 0 (lit 0).

(** ** getLineDisplayName *)
Definition LINE_ID_TO_NAME : list (string * string) :=
  [ ("bakerloo", "Bakerloo"); ("central", "Central"); ("circle", "Circle");
    ("district", "District"); ("hammersmith-city", "Hammersmith & City");
    ("jubilee", "Jubilee"); ("metropolitan", "Metropolitan");
    ("northern", "Northern"); ("piccadilly", "Piccadilly");
    ("victoria", "Victoria"); ("waterloo-city", "Waterloo & City") ]%string.

Definition getLineDisplayName (lineId : string) : string :=
  match (list_to_map LINE_ID_TO_NAME : gmap string string) !! lineId with
  | Some name => name
  | None => lineId
  end.
End TrackGeometry.
End TrackGeometry.

(* ================================================================== *)
(** * src/types/train.ts *)
Module TrainTypes.
Section TrainTypes.
Context {num : Type}.

Record Train := {
  id : string;
  lineId : string;
  lineName : string;
  currentStation : string;
  destination : string;
  timeToStation : num;
  direction : string;
  vehicleId : string;
  naptanId : string;
}.

(** [TrainWithPosition extends Train]: the train's fields, then these two. *)
Record TrainWithPosition := {
  train_of : Train;
  position : num * num;
  heading : num;
}.
End TrainTypes.
Arguments Train : clear implicits.
Arguments TrainWithPosition : clear implicits.
End TrainTypes.

(* ================================================================== *)
(** * src/hooks/useTrainPositions.ts, the track-path hook *)
Module TrainPositions.
Section TrainPositions.
Context {num : Type} `{Number num} `{Infinity num}.
Local Open Scope num_scope.

Abbreviation Position := (num * num)%type.
Abbreviation Train := (TrainTypes.Train num).
Abbreviation TrainWithPosition := (TrainTypes.TrainWithPosition num).

(** The collaborators of the hook: the geometry index built at start-up from
    [tfl_lines.json], the station lookup of [stationLookup.ts]
    ([null] is [None]), and [calculateHeading], whose body is
    [Math.atan2] and a remainder, which the number interface leaves out. *)
Context (lineSegments : gmap string (list (@TrackGeometry.LineSegment num))).
Context (getStationCoordinates : string -> option Position).
Context (calculateHeading : Position -> Position -> num).

Record TrainKeyframe := {
  position : Position;
  timestamp : num;
}.

Record TrainState := {
  current : TrainKeyframe;
  previous : option TrainKeyframe;
  train : Train;
  trail : list Position;
  trackPath : option (list Position);
  lastInterpolatedPosition : option Position;
  velocity : Position;
}.

(** [easeInOutQuad]; [Math.pow(x, 2)] is read as [x * x]. *)
Definition easeInOutQuad (t : num) : num :=
  if t <? dec 5 10 then lit 2 * t * t
  else let x := lit (-2) * t + lit 2 in lit 1 - (x * x) / lit 2.

Definition lerp (a b t : num) : num := a + (b - a) * t.

Record Damped := {
  value : num;
  damped_velocity : num;
}.

Definition smoothDamp (current target velocity smoothTime deltaTime : num) : Damped :=
  let omega := lit 2 / smoothTime in
  let x := omega * deltaTime in
  let exp := lit 1 / (lit 1 + x + dec 48 100 * x * x + dec 235 1000 * x * x * x) in
  let change := current - target in
  let temp := (velocity + omega * change) * deltaTime in
  let newVelocity := (velocity - omega * temp) * exp in
  let newValue := target + (change + temp) * exp in
  if Bool.eqb (target - current >? lit 0) (newValue >? target)
  then {| value := target; damped_velocity := lit 0 |}
  else {| value := newValue; damped_velocity := newVelocity |}.

Definition ANIMATION_DURATION : num := lit 14000.
Definition TRAIL_LENGTH : Z := 20.
Definition SMOOTH_TIME : num := dec 5 10.
Definition TRAIL_THRESHOLD : num := dec 3 100000.

(** ** Ingestion: the effect on [trains] *)

Definition posChanged (coords : Position) (existing : TrainState) : bool :=
  (coords.1 !=? (position (current existing)).1) ||
  (coords.2 !=? (position (current existing)).2).

(** [existing.lastInterpolatedPosition || existing.current.position] *)
Definition startPositionOf (existing : TrainState) : Position :=
  default (position (current existing)) (lastInterpolatedPosition existing).

(** The body of [trains.forEach]. *)
Definition updateTrain (now : num) (trainStates : gmap string TrainState) (t : Train)
    : gmap string TrainState :=
  match getStationCoordinates (TrainTypes.currentStation t) with
  | None => trainStates
  | Some coords =>
    match trainStates !! TrainTypes.id t with
    | Some existing =>
      if posChanged coords existing then
        let startPosition := startPositionOf existing in
        let name := TrackGeometry.getLineDisplayName (TrainTypes.lineId t) in
        let path := TrackGeometry.findTrackPath lineSegments startPosition coords name in
        <[TrainTypes.id t := {|
            previous := Some {| position := startPosition;
                                timestamp := timestamp (current existing) |};
            current := {| position := coords; timestamp := now |};
            train := t;
            trail := trail existing;
            trackPath := path;
            lastInterpolatedPosition := Some startPosition;
            velocity := velocity existing |}]> trainStates
      else
        <[TrainTypes.id t := {|
            previous := previous existing;
            current := current existing;
            train := t;
            trail := trail existing;
            trackPath := trackPath existing;
            lastInterpolatedPosition := lastInterpolatedPosition existing;
            velocity := velocity existing |}]> trainStates
    | None =>
      <[TrainTypes.id t := {|
          previous := None;
          current := {| position := coords; timestamp := now |};
          train := t;
          trail := [coords];
          trackPath := None;
          lastInterpolatedPosition := Some coords;
          velocity := (lit 0, lit 0) |}]> trainStates
    end
  end.

Definition currentIds (trains : list Train) : gset string :=
  list_to_set (TrainTypes.id <$> trains).

(** "Remove stale trains". *)
Definition removeStale (trains : list Train) (trainStates : gmap string TrainState)
    : gmap string TrainState :=
  filter (fun entry => entry.1 ∈ currentIds trains) trainStates.

(** The effect; [trains] is [undefined] until the first response. *)
Definition ingest (now : num) (trains : option (list Train))
    (trainStates : gmap string TrainState) : gmap string TrainState :=
  match trains with
  | None => trainStates
  | Some trains => removeStale trains (foldl (updateTrain now) trainStates trains)
  end.

(** ** The animation frame *)

Definition manhattan (a b : Position) : num :=
  num_abs (a.1 - b.1) + num_abs (a.2 - b.2).

(** The body of [trainStates.current.forEach] in [animate]: the state it
    leaves and the entry it pushes; [None] when a read of [undefined] throws. *)
Definition animateState (now deltaTime : num) (state : TrainState)
    : option (TrainState * TrainWithPosition) :=
  match previous state with
  | Some prev =>
    let elapsed := now - timestamp (current state) in
    let rawProgress := num_min (elapsed / ANIMATION_DURATION) (lit 1) in
    let progress := easeInOutQuad rawProgress in
    let straight :=
      ((lerp (position prev).1 (position (current state)).1 progress,
        lerp (position prev).2 (position (current state)).2 progress),
       if ((position prev).1 !=? (position (current state)).1) ||
          ((position prev).2 !=? (position (current state)).2)
       then calculateHeading (position prev) (position (current state))
       else lit 0) in
    '(targetPosition, heading) ←
      match trackPath state with
      | Some path =>
        if (2 <=? length path)%nat then
          targetPosition ← TrackGeometry.interpolateAlongPath path progress;
          let prevProgress := num_max (lit 0) (progress - dec 5 100) in
          let nextProgress := num_min (lit 1) (progress + dec 5 100) in
          prevPos ← TrackGeometry.interpolateAlongPath path prevProgress;
          nextPos ← TrackGeometry.interpolateAlongPath path nextProgress;
          Some (targetPosition, calculateHeading prevPos nextPos)
        else Some straight
      | None => Some straight
      end;
    let currentPos := default (position prev) (lastInterpolatedPosition state) in
    let smoothX := smoothDamp currentPos.1 targetPosition.1 (velocity state).1 SMOOTH_TIME deltaTime in
    let smoothY := smoothDamp currentPos.2 targetPosition.2 (velocity state).2 SMOOTH_TIME deltaTime in
    let pos := (value smoothX, value smoothY) in
    lastTrailPos ← last (trail state);
    let dist := manhattan pos lastTrailPos in
    let trail' := if dist >? TRAIL_THRESHOLD
                  then slice (trail state ++ [pos]) (- TRAIL_LENGTH) None
                  else trail state in
    Some ({| current := current state; previous := previous state; train := train state;
             trail := trail';
             trackPath := trackPath state;
             lastInterpolatedPosition := Some pos;
             velocity := (damped_velocity smoothX, damped_velocity smoothY) |},
          {| TrainTypes.train_of := train state; TrainTypes.position := pos;
             TrainTypes.heading := heading |})
  | None =>
    let pos := position (current state) in
    Some ({| current := current state; previous := previous state; train := train state;
             trail := trail state;
             trackPath := trackPath state;
             lastInterpolatedPosition := Some pos;
             velocity := (lit 0, lit 0) |},
          {| TrainTypes.train_of := train state; TrainTypes.position := pos;
             TrainTypes.heading := lit 0 |})
  end.

(** What the hook keeps between calls: the ref [trainStates] and the module
    variable [lastFrameTime]. *)
Record World := {
  trainStates : gmap string TrainState;
  lastFrameTime : num;
}.

(** One run of [animate] at time [now]: the world it leaves and the positions
    it hands to [setPositions], keyed by train id. *)
Definition animate (now : num) (w : World)
    : option (World * gmap string TrainWithPosition) :=
  let deltaTime := num_min ((now - lastFrameTime w) / lit 1000) (dec 1 10) in
  let frames := animateState now deltaTime <$> trainStates w in
  if decide (map_Forall (fun _ frame => is_Some frame) frames)
  then Some ({| trainStates := omap (fmap fst) frames; lastFrameTime := now |},
             omap (fmap snd) frames)
  else None.

(** The effect of a data arrival on the world. *)
Definition arrive (now : num) (trains : option (list Train)) (w : World) : World :=
  {| trainStates := ingest now trains (trainStates w); lastFrameTime := lastFrameTime w |}.

(** [getTrails] *)
Definition getTrails (w : World) : gmap string (list Position) :=
  trail <$> filter (fun entry => (2 < length (trail entry.2))%nat) (trainStates w).

(** A record as the hook keeps them: a trail that is never empty and never
    above [TRAIL_LENGTH], and a last rendered position. *)
Definition recordOk (state : TrainState) : Prop :=
  (1 <= length (trail state) <= 20)%nat /\ is_Some (lastInterpolatedPosition state).

(** The worlds the hook can be in: it starts with no train, and from then on
    data arrives and frames are drawn, in any order. *)
Inductive reachable : World -> Prop :=
| reachable_start t0 :
    reachable {| trainStates := ∅; lastFrameTime := t0 |}
| reachable_arrive w now trains :
    reachable w -> reachable (arrive now trains w)
| reachable_animate w now w' out :
    reachable w -> animate now w = Some (w', out) -> reachable w'.
End TrainPositions.
End TrainPositions.

(* ================================================================== *)
(** * src/hooks/useTrainPositions.ts, the straight-line hook

    The older version of the hook, of which the data-arrival effect is
    embedded: it keeps a train that left the feed for 60 s. *)
Module TrainPositionsLegacy.
Section TrainPositionsLegacy.
Context {num : Type} `{Number num}.
Local Open Scope num_scope.

Abbreviation Position := (num * num)%type.
Abbreviation Train := (TrainTypes.Train num).

Context (getStationCoordinates : string -> option Position).

Record TrainKeyframe := {
  position : Position;
  timestamp : num;
  timeToStation : num;
}.

Record TrainState := {
  current : TrainKeyframe;
  previous : option TrainKeyframe;
  train : Train;
  trail : list Position;
  velocity : Position;
}.

Definition PREDICTION_SPEED : num := dec 1 100000.
Definition STALE_AFTER : num := lit 60000.

(** The body of [trains.forEach]. *)
Definition updateTrain (now : num) (trainStates : gmap string TrainState) (t : Train)
    : gmap string TrainState :=
  match getStationCoordinates (TrainTypes.currentStation t) with
  | None => trainStates
  | Some coords =>
    let keyframe := {| position := coords; timestamp := now;
                       timeToStation := TrainTypes.timeToStation t |} in
    match trainStates !! TrainTypes.id t with
    | Some existing =>
      let dx := coords.1 - (position (current existing)).1 in
      let dy := coords.2 - (position (current existing)).2 in
      let dist := num_sqrt (dx * dx + dy * dy) in
      let v := if dist >? dec 1 10000
               then (dx / dist * PREDICTION_SPEED, dy / dist * PREDICTION_SPEED)
               else velocity existing in
      <[TrainTypes.id t := {|
          previous := Some (current existing);
          current := keyframe;
          train := t;
          trail := trail existing;
          velocity := v |}]> trainStates
    | None =>
      <[TrainTypes.id t := {|
          previous := None;
          current := keyframe;
          train := t;
          trail := [coords];
          velocity := (lit 0, lit 0) |}]> trainStates
    end
  end.

Definition currentIds (trains : list Train) : gset string :=
  list_to_set (TrainTypes.id <$> trains).

(** "Remove stale trains (not seen for 60 seconds)": an entry goes when
    [!currentIds.has(id) && now - state.current.timestamp > 60000]. *)
Definition isStale (now : num) (trains : list Train) (entry : string * TrainState) : bool :=
  negb (bool_decide (entry.1 ∈ currentIds trains)) &&
  (now - timestamp (current entry.2) >? STALE_AFTER).

Definition removeStale (now : num) (trains : list Train)
    (trainStates : gmap string TrainState) : gmap string TrainState :=
  filter (fun entry => isStale now trains entry = false) trainStates.

Definition ingest (now : num) (trains : option (list Train))
    (trainStates : gmap string TrainState) : gmap string TrainState :=
  match trains with
  | None => trainStates
  | Some trains => removeStale now trains (foldl (updateTrain now) trainStates trains)
  end.
End TrainPositionsLegacy.
End TrainPositionsLegacy.

(* ================================================================== *)
(** * The sampler's arc-length position

    The distance travelled along [path] up to the sampled point, in the
    specification's words: the lengths of the segments before the one the walk
    stops in, plus the distance from that segment's start to the sample. *)
Module ArcLength.
Section ArcLength.
Context {num : Type} `{Number num}.
Local Open Scope num_scope.

Abbreviation Position := (num * num)%type.

(** The lengths of the consecutive segments of a path. *)
Fixpoint segmentLengths (path : list Position) : list num :=
  match path with
  | a :: (b :: _) as rest => TrackGeometry.distance a b :: segmentLengths rest
  | _ => []
  end.

Definition arcLength (path : list Position) : num :=
  foldl num_add (lit 0) (segmentLengths path).

(** The index at which the loop of [TrackGeometry.walk] stops. *)
Fixpoint reachedIndex (targetDist : num) (lens : list num) (i : nat) (currentDist : num) : nat :=
  match lens with
  | [] => i
  | segLen :: rest =>
    if currentDist + segLen >=? targetDist then i
    else reachedIndex targetDist rest (S i) (currentDist + segLen)
  end.

(** The segment holding the sample: the first one at progress 0 or below,
    the last one at progress 1 or above, the one the walk reaches between. *)
Definition sampledSegment (path : list Position) (progress : num) : nat :=
  if progress <=? lit 0 then 0%nat
  else if progress >=? lit 1 then (length path - 2)%nat
  else reachedIndex (progress * arcLength path) (segmentLengths path) 0 (lit 0).

Definition traveled (path : list Position) (progress : num) : option num :=
  let i := sampledSegment path progress in
  start ← path !! i;
  sample ← TrackGeometry.interpolateAlongPath path progress;
  Some (arcLength (take (S i) path) + TrackGeometry.distance start sample).
End ArcLength.
End ArcLength.


(* ================================================================== *)
(** * Exchanging the two ends

    The loop variables of [findTrackPath] with the roles of [from] and [to]
    exchanged: what the same loops hold when the function is called with its
    first two arguments swapped. *)
Module Orientation.
Section Orientation.
Context {num : Type}.

Definition swapScan (s : @TrackGeometry.Scan num) : @TrackGeometry.Scan num :=
  {| TrackGeometry.fromIdx := TrackGeometry.toIdx s;
     TrackGeometry.toIdx := TrackGeometry.fromIdx s;
     TrackGeometry.fromDist := TrackGeometry.toDist s;
     TrackGeometry.toDist := TrackGeometry.fromDist s |}.

Definition swapBest (b : @TrackGeometry.Best num) : @TrackGeometry.Best num :=
  {| TrackGeometry.bestSegment := TrackGeometry.bestSegment b;
     TrackGeometry.bestFromIdx := TrackGeometry.bestToIdx b;
     TrackGeometry.bestToIdx := TrackGeometry.bestFromIdx b;
     TrackGeometry.bestScore := TrackGeometry.bestScore b |}.

(** A polyline on which the two nearest indices differ. *)
Definition nondegenerate (s : @TrackGeometry.Scan num) : bool :=
  negb (TrackGeometry.fromIdx s =? TrackGeometry.toIdx s)%Z.

(** A polyline that passes the test of the outer loop against [Infinity]. *)
Definition qualifies `{Number num} `{Infinity num} (from to : num * num)
    (seg : @TrackGeometry.LineSegment num) : bool :=
  (TrackGeometry.score (TrackGeometry.nearest from to (TrackGeometry.coordinates seg))
     <? num_infinity)%num &&
  nondegenerate (TrackGeometry.nearest from to (TrackGeometry.coordinates seg)).
End Orientation.
End Orientation.


(* ================================================================== *)
(** * A small network, on binary64

    Two stations A = (0,0) and B = (1,0) of the Central line, joined by the
    polyline (0,0), (0.5,0.1), (1,0); one train, seen at A, then at B, then
    at a station the lookup does not know. *)
Module Scenario.
Import JsNumber.

Abbreviation float := PrimFloat.float.

Definition stationA : float * float := (lit 0, lit 0).
Definition stationB : float * float := (lit 1, lit 0).

Definition polyline : list (float * float) :=
  [(lit 0, lit 0); (dec 5 10, dec 1 10); (lit 1, lit 0)].

Definition segment : @TrackGeometry.LineSegment float :=
  {| TrackGeometry.lineName := "Central"; TrackGeometry.coordinates := polyline |}.

Definition lineSegments : gmap string (list (@TrackGeometry.LineSegment float)) :=
  TrackGeometry.initializeLineSegments
    [{| TrackGeometry.lines := ["Central"%string]; TrackGeometry.coords := polyline |}].

Definition getStationCoordinates (stationName : string) : option (float * float) :=
  if String.eqb stationName "A" then Some stationA
  else if String.eqb stationName "B" then Some stationB
  else None.

(** A stand-in for [calculateHeading]. *)
Definition noHeading (a b : float * float) : float := lit 0.

Definition trainAt (stationName : string) : TrainTypes.Train float :=
  {| TrainTypes.id := "central-1"; TrainTypes.lineId := "central";
     TrainTypes.lineName := "Central"; TrainTypes.currentStation := stationName;
     TrainTypes.destination := "Ealing Broadway"; TrainTypes.timeToStation := lit 60;
     TrainTypes.direction := "outbound"; TrainTypes.vehicleId := "1";
     TrainTypes.naptanId := "940GZZLUXXX" |}.

(** The record of the train once it has been seen at A at time 1000. *)
Definition seenAtA : @TrainPositions.TrainState float :=
  {| TrainPositions.current :=
       {| TrainPositions.position := stationA; TrainPositions.timestamp := lit 1000 |};
     TrainPositions.previous := None;
     TrainPositions.train := trainAt "A";
     TrainPositions.trail := [stationA];
     TrainPositions.trackPath := None;
     TrainPositions.lastInterpolatedPosition := Some stationA;
     TrainPositions.velocity := (lit 0, lit 0) |}.

Definition storeA : gmap string (@TrainPositions.TrainState float) :=
  TrainPositions.ingest lineSegments getStationCoordinates (lit 1000) (Some [trainAt "A"]) ∅.

Definition legacySeenAtA : @TrainPositionsLegacy.TrainState float :=
  {| TrainPositionsLegacy.current :=
       {| TrainPositionsLegacy.position := stationA;
          TrainPositionsLegacy.timestamp := lit 1000;
          TrainPositionsLegacy.timeToStation := lit 60 |};
     TrainPositionsLegacy.previous := None;
     TrainPositionsLegacy.train := trainAt "A";
     TrainPositionsLegacy.trail := [stationA];
     TrainPositionsLegacy.velocity := (lit 0, lit 0) |}.

Definition legacyStoreA : gmap string (@TrainPositionsLegacy.TrainState float) :=
  TrainPositionsLegacy.ingest getStationCoordinates (lit 1000) (Some [trainAt "A"]) ∅.

(** The record of the train once it has then been reported at B at 16000. *)
Definition movingToB : @TrainPositions.TrainState float :=
  {| TrainPositions.current :=
       {| TrainPositions.position := stationB; TrainPositions.timestamp := lit 16000 |};
     TrainPositions.previous :=
       Some {| TrainPositions.position := stationA; TrainPositions.timestamp := lit 1000 |};
     TrainPositions.train := trainAt "B";
     TrainPositions.trail := [stationA];
     TrainPositions.trackPath := Some polyline;
     TrainPositions.lastInterpolatedPosition := Some stationA;
     TrainPositions.velocity := (lit 0, lit 0) |}.

(** The same record some seconds later: rendered at (0.25, 0.05), moving. *)
Definition cruising : @TrainPositions.TrainState float :=
  {| TrainPositions.current :=
       {| TrainPositions.position := stationB; TrainPositions.timestamp := lit 16000 |};
     TrainPositions.previous :=
       Some {| TrainPositions.position := stationA; TrainPositions.timestamp := lit 1000 |};
     TrainPositions.train := trainAt "B";
     TrainPositions.trail := [stationA; (dec 25 100, dec 5 100)];
     TrainPositions.trackPath := Some polyline;
     TrainPositions.lastInterpolatedPosition := Some (dec 25 100, dec 5 100);
     TrainPositions.velocity := (dec 3 100, dec 1 100) |}.

Definition storeCruising : gmap string (@TrainPositions.TrainState float) :=
  {[ "central-1"%string := cruising ]}.

(** The hook at its start and after the sighting at A. *)
Definition world0 : @TrainPositions.World float :=
  {| TrainPositions.trainStates := ∅; TrainPositions.lastFrameTime := lit 0 |}.

Definition world1 : @TrainPositions.World float :=
  TrainPositions.arrive lineSegments getStationCoordinates (lit 1000) (Some [trainAt "A"]) world0.

(** A path over the reals with segments of lengths 5 and 6. *)
Definition realPath : list (Rdefinitions.R * Rdefinitions.R) :=
  [(Rdefinitions.IZR 0, Rdefinitions.IZR 0); (Rdefinitions.IZR 3, Rdefinitions.IZR 4);
   (Rdefinitions.IZR 3, Rdefinitions.IZR 10)].
End Scenario.

(* ================================================================== *)
(** * JavaScript strings and maps *)
Module Js.

(** [s || fallback] on strings: the empty string is falsy. *)
Definition orElse (s fallback : string) : string :=
  match s with
  | EmptyString => fallback
  | _ => s
  end.

Fixpoint dropString (n : nat) (s : string) : string :=
  match n, s with
  | S n, String _ s => dropString n s
  | _, _ => s
  end.

(** [s.replace(pattern, replacement)] with a string pattern: the first
    occurrence is replaced (the replacements of the sources hold no [$]). *)
Fixpoint replace (pattern replacement s : string) : string :=
  if String.prefix pattern s
  then replacement +:+ dropString (String.length pattern) s
  else match s with
       | EmptyString => EmptyString
       | String c s => String c (replace pattern replacement s)
       end.

(** [s.includes(part)] *)
Fixpoint includes (s part : string) : bool :=
  String.prefix part s ||
  match s with
  | EmptyString => false
  | String _ s => includes s part
  end.

(** A [Map] with string keys, as the list of its entries in insertion order:
    [set] on a key the map holds replaces the value where the entry stands. *)
Fixpoint set {V} (key : string) (v : V) (m : list (string * V)) : list (string * V) :=
  match m with
  | [] => [(key, v)]
  | (k, w) :: m => if String.eqb k key then (key, v) :: m else (k, w) :: set key v m
  end.

Fixpoint get {V} (key : string) (m : list (string * V)) : option V :=
  match m with
  | [] => None
  | (k, w) :: m => if String.eqb k key then Some w else get key m
  end.

(** [new Map(entries)] *)
Definition mapOf {V} (entries : list (string * V)) : list (string * V) :=
  foldl (fun m entry => set entry.1 entry.2 m) [] entries.

(** [Array.from(m.values())] *)
Definition values {V} (m : list (string * V)) : list V := snd <$> m.
End Js.

(* ================================================================== *)
(** * src/lib/lineColors.ts *)
Module LineColors.

Definition LINE_COLORS : list (string * string) :=
  [ ("Bakerloo", "#B36305"); ("Central", "#E32017"); ("Circle", "#FFD300");
    ("District", "#00782A"); ("Hammersmith & City", "#F3A9BB");
    ("Jubilee", "#A0A5A9"); ("Metropolitan", "#9B0056"); ("Northern", "#000000");
    ("Piccadilly", "#003688"); ("Victoria", "#0098D4");
    ("Waterloo & City", "#95CDBA"); ("Elizabeth", "#7156A5");
    ("London Overground", "#EE7C0E"); ("DLR", "#00A4A7"); ("Tram", "#84B817") ]%string.

Definition LINE_CODES : list (string * string) :=
  [ ("B", "Bakerloo"); ("C", "Central"); ("D", "District");
    ("H", "Hammersmith & City"); ("J", "Jubilee"); ("M", "Metropolitan");
    ("N", "Northern"); ("P", "Piccadilly"); ("V", "Victoria");
    ("W", "Waterloo & City"); ("L", "Circle") ]%string.

Definition UNDERGROUND_LINES : list string :=
  [ "Bakerloo"; "Central"; "Circle"; "District"; "Hammersmith & City"; "Jubilee";
    "Metropolitan"; "Northern"; "Piccadilly"; "Victoria"; "Waterloo & City" ]%string.

(** [LINE_COLORS[lineName] || '#888888']: the table holds no empty colour. *)
Definition getLineColor (lineName : string) : string :=
  match Js.get lineName LINE_COLORS with
  | Some color => Js.orElse color "#888888"
  | None => "#888888"
  end.

Definition isUndergroundLine (lineName : string) : bool :=
  bool_decide (lineName ∈ UNDERGROUND_LINES).
End LineColors.

(* ================================================================== *)
(** * api/trains.ts

    The serverless function behind [/api/trains], and its copy in the
    development server of [vite.config.ts]. What the TfL service answers for
    a line is a parameter: the array of arrivals, or [None] when the request
    fails, the status is not [ok] or the body does not parse. *)
Module Api.
Section Api.
Context {num : Type} `{Number num}.
Local Open Scope num_scope.

Abbreviation Train := (TrainTypes.Train num).

Definition LINE_IDS : list string :=
  [ "bakerloo"; "central"; "circle"; "district"; "hammersmith-city"; "jubilee";
    "metropolitan"; "northern"; "piccadilly"; "victoria"; "waterloo-city" ]%string.

Definition LINE_DISPLAY_NAMES : list (string * string) :=
  [ ("bakerloo", "Bakerloo"); ("central", "Central"); ("circle", "Circle");
    ("district", "District"); ("hammersmith-city", "Hammersmith & City");
    ("jubilee", "Jubilee"); ("metropolitan", "Metropolitan");
    ("northern", "Northern"); ("piccadilly", "Piccadilly");
    ("victoria", "Victoria"); ("waterloo-city", "Waterloo & City") ]%string.

Record TflArrival := {
  id : string;
  vehicleId : string;
  naptanId : string;
  stationName : string;
  lineId : string;
  lineName : string;
  platformName : string;
  direction : string;
  destinationName : string;
  timeToStation : num;
}.

(** The object literal pushed for an arrival. *)
Definition trainOfArrival (line : string) (arrival : TflArrival) : Train :=
  {| TrainTypes.id := line +:+ "-" +:+ vehicleId arrival;
     TrainTypes.lineId := line;
     TrainTypes.lineName :=
       match Js.get line LINE_DISPLAY_NAMES with
       | Some name => Js.orElse name (lineName arrival)
       | None => lineName arrival
       end;
     TrainTypes.currentStation :=
       Js.replace " Underground Station" "" (Js.orElse (stationName arrival) "Unknown");
     TrainTypes.destination :=
       Js.replace " Underground Station" "" (Js.orElse (destinationName arrival) "Unknown");
     TrainTypes.timeToStation := timeToStation arrival;
     TrainTypes.direction := Js.orElse (direction arrival) "";
     TrainTypes.vehicleId := vehicleId arrival;
     TrainTypes.naptanId := Js.orElse (naptanId arrival) "" |}.

(** One iteration of [for (const arrival of arrivals)], on the array
    [trains] and the set [seenVehicles]. *)
Definition arrivalStep (line : string) (acc : list Train * gset string)
    (arrival : TflArrival) : list Train * gset string :=
  let '(trains, seenVehicles) := acc in
  if decide (vehicleId arrival ∈ seenVehicles) then acc
  else
    let seenVehicles := seenVehicles ∪ {[ vehicleId arrival ]} in
    if timeToStation arrival >? lit 300 then (trains, seenVehicles)
    else (trains ++ [trainOfArrival line arrival], seenVehicles).

Definition trainsOfArrivals (line : string) (arrivals : list TflArrival) : list Train :=
  (foldl (arrivalStep line) ([], ∅) arrivals).1.

Definition fetchLineData (line : string) (response : option (list TflArrival))
    : list Train :=
  match response with
  | None => []
  | Some arrivals => trainsOfArrivals line arrivals
  end.

(** [results.flat()] *)
Definition allTrains (responses : string -> option (list TflArrival)) : list Train :=
  mjoin ((fun line => fetchLineData line (responses line)) <$> LINE_IDS).

(** [Array.from(new Map(allTrains.map(t => [t.id, t])).values())] *)
Definition uniqueTrains (trains : list Train) : list Train :=
  Js.values (Js.mapOf ((fun t => (TrainTypes.id t, t)) <$> trains)).

(** The [trains] field of the response of [handler]. *)
Definition handler (responses : string -> option (list TflArrival)) : list Train :=
  uniqueTrains (allTrains responses).
End Api.
End Api.

(* ================================================================== *)
(** * src/lib/stationLookup.ts

    [normalizeStationName] is a chain of regular-expression replacements and
    [toLowerCase] is Unicode's: both are parameters. A feature of
    [tfl_stations.json] is read through [properties?.name] and
    [geometry?.coordinates], either of which can be missing. *)
Module StationLookup.
Section StationLookup.
Context {num : Type}.
Context (normalizeStationName : string -> string).
Context (toLowerCase : string -> string).

Abbreviation Position := (num * num)%type.

Record StationFeature := {
  name : option string;
  coordinates : option Position;
}.

(** The body of [for (const feature of features)]. *)
Definition addStation (stationMap : list (string * Position)) (feature : StationFeature)
    : list (string * Position) :=
  match name feature, coordinates feature with
  | Some n, Some coords =>
    match n with
    | EmptyString => stationMap
    | _ => Js.set (toLowerCase n) coords (Js.set (normalizeStationName n) coords stationMap)
    end
  | _, _ => stationMap
  end.

Definition buildStationMap (features : list StationFeature) : list (string * Position) :=
  foldl addStation [] features.

Definition aliases : list (string * string) :=
  [ ("king's cross st. pancras", "kings cross st pancras");
    ("kings cross", "kings cross st pancras");
    ("hammersmith (h&c line)", "hammersmith");
    ("hammersmith (district line)", "hammersmith");
    ("edgware road (bakerloo)", "edgware road");
    ("edgware road (circle)", "edgware road");
    ("paddington (h&c line)", "paddington");
    ("shepherd's bush market", "shepherds bush market");
    ("shepherd's bush", "shepherds bush");
    ("st. james's park", "st jamess park");
    ("st james's park", "st jamess park");
    ("highbury & islington", "highbury and islington");
    ("earls court", "earl's court") ]%string.

(** The test of the partial match on an entry of the map. *)
Definition partialMatch (normalized : string) (entry : string * Position) : bool :=
  Js.includes entry.1 normalized || Js.includes normalized entry.1.

(** A feature the initialization registers under [key]: it has a name and
    coordinates, and [key] is the normalized or the lower-case name. *)
Definition keyedBy (key : string) (feature : StationFeature) : Prop :=
  exists n coords,
    name feature = Some n /\ n <> EmptyString /\ coordinates feature = Some coords /\
    (normalizeStationName n = key \/ toLowerCase n = key).

Definition getStationCoordinates (stationMap : list (string * Position))
    (stationName : string) : option Position :=
  match stationName with
  | EmptyString => None
  | _ =>
    let normalized := normalizeStationName stationName in
    match Js.get normalized stationMap with
    | Some coords => Some coords
    | None =>
      match alias ← Js.get normalized aliases; Js.get alias stationMap with
      | Some coords => Some coords
      | None => snd <$> List.find (partialMatch normalized) stationMap
      end
    end
  end.
End StationLookup.
End StationLookup.

(* ================================================================== *)
(** * src/components/Map/TubeMap.tsx: the helpers above the component *)
Module TubeMap.

(** A feature of [tfl_lines.json] or [tfl_stations.json] as the filters read
    it: the names in [properties?.lines], which can be missing, and the
    rest, which they copy. *)
Record DataFeature (A : Type) := {
  lines : option (list string);
  rest : A;
}.
Arguments lines {A}.
Arguments rest {A}.

(** [lines.some(line => isUndergroundLine(line.name))], with [lines] read
    through [|| []]. *)
Definition someUnderground {A} (feature : DataFeature A) : bool :=
  existsb LineColors.isUndergroundLine (default [] (lines feature)).

(** [lines?.find(line => isUndergroundLine(line.name))?.name || 'Unknown'] *)
Definition firstUnderground {A} (feature : DataFeature A) : string :=
  match lines feature ≫= List.find LineColors.isUndergroundLine with
  | Some n => Js.orElse n "Unknown"
  | None => "Unknown"
  end.

(** The features [filterUndergroundLines] returns, each with the [lineName]
    property it adds. *)
Definition filterUndergroundLines {A} (features : list (DataFeature A))
    : list (DataFeature A * string) :=
  (fun feature => (feature, firstUnderground feature)) <$> List.filter someUnderground features.

Definition filterUndergroundStations {A} (features : list (DataFeature A))
    : list (DataFeature A) :=
  List.filter someUnderground features.

(** [LINE_COLORS[lineName] || '#888888'] *)
Definition colorOf (lineName : string) : string :=
  match Js.get lineName LineColors.LINE_COLORS with
  | Some color => Js.orElse color "#888888"
  | None => "#888888"
  end.

Section TrainsSource.
Context {num : Type}.

(** The properties and the point of a feature of the [trains] source. *)
Record TrainFeature := {
  id : string;
  lineId : string;
  lineName : string;
  destination : string;
  timeToStation : num;
  heading : num;
  color : string;
  coordinates : num * num;
}.

Definition trainsToGeoJSON (trains : list (TrainTypes.TrainWithPosition num))
    : list TrainFeature :=
  (fun train =>
     {| id := TrainTypes.id (TrainTypes.train_of train);
        lineId := TrainTypes.lineId (TrainTypes.train_of train);
        lineName := TrainTypes.lineName (TrainTypes.train_of train);
        destination := TrainTypes.destination (TrainTypes.train_of train);
        timeToStation := TrainTypes.timeToStation (TrainTypes.train_of train);
        heading := TrainTypes.heading train;
        color := colorOf (TrainTypes.lineName (TrainTypes.train_of train));
        coordinates := TrainTypes.position train |}) <$> trains.
End TrainsSource.
End TubeMap.

(* ================================================================== *)
(** * src/hooks/useTrainPositions.ts, the straight-line hook: the frame *)
Module LegacyAnimation.
Section LegacyAnimation.
Context {num : Type} `{Number num}.
Local Open Scope num_scope.

Import TrainPositionsLegacy.

Abbreviation Position := (num * num)%type.
Abbreviation TrainState := (@TrainPositionsLegacy.TrainState num).
Abbreviation TrainWithPosition := (TrainTypes.TrainWithPosition num).

Context (getStationCoordinates : string -> option Position).
Context (calculateHeading : Position -> Position -> num).

Definition easeOutQuad (t : num) : num := lit 1 - (lit 1 - t) * (lit 1 - t).

Definition lerp (a b t : num) : num := a + (b - a) * t.

Definition INTERPOLATION_DURATION : num := lit 15000.
Definition TRAIL_LENGTH : Z := 15.
Definition TRAIL_THRESHOLD : num := dec 5 100000.

(** The position a frame at [now] renders a record with the previous
    keyframe [prev] at. *)
Definition render (now : num) (prev : TrainKeyframe) (state : TrainState) : Position :=
  let elapsed := now - timestamp (current state) in
  let rawProgress := num_min (elapsed / INTERPOLATION_DURATION) (lit 1) in
  let progress := easeOutQuad rawProgress in
  let pos := (lerp (position prev).1 (position (current state)).1 progress,
              lerp (position prev).2 (position (current state)).2 progress) in
  if (rawProgress >=? lit 1) &&
     (((velocity state).1 !=? lit 0) || ((velocity state).2 !=? lit 0))
  then
    let extraTime := (elapsed - INTERPOLATION_DURATION) / lit 1000 in
    (pos.1 + (velocity state).1 * extraTime * dec 3 10,
     pos.2 + (velocity state).2 * extraTime * dec 3 10)
  else pos.

(** The body of [trainStates.current.forEach] in [animate]. *)
Definition animateState (now : num) (state : TrainState)
    : option (TrainState * TrainWithPosition) :=
  match previous state with
  | Some prev =>
    let pos := render now prev state in
    let heading := calculateHeading (position prev) (position (current state)) in
    lastTrailPos ← last (trail state);
    let dist := num_abs (pos.1 - lastTrailPos.1) + num_abs (pos.2 - lastTrailPos.2) in
    let trail' := if dist >? TRAIL_THRESHOLD
                  then slice (trail state ++ [pos]) (- TRAIL_LENGTH) None
                  else trail state in
    Some ({| current := current state; previous := previous state; train := train state;
             trail := trail'; velocity := velocity state |},
          {| TrainTypes.train_of := train state; TrainTypes.position := pos;
             TrainTypes.heading := heading |})
  | None =>
    Some (state,
          {| TrainTypes.train_of := train state;
             TrainTypes.position := position (current state);
             TrainTypes.heading := lit 0 |})
  end.

(** One run of [animate] at time [now] on the ref [trainStates]. *)
Definition animate (now : num) (trainStates : gmap string TrainState)
    : option (gmap string TrainState * gmap string TrainWithPosition) :=
  let frames := animateState now <$> trainStates in
  if decide (map_Forall (fun _ frame => is_Some frame) frames)
  then Some (omap (fmap fst) frames, omap (fmap snd) frames)
  else None.

(** [getTrails] *)
Definition getTrails (trainStates : gmap string TrainState) : gmap string (list Position) :=
  trail <$> filter (fun entry => (1 < length (trail entry.2))%nat) trainStates.

(** A trail as the hook keeps them: never empty, never above [TRAIL_LENGTH]. *)
Definition trailOk (state : TrainState) : Prop := (1 <= length (trail state) <= 15)%nat.

(** The stores the hook can hold: none at its start, and from then on data
    arrives and frames are drawn, in any order. *)
Inductive reachable : gmap string TrainState -> Prop :=
| reachable_start : reachable ∅
| reachable_arrive st now trains :
    reachable st -> reachable (ingest getStationCoordinates now trains st)
| reachable_animate st now st' out :
    reachable st -> animate now st = Some (st', out) -> reachable st'.
End LegacyAnimation.
End LegacyAnimation.

(* ================================================================== *)
(** * Records of the track-path hook *)
Module Records.
Section Records.
Context {num : Type} `{Number num}.

(** [existing.train = train] *)
Definition withTrain (t : TrainTypes.Train num) (existing : @TrainPositions.TrainState num)
    : @TrainPositions.TrainState num :=
  {| TrainPositions.previous := TrainPositions.previous existing;
     TrainPositions.current := TrainPositions.current existing;
     TrainPositions.train := t;
     TrainPositions.trail := TrainPositions.trail existing;
     TrainPositions.trackPath := TrainPositions.trackPath existing;
     TrainPositions.lastInterpolatedPosition :=
       TrainPositions.lastInterpolatedPosition existing;
     TrainPositions.velocity := TrainPositions.velocity existing |}.

(** What holds of the record the hook keeps under the id [k]: it is the
    record of the train of that id; a path it holds has two points or more
    and comes with a previous keyframe; and without a previous keyframe the
    record is as it was created. *)
Definition recordSound (k : string) (s : @TrainPositions.TrainState num) : Prop :=
  TrainTypes.id (TrainPositions.train s) = k /\
  (forall path, TrainPositions.trackPath s = Some path ->
     (2 <= length path)%nat /\ is_Some (TrainPositions.previous s)) /\
  (TrainPositions.previous s = None ->
     TrainPositions.trail s = [TrainPositions.position (TrainPositions.current s)] /\
     TrainPositions.lastInterpolatedPosition s
       = Some (TrainPositions.position (TrainPositions.current s)) /\
     TrainPositions.velocity s = (lit 0, lit 0)).
End Records.
End Records.

(* ================================================================== *)
(** * The geometry index, by line name *)
Module GeometryIndex.
Section GeometryIndex.
Context {num : Type}.

(** The polylines of the features that name the line [name], in the order of
    the file, once for each time a feature with two coordinates or more
    names it. *)
Definition segmentsNamed (name : string) (features : list (@TrackGeometry.Feature num))
    : list (@TrackGeometry.LineSegment num) :=
  features ≫= fun feature =>
    if (length (TrackGeometry.coords feature) <? 2)%nat then []
    else (fun _ => {| TrackGeometry.lineName := name;
                      TrackGeometry.coordinates := TrackGeometry.coords feature |})
           <$> filter (fun line => line = name) (TrackGeometry.lines feature).
End GeometryIndex.
End GeometryIndex.

(* ================================================================== *)
(** * From the feed to the map

    The worlds of the track-path hook when the batches it takes in are the
    responses of [/api/trains]. *)
Module Pipeline.
Section Pipeline.
Context {num : Type} `{Number num} `{Infinity num}.
Context (lineSegments : gmap string (list (@TrackGeometry.LineSegment num))).
Context (getStationCoordinates : string -> option (num * num)).
Context (calculateHeading : num * num -> num * num -> num).

Inductive live : @TrainPositions.World num -> Prop :=
| live_start t0 :
    live {| TrainPositions.trainStates := ∅; TrainPositions.lastFrameTime := t0 |}
| live_response w now responses :
    live w ->
    live (TrainPositions.arrive lineSegments getStationCoordinates now
            (Some (Api.handler responses)) w)
| live_animate w now w' out :
    live w -> TrainPositions.animate calculateHeading now w = Some (w', out) -> live w'.

(** The features [updateSources] hands to the [trains] source after a frame
    that pushed the positions [out]. *)
Definition trainFeatures (out : gmap string (TrainTypes.TrainWithPosition num))
    : list (@TubeMap.TrainFeature num) :=
  TubeMap.trainsToGeoJSON (map_to_list out).*2.
End Pipeline.
End Pipeline.

(* ================================================================== *)
(** * The small network, continued

    The train of the small network on its way from A to B; a response of the
    feed for the Central line; and a file of two stations. *)
Module Journey.
Import JsNumber.

Abbreviation float := PrimFloat.float.

(** The world a frame at [now] leaves and the positions it pushes: the world
    as it was and no position, should the frame raise. *)
Definition frame (now : float) (w : @TrainPositions.World float) : @TrainPositions.World float :=
  match TrainPositions.animate Scenario.noHeading now w with
  | Some (w', _) => w'
  | None => w
  end.

Definition positions (now : float) (w : @TrainPositions.World float)
    : gmap string (TrainTypes.TrainWithPosition float) :=
  match TrainPositions.animate Scenario.noHeading now w with
  | Some (_, out) => out
  | None => ∅
  end.

(** The train is reported at B at 16000; frames follow at 17000 and 17100. *)
Definition world2 : @TrainPositions.World float :=
  TrainPositions.arrive Scenario.lineSegments Scenario.getStationCoordinates (lit 16000)
    (Some [Scenario.trainAt "B"]) Scenario.world1.

Definition world3 : @TrainPositions.World float := frame (lit 17000) world2.
Definition world4 : @TrainPositions.World float := frame (lit 17100) world3.

(** ** A response of the feed *)
Definition arrival (vehicle station : string) (seconds : Z) : @Api.TflArrival float :=
  {| Api.id := "1234567"; Api.vehicleId := vehicle; Api.naptanId := "940GZZLUXXX";
     Api.stationName := station; Api.lineId := "central"; Api.lineName := "Central";
     Api.platformName := "Westbound - Platform 1"; Api.direction := "outbound";
     Api.destinationName := "Ealing Broadway Underground Station";
     Api.timeToStation := lit seconds |}.

(** Vehicle 201 is listed 400 s from A, then 100 s from B; vehicle 202 is
    60 s from B. The other lines do not answer. *)
Definition responses (line : string) : option (list (@Api.TflArrival float)) :=
  if String.eqb line "central"
  then Some [arrival "201" "A" 400; arrival "201" "B" 100; arrival "202" "B" 60]
  else None.

Definition fed : @TrainPositions.World float :=
  TrainPositions.arrive Scenario.lineSegments Scenario.getStationCoordinates (lit 1000)
    (Some (Api.handler responses)) Scenario.world0.

(** ** A file of stations *)

Definition lowerAscii (c : Ascii.ascii) : Ascii.ascii :=
  let n := Ascii.nat_of_ascii c in
  if (65 <=? n)%nat && (n <=? 90)%nat then Ascii.ascii_of_nat (n + 32) else c.

(** [toLowerCase] on ASCII. *)
Fixpoint toLowerCase (s : string) : string :=
  match s with
  | EmptyString => EmptyString
  | String c s => String (lowerAscii c) (toLowerCase s)
  end.

(** A stand-in for [normalizeStationName]: lower case, without the first
    [" station"]. *)
Definition normalizeStationName (s : string) : string :=
  Js.replace " station" "" (toLowerCase s).

Definition bank : @StationLookup.StationFeature float :=
  {| StationLookup.name := Some "Bank Station"%string;
     StationLookup.coordinates := Some Scenario.stationB |}.

Definition oval : @StationLookup.StationFeature float :=
  {| StationLookup.name := Some "Oval"%string;
     StationLookup.coordinates := Some Scenario.stationA |}.

Definition stations : list (@StationLookup.StationFeature float) := [bank; oval].

Definition stationMap : list (string * (float * float)) :=
  StationLookup.buildStationMap normalizeStationName toLowerCase stations.

Definition atOval : @TrainPositions.World float :=
  TrainPositions.arrive Scenario.lineSegments
    (StationLookup.getStationCoordinates normalizeStationName stationMap) (lit 1000)
    (Some [Scenario.trainAt "Oval"]) Scenario.world0.
End Journey.


(* ================================================================== *)
(** * The train store under a data arrival *)
Section Arrival.
Context {num : Type} `{Number num} `{Infinity num}.
Context (lineSegments : gmap string (list (@TrackGeometry.LineSegment num))).
Context (getStationCoordinates : string -> option (num * num)%type).

Abbreviation TrainState := (@TrainPositions.TrainState num).
Abbreviation updateTrain := (TrainPositions.updateTrain lineSegments getStationCoordinates).
Abbreviation ingest := (TrainPositions.ingest lineSegments getStationCoordinates).

(** An update writes under the train's own id only. *)
Lemma updateTrain_other now (st : gmap string TrainState) t k :
  TrainTypes.id t ≠ k -> updateTrain now st t !! k = st !! k.
Proof.
  intros Hne. unfold TrainPositions.updateTrain.
  destruct (getStationCoordinates _) as [coords|]; [|done].
  destruct (st !! TrainTypes.id t) as [existing|].
  - destruct (TrainPositions.posChanged coords existing); by rewrite lookup_insert_ne.
  - by rewrite lookup_insert_ne.
Qed.

Lemma updateTrain_unresolved now (st : gmap string TrainState) t :
  getStationCoordinates (TrainTypes.currentStation t) = None -> updateTrain now st t = st.
Proof. intros Hno. unfold TrainPositions.updateTrain. by rewrite Hno. Qed.

Lemma foldl_updateTrain_other now trains (st : gmap string TrainState) k :
  k ∉ TrainTypes.id <$> trains -> foldl (updateTrain now) st trains !! k = st !! k.
Proof.
  revert st. induction trains as [|t trains IH]; intros st Hk; [done|].
  rewrite fmap_cons, not_elem_of_cons in Hk. destruct Hk as [Hne Hk].
  simpl. rewrite IH by done. by apply updateTrain_other.
Qed.

Lemma removeStale_lookup trains (st : gmap string TrainState) k :
  TrainPositions.removeStale trains st !! k =
  if decide (k ∈ TrainTypes.id <$> trains) then st !! k else None.
Proof.
  unfold TrainPositions.removeStale, TrainPositions.currentIds.
  destruct (decide _) as [Hin|Hout].
  - destruct (st !! k) as [s|] eqn:Hs.
    + apply map_lookup_filter_Some. split; [done|]. simpl. by apply elem_of_list_to_set.
    + apply map_lookup_filter_None. by left.
  - apply map_lookup_filter_None. right. intros s _. simpl.
    by rewrite elem_of_list_to_set.
Qed.

(** In a batch whose ids are distinct, the record of a train of the batch is
    the one its own update leaves. *)
Lemma ingest_lookup_unique now trains (st : gmap string TrainState) t :
  NoDup (TrainTypes.id <$> trains) -> t ∈ trains ->
  ingest now (Some trains) st !! TrainTypes.id t = updateTrain now st t !! TrainTypes.id t.
Proof.
  intros Hnd Hin. simpl. rewrite removeStale_lookup.
  rewrite decide_True by (by apply list_elem_of_fmap_2).
  apply list_elem_of_split in Hin as (l1 & l2 & ->).
  rewrite fmap_app, fmap_cons in Hnd.
  apply NoDup_app in Hnd as (_ & Hl1 & Hnd). apply NoDup_cons in Hnd as [Hl2 _].
  rewrite foldl_app. simpl. rewrite foldl_updateTrain_other by done.
  assert (Hk : TrainTypes.id t ∉ TrainTypes.id <$> l1).
  { intros Hk. apply (Hl1 _ Hk). left. }
  unfold TrainPositions.updateTrain at 1 3.
  destruct (getStationCoordinates _) as [coords|].
  - rewrite (foldl_updateTrain_other now l1 st _ Hk).
    destruct (st !! TrainTypes.id t) as [existing|].
    + destruct (TrainPositions.posChanged coords existing); by rewrite !lookup_insert_eq.
    + by rewrite !lookup_insert_eq.
  - by apply foldl_updateTrain_other.
Qed.

(** A train that is not in the batch is gone after the arrival. *)
Lemma ingest_absent now trains (st : gmap string TrainState) k :
  k ∉ TrainTypes.id <$> trains -> ingest now (Some trains) st !! k = None.
Proof. intros Hk. simpl. rewrite removeStale_lookup. by rewrite decide_False. Qed.
End Arrival.


(** ** The straight-line hook *)
Section LegacyArrival.
Context {num : Type} `{Number num}.
Context (getStationCoordinates : string -> option (num * num)).

Abbreviation LegacyState := (@TrainPositionsLegacy.TrainState num).
Abbreviation legacyUpdate := (TrainPositionsLegacy.updateTrain getStationCoordinates).

Lemma legacy_updateTrain_other now (st : gmap string LegacyState) t k :
  TrainTypes.id t ≠ k -> legacyUpdate now st t !! k = st !! k.
Proof.
  intros Hne. unfold TrainPositionsLegacy.updateTrain.
  destruct (getStationCoordinates _) as [coords|]; [|done].
  destruct (st !! TrainTypes.id t); by rewrite lookup_insert_ne.
Qed.

Lemma legacy_foldl_other now trains (st : gmap string LegacyState) k :
  k ∉ TrainTypes.id <$> trains -> foldl (legacyUpdate now) st trains !! k = st !! k.
Proof.
  revert st. induction trains as [|t trains IH]; intros st Hk; [done|].
  rewrite fmap_cons, not_elem_of_cons in Hk. destruct Hk as [Hne Hk].
  simpl. rewrite IH by done. by apply legacy_updateTrain_other.
Qed.

(** A train that is not in the batch stays until its last keyframe is more
    than 60 s old. *)
Lemma legacy_ingest_absent now trains (st : gmap string LegacyState) k :
  k ∉ TrainTypes.id <$> trains ->
  TrainPositionsLegacy.ingest getStationCoordinates now (Some trains) st !! k =
  s ← st !! k;
  if (now - TrainPositionsLegacy.timestamp (TrainPositionsLegacy.current s) >? lit 60000)%num
  then None else Some s.
Proof.
  intros Hk. simpl. unfold TrainPositionsLegacy.removeStale.
  pose proof (legacy_foldl_other now trains st k Hk) as Hsame.
  assert (Hset : k ∉ TrainPositionsLegacy.currentIds trains).
  { unfold TrainPositionsLegacy.currentIds. by rewrite elem_of_list_to_set. }
  destruct (st !! k) as [s|] eqn:Hs; simpl.
  - destruct (num_ltb _ _) eqn:Hold.
    + apply map_lookup_filter_None. right. intros s' Hs'.
      rewrite Hsame in Hs'. injection Hs' as <-.
      unfold TrainPositionsLegacy.isStale, TrainPositionsLegacy.STALE_AFTER. simpl.
      rewrite bool_decide_eq_false_2 by done. simpl. by rewrite Hold.
    + apply map_lookup_filter_Some. split; [by rewrite Hsame|].
      unfold TrainPositionsLegacy.isStale, TrainPositionsLegacy.STALE_AFTER. simpl.
      rewrite Hold. apply andb_false_r.
  - apply map_lookup_filter_None. left. by rewrite Hsame.
Qed.
End LegacyArrival.

(* ================================================================== *)
(** * Keyframes, momentum, eviction and unresolved stations *)

(** C1, as the code has it. When the station of a train resolves to a
    coordinate other than the current position of the train's record, the
    update writes under the train's id the record below: its previous
    keyframe is the start position (the last rendered position, when the
    record has one, as every record the hook creates does) stamped with the
    time of the OLD current keyframe; its current keyframe is the resolved
    coordinate at [now]; its path is what [findTrackPath] returns from the
    start position to that coordinate on the train's line. In a batch with
    distinct ids that is the record the whole arrival leaves. *)
Theorem C1_transition_keyframes {num} `{Number num} `{Infinity num}
    (lineSegments : gmap string (list (@TrackGeometry.LineSegment num)))
    (getStationCoordinates : string -> option (num * num))
    (now : num) (st : gmap string (@TrainPositions.TrainState num))
    (t : TrainTypes.Train num) (coords : num * num)
    (existing : @TrainPositions.TrainState num) :
  getStationCoordinates (TrainTypes.currentStation t) = Some coords ->
  st !! TrainTypes.id t = Some existing ->
  TrainPositions.posChanged coords existing = true ->
  let start := TrainPositions.startPositionOf existing in
  let s' :=
    {| TrainPositions.previous :=
         Some {| TrainPositions.position := start;
                 TrainPositions.timestamp :=
                   TrainPositions.timestamp (TrainPositions.current existing) |};
       TrainPositions.current :=
         {| TrainPositions.position := coords; TrainPositions.timestamp := now |};
       TrainPositions.train := t;
       TrainPositions.trail := TrainPositions.trail existing;
       TrainPositions.trackPath :=
         TrackGeometry.findTrackPath lineSegments start coords
           (TrackGeometry.getLineDisplayName (TrainTypes.lineId t));
       TrainPositions.lastInterpolatedPosition := Some start;
       TrainPositions.velocity := TrainPositions.velocity existing |} in
  (forall p, TrainPositions.lastInterpolatedPosition existing = Some p -> start = p) /\
  TrainPositions.updateTrain lineSegments getStationCoordinates now st t
    !! TrainTypes.id t = Some s' /\
  (forall trains, NoDup (TrainTypes.id <$> trains) -> t ∈ trains ->
     TrainPositions.ingest lineSegments getStationCoordinates now (Some trains) st
       !! TrainTypes.id t = Some s').
Proof.
  intros Hcoords Hex Hchanged start s'.
  assert (Hstep : TrainPositions.updateTrain lineSegments getStationCoordinates now st t
                    !! TrainTypes.id t = Some s').
  { unfold TrainPositions.updateTrain. rewrite Hcoords, Hex, Hchanged.
    by rewrite lookup_insert_eq. }
  split; [|split].
  - intros p Hp. unfold start, TrainPositions.startPositionOf. by rewrite Hp.
  - exact Hstep.
  - intros trains Hnd Hin. by rewrite ingest_lookup_unique.
Qed.

(** C1 on the small network: the train seen at A at 1000 is reported at B at
    16000. Its record then runs from A, stamped 1000, to B, stamped 16000,
    along the polyline. *)
Lemma C1_transition_keyframes_witness :
  TrainPositions.ingest Scenario.lineSegments Scenario.getStationCoordinates
    (lit 16000) (Some [Scenario.trainAt "B"]) Scenario.storeA !! "central-1"%string
  = Some Scenario.movingToB.
Proof.
  destruct (C1_transition_keyframes Scenario.lineSegments Scenario.getStationCoordinates
              (lit 16000) Scenario.storeA (Scenario.trainAt "B")
              Scenario.stationB Scenario.seenAtA) as (_ & _ & Hbatch).
  - reflexivity.
  - reflexivity.
  - reflexivity.
  - etrans; [apply (Hbatch [Scenario.trainAt "B"])|reflexivity].
    + apply NoDup_singleton.
    + apply list_elem_of_singleton. reflexivity.
Defined.

(** C1 as the specification words it fails: the previous keyframe is not stamped
    [now]. The train seen at A at 1000 and rendered at A is reported at B at
    16000; its previous keyframe is then stamped 1000. *)
Lemma C1_previous_timestamp_is_not_now :
  TrainPositions.posChanged Scenario.stationB Scenario.seenAtA = true /\
  Scenario.storeA !! "central-1"%string = Some Scenario.seenAtA /\
  TrainPositions.lastInterpolatedPosition Scenario.seenAtA = Some Scenario.stationA /\
  TrainPositions.previous <$>
    (TrainPositions.ingest Scenario.lineSegments Scenario.getStationCoordinates
       (lit 16000) (Some [Scenario.trainAt "B"]) Scenario.storeA !! "central-1"%string)
  <> Some (Some {| TrainPositions.position := Scenario.stationA;
                   TrainPositions.timestamp := lit 16000 |}).
Proof.
  split; [reflexivity|]. split; [reflexivity|]. split; [reflexivity|].
  intros Heq.
  apply (f_equal (fun o => match o with
                           | Some (Some k) => (TrainPositions.timestamp k =? lit 16000)%num
                           | _ => true
                           end)) in Heq.
  vm_compute in Heq. discriminate.
Qed.

(** C2. When the station of a train resolves to a coordinate other than
    the current position of the train's record, the record the update writes
    carries the velocity the record had before; and so does the record the
    whole arrival leaves, in a batch with distinct ids. *)
Theorem C2_velocity_carried_over {num} `{Number num} `{Infinity num}
    (lineSegments : gmap string (list (@TrackGeometry.LineSegment num)))
    (getStationCoordinates : string -> option (num * num))
    (now : num) (st : gmap string (@TrainPositions.TrainState num))
    (t : TrainTypes.Train num) (coords : num * num)
    (existing : @TrainPositions.TrainState num) :
  getStationCoordinates (TrainTypes.currentStation t) = Some coords ->
  st !! TrainTypes.id t = Some existing ->
  TrainPositions.posChanged coords existing = true ->
  TrainPositions.velocity <$>
    (TrainPositions.updateTrain lineSegments getStationCoordinates now st t
       !! TrainTypes.id t)
  = Some (TrainPositions.velocity existing) /\
  (forall trains, NoDup (TrainTypes.id <$> trains) -> t ∈ trains ->
     TrainPositions.velocity <$>
       (TrainPositions.ingest lineSegments getStationCoordinates now (Some trains) st
          !! TrainTypes.id t)
     = Some (TrainPositions.velocity existing)).
Proof.
  intros Hcoords Hex Hchanged.
  assert (Hstep : TrainPositions.velocity <$>
            (TrainPositions.updateTrain lineSegments getStationCoordinates now st t
               !! TrainTypes.id t) = Some (TrainPositions.velocity existing)).
  { unfold TrainPositions.updateTrain. rewrite Hcoords, Hex, Hchanged.
    by rewrite lookup_insert_eq. }
  split; [exact Hstep|].
  intros trains Hnd Hin. by rewrite ingest_lookup_unique.
Qed.

(** C8. After an arrival, a train that is not in the batch has no record in
    the track-path hook; in the straight-line hook its record is removed when
    [now] is more than 60000 ms past its current keyframe, and is kept as it
    was otherwise. *)
Theorem C8_absent_train_evicted {num} `{Number num} `{Infinity num}
    (lineSegments : gmap string (list (@TrackGeometry.LineSegment num)))
    (getStationCoordinates : string -> option (num * num))
    (now : num) (trains : list (TrainTypes.Train num))
    (st : gmap string (@TrainPositions.TrainState num))
    (legacy : gmap string (@TrainPositionsLegacy.TrainState num))
    (k : string) :
  k ∉ TrainTypes.id <$> trains ->
  TrainPositions.ingest lineSegments getStationCoordinates now (Some trains) st !! k = None /\
  TrainPositionsLegacy.ingest getStationCoordinates now (Some trains) legacy !! k =
    (s ← legacy !! k;
     if (now - TrainPositionsLegacy.timestamp (TrainPositionsLegacy.current s)
           >? lit 60000)%num
     then None else Some s).
Proof.
  intros Hk. split.
  - by apply ingest_absent.
  - by apply legacy_ingest_absent.
Qed.

(** C9. For a train whose station does not resolve, the update leaves the
    whole store as it is; the eviction pass of a batch that holds the train
    keeps whatever record stands under its id; and so, in a batch with
    distinct ids, the arrival leaves under the train's id exactly the record
    that was there, or none. [ingest] is a total function: nothing is raised. *)
Theorem C9_unresolved_station_skipped {num} `{Number num} `{Infinity num}
    (lineSegments : gmap string (list (@TrackGeometry.LineSegment num)))
    (getStationCoordinates : string -> option (num * num))
    (now : num) (st : gmap string (@TrainPositions.TrainState num))
    (t : TrainTypes.Train num) :
  getStationCoordinates (TrainTypes.currentStation t) = None ->
  TrainPositions.updateTrain lineSegments getStationCoordinates now st t = st /\
  (forall trains (st' : gmap string (@TrainPositions.TrainState num)), t ∈ trains ->
     TrainPositions.removeStale trains st' !! TrainTypes.id t = st' !! TrainTypes.id t) /\
  (forall trains, NoDup (TrainTypes.id <$> trains) -> t ∈ trains ->
     TrainPositions.ingest lineSegments getStationCoordinates now (Some trains) st
       !! TrainTypes.id t = st !! TrainTypes.id t).
Proof.
  intros Hnone. split; [|split].
  - by apply updateTrain_unresolved.
  - intros trains st' Hin. rewrite removeStale_lookup.
    by rewrite decide_True by (by apply list_elem_of_fmap_2).
  - intros trains Hnd Hin. rewrite ingest_lookup_unique by done.
    by rewrite updateTrain_unresolved.
Qed.

(* ================================================================== *)
(** * The sampler *)
Section Sampler.
Context {num : Type} `{Number num}.
Local Open Scope num_scope.

Abbreviation Position := (num * num)%type.

Lemma segmentLengths_length (path : list Position) :
  length (ArcLength.segmentLengths path) = (length path - 1)%nat.
Proof.
  induction path as [|a [|b rest] IH]; [done..|].
  change (ArcLength.segmentLengths (a :: b :: rest))
    with (TrackGeometry.distance a b :: ArcLength.segmentLengths (b :: rest)).
  simpl in *. rewrite IH. lia.
Qed.

(** The measuring loop, resumed after the prefix [pre]. *)
Lemma measure_resume (path : list Position) rest :
  forall pre a totalLength lens,
  path = pre ++ a :: rest ->
  foldl (TrackGeometry.measureStep path) (Some (totalLength, lens))
        (seq (S (length pre)) (length rest))
  = Some (foldl num_add totalLength (ArcLength.segmentLengths (a :: rest)),
          lens ++ ArcLength.segmentLengths (a :: rest)).
Proof.
  induction rest as [|b rest IH]; intros pre a totalLength lens Hpath.
  - simpl. by rewrite app_nil_r.
  - assert (Ha : path !! length pre = Some a) by (subst path; apply list_lookup_middle; done).
    assert (Hb : path !! S (length pre) = Some b).
    { subst path. rewrite (cons_middle a), app_assoc.
      replace (S (length pre)) with (length (pre ++ [a])) by (rewrite length_app; simpl; lia).
      by apply list_lookup_middle. }
    cbn [length seq foldl]. unfold TrackGeometry.measureStep at 2.
    cbn [mbind option_bind]. replace (S (length pre) - 1)%nat with (length pre) by lia.
    rewrite Ha, Hb. cbn [mbind option_bind].
    replace (S (S (length pre))) with (S (length (pre ++ [a])))
      by (rewrite length_app; simpl; lia).
    rewrite (IH (pre ++ [a]) b) by (subst path; by rewrite <- app_assoc).
    change (ArcLength.segmentLengths (a :: b :: rest))
      with (TrackGeometry.distance a b :: ArcLength.segmentLengths (b :: rest)).
    by rewrite <- app_assoc.
Qed.

(** The measuring loop reads inside the path and returns the total length
    and the segment lengths. *)
Lemma measure_spec (path : list Position) :
  TrackGeometry.measure path
  = Some (ArcLength.arcLength path, ArcLength.segmentLengths path).
Proof.
  unfold TrackGeometry.measure, ArcLength.arcLength.
  destruct path as [|a rest]; [done|].
  cbn [length]. replace (S (length rest) - 1)%nat with (length rest) by lia.
  apply (measure_resume (a :: rest) rest [] a). done.
Qed.

Lemma walk_is_Some (path : list Position) targetDist lens :
  forall i currentDist,
  (i + length lens < length path)%nat ->
  is_Some (TrackGeometry.walk path targetDist lens i currentDist).
Proof.
  induction lens as [|segLen lens IH]; intros i currentDist Hlen; simpl in *.
  - destruct (lookup_lt_is_Some_2 path (length path - 1)) as [p Hp]; [lia|].
    rewrite Hp. by eexists.
  - destruct (num_leb _ _).
    + destruct (lookup_lt_is_Some_2 path i) as [p1 Hp1]; [lia|].
      destruct (lookup_lt_is_Some_2 path (i + 1)) as [p2 Hp2]; [lia|].
      rewrite Hp1, Hp2. by eexists.
    + apply IH. lia.
Qed.

(** The sampler raises on no path and no progress. *)
Lemma interpolateAlongPath_is_Some (path : list Position) progress :
  is_Some (TrackGeometry.interpolateAlongPath path progress).
Proof.
  unfold TrackGeometry.interpolateAlongPath.
  destruct path as [|a [|b rest]]; [by eexists..|].
  cbn [length Nat.eqb]. cbn [lookup list_lookup mbind option_bind].
  destruct (num_leb progress _); [by eexists|].
  destruct (num_leb _ progress).
  { destruct (lookup_lt_is_Some_2 (a :: b :: rest) (S (S (length rest)) - 1)) as [p Hp];
      [simpl; lia|].
    rewrite Hp. by eexists. }
  rewrite measure_spec. cbn [mbind option_bind].
  destruct (num_eqb _ _); [by eexists|].
  apply walk_is_Some. rewrite segmentLengths_length. simpl. lia.
Qed.
End Sampler.

(* ================================================================== *)
(** * The order laws on binary64 *)
Module JsLaws.
Import Floats.

Ltac compare_cases :=
  repeat match goal with
  | Hc : context [Pos.compare_cont Eq ?a ?b] |- _ =>
      change (Pos.compare_cont Eq a b) with (Pos.compare a b) in Hc
  | |- context [Pos.compare_cont Eq ?a ?b] =>
      change (Pos.compare_cont Eq a b) with (Pos.compare a b)
  | Hc : context [Z.compare ?a ?b] |- _ => destruct (Z.compare_spec a b); simpl in Hc
  | Hc : context [Pos.compare ?a ?b] |- _ => destruct (Pos.compare_spec a b); simpl in Hc
  | |- context [Z.compare ?a ?b] => destruct (Z.compare_spec a b); simpl
  | |- context [Pos.compare ?a ?b] => destruct (Pos.compare_spec a b); simpl
  end; try discriminate; try reflexivity; try lia.

Lemma float_ltb_trans a b c :
  PrimFloat.ltb a b = true -> PrimFloat.ltb b c = true -> PrimFloat.ltb a c = true.
Proof.
  rewrite !ltb_spec. unfold SFltb, SFcompare.
  destruct (Prim2SF a) as [sa|sa| |sa ma ea], (Prim2SF b) as [sb|sb| |sb mb eb],
           (Prim2SF c) as [sc|sc| |sc mc ec];
    try discriminate; try reflexivity;
    try destruct sa; try destruct sb; try destruct sc;
    try discriminate; try reflexivity.
  all: intros Hab Hbc; compare_cases.
Qed.

Lemma float_ltb_irrefl a : PrimFloat.ltb a a = false.
Proof.
  rewrite ltb_spec. unfold SFltb, SFcompare.
  destruct (Prim2SF a) as [sa|sa| |sa ma ea]; try reflexivity;
    destruct sa; try reflexivity; compare_cases.
Qed.

Lemma float_ltb_false_leb a b :
  PrimFloat.ltb a infinity = true -> PrimFloat.ltb b infinity = true ->
  PrimFloat.ltb a b = false -> PrimFloat.leb b a = true.
Proof.
  rewrite !ltb_spec, leb_spec.
  replace (Prim2SF infinity) with (S754_infinity false) by reflexivity.
  unfold SFltb, SFleb, SFcompare.
  destruct (Prim2SF a) as [sa|sa| |sa ma ea], (Prim2SF b) as [sb|sb| |sb mb eb];
    try discriminate; try reflexivity;
    try destruct sa; try destruct sb; try discriminate; try reflexivity.
  all: intros _ _ Hab; compare_cases.
Qed.

Lemma float_add_comm a b : PrimFloat.add a b = PrimFloat.add b a.
Proof.
  apply Prim2SF_inj. rewrite !FloatAxioms.add_spec. unfold SF64add, SFadd.
  destruct (Prim2SF a) as [sa|sa| |sa ma ea], (Prim2SF b) as [sb|sb| |sb mb eb];
    try reflexivity.
  - destruct sa, sb; reflexivity.
  - destruct sa, sb; reflexivity.
  - rewrite (Z.min_comm eb ea), Z.add_comm. reflexivity.
Qed.

Lemma float_add_infinity_not_below a b :
  PrimFloat.ltb (PrimFloat.add infinity a) b = false.
Proof.
  rewrite ltb_spec, FloatAxioms.add_spec.
  replace (Prim2SF infinity) with (S754_infinity false) by reflexivity.
  unfold SF64add, SFadd, SFltb, SFcompare.
  destruct (Prim2SF a) as [s|s| |s m e], (Prim2SF b) as [s'|s'| |s' m' e'];
    try reflexivity; try destruct s; try destruct s'; reflexivity.
Qed.

Lemma float_leb_one_zero p :
  PrimFloat.leb (JsNumber.of_Z 1) p = true -> PrimFloat.leb p (JsNumber.of_Z 0) = false.
Proof.
  rewrite !leb_spec. unfold SFleb, SFcompare.
  replace (Prim2SF (JsNumber.of_Z 1)) with (S754_finite false 4503599627370496 (-52))
    by reflexivity.
  replace (Prim2SF (JsNumber.of_Z 0)) with (S754_zero false) by reflexivity.
  destruct (Prim2SF p) as [s|s| |s m e]; try discriminate; try reflexivity;
    destruct s; try discriminate; try reflexivity.
Qed.

Lemma float_leb_trans a b c :
  PrimFloat.leb a b = true -> PrimFloat.leb b c = true -> PrimFloat.leb a c = true.
Proof.
  rewrite !leb_spec. unfold SFleb, SFcompare.
  destruct (Prim2SF a) as [sa|sa| |sa ma ea], (Prim2SF b) as [sb|sb| |sb mb eb],
           (Prim2SF c) as [sc|sc| |sc mc ec];
    try discriminate; try reflexivity;
    try destruct sa; try destruct sb; try destruct sc;
    try discriminate; try reflexivity.
  all: intros Hab Hbc; compare_cases.
Qed.

#[global] Instance js_laws : NumberLaws PrimFloat.float.
Proof.
  split.
  - exact float_ltb_trans.
  - exact float_ltb_irrefl.
  - exact float_ltb_false_leb.
  - exact float_add_comm.
  - exact float_add_infinity_not_below.
  - exact float_leb_one_zero.
Qed.
(** A number that [===] finds equal to 0 is one of the two zeros. *)
Lemma float_eqb_zero (x : PrimFloat.float) :
  PrimFloat.eqb x PrimFloat.zero = true -> x = PrimFloat.zero \/ x = PrimFloat.neg_zero.
Proof.
  rewrite eqb_spec. replace (Prim2SF PrimFloat.zero) with (S754_zero false) by reflexivity.
  rewrite <- (SF2Prim_Prim2SF x) at 2 3.
  unfold SFeqb, SFcompare. destruct (Prim2SF x) as [[|]|[|]| |[|] m e]; try discriminate.
  - by right.
  - by left.
Qed.

Lemma float_add_zero_not_above (a z : PrimFloat.float) :
  PrimFloat.eqb z (JsNumber.of_Z 0) = true -> PrimFloat.ltb a (PrimFloat.add a z) = false.
Proof.
  intros Hz. rewrite ltb_spec, FloatAxioms.add_spec.
  assert (Hzero : exists s, Prim2SF z = S754_zero s).
  { destruct (float_eqb_zero z Hz) as [->| ->]; by eexists. }
  destruct Hzero as [s ->]. unfold SF64add, SFadd, SFltb, SFcompare.
  destruct (Prim2SF a) as [sa|sa| |sa ma ea]; try reflexivity.
  - by destruct sa, s.
  - by destruct sa.
  - destruct sa; compare_cases.
Qed.

#[global] Instance js_sampler_laws : SamplerLaws PrimFloat.float.
Proof.
  split.
  - exact float_leb_trans.
  - exact float_add_zero_not_above.
Qed.
End JsLaws.

(* ================================================================== *)
(** * Slices *)
Section Slices.
Context {A : Type}.
Implicit Types l : list A.

(** [l.slice(i, j + 1)] inside the array is the run from [i] to [j]. *)
Lemma slice_inclusive l (i j : Z) :
  (0 <= i)%Z -> (i <= j)%Z -> (j < Z.of_nat (length l))%Z ->
  slice l i (Some (j + 1)%Z) = take (Z.to_nat (j - i + 1)) (drop (Z.to_nat i) l).
Proof.
  intros Hi Hij Hj. unfold slice, sliceIndex.
  destruct (Z.ltb_spec i 0); [lia|]. destruct (Z.ltb_spec (j + 1) 0); [lia|].
  rewrite !Z.min_l by lia. f_equal. lia.
Qed.

Lemma slice_inclusive_length l (i j : Z) :
  (0 <= i)%Z -> (i <= j)%Z -> (j < Z.of_nat (length l))%Z ->
  length (slice l i (Some (j + 1)%Z)) = Z.to_nat (j - i + 1).
Proof.
  intros Hi Hij Hj. rewrite slice_inclusive by done.
  rewrite length_take, length_drop. lia.
Qed.

Lemma slice_inclusive_lookup l (i j : Z) (k : nat) :
  (0 <= i)%Z -> (i <= j)%Z -> (j < Z.of_nat (length l))%Z ->
  (Z.of_nat k <= j - i)%Z ->
  slice l i (Some (j + 1)%Z) !! k = l !! (Z.to_nat i + k)%nat.
Proof.
  intros Hi Hij Hj Hk. rewrite slice_inclusive by done.
  rewrite lookup_take_lt by lia. apply lookup_drop.
Qed.

(** [l.slice(-n)] keeps the last [n] elements. *)
Lemma slice_suffix l (n : Z) :
  (0 < n)%Z -> slice l (- n) None = drop (length l - Z.to_nat n) l.
Proof.
  intros Hn. unfold slice, sliceIndex.
  destruct (Z.ltb_spec (- n) 0); [|lia].
  replace (Z.to_nat (Z.max (Z.of_nat (length l) + - n) 0)) with (length l - Z.to_nat n)%nat by lia.
  apply take_ge. rewrite length_drop. lia.
Qed.
End Slices.


(* ================================================================== *)
(** * The resolver: the scan of one polyline *)
Section Scan.
Context {num : Type} `{Number num} `{Infinity num}.
Local Open Scope num_scope.

Abbreviation Position := (num * num)%type.
Abbreviation Scan := (@TrackGeometry.Scan num).

Import TrackGeometry Orientation.

Lemma scanStep_swap (from to : Position) i c (s : Scan) :
  scanStep to from i c (swapScan s) = swapScan (scanStep from to i c s).
Proof.
  destruct s as [fi ti fd td]. unfold scanStep, swapScan. simpl.
  destruct (distance c from <? fd) eqn:Hf; simpl;
    destruct (distance c to <? td) eqn:Ht; simpl; rewrite ?Hf, ?Ht; reflexivity.
Qed.

Lemma scanFrom_swap (from to : Position) cs :
  forall i (s : Scan),
  scanFrom to from i cs (swapScan s) = swapScan (scanFrom from to i cs s).
Proof.
  induction cs as [|c cs IH]; intros i s; [done|].
  simpl. by rewrite scanStep_swap, IH.
Qed.

Lemma nearest_swap (from to : Position) cs :
  nearest to from cs = swapScan (nearest from to cs).
Proof. unfold nearest. by rewrite <- scanFrom_swap. Qed.

Lemma scanStep_fromIdx (from to : Position) i c (s : Scan) :
  (fromIdx (scanStep from to i c s) = fromIdx s /\
   fromDist (scanStep from to i c s) = fromDist s) \/
  fromIdx (scanStep from to i c s) = i.
Proof.
  unfold scanStep.
  destruct (distance c from <? fromDist s); simpl;
    destruct (distance c to <? toDist _); simpl; auto.
Qed.

(** The scan leaves the [from] index as it was, with its distance, or at an
    index it has visited. *)
Lemma scanFrom_fromIdx (from to : Position) cs :
  forall i (s : Scan),
  (fromIdx (scanFrom from to i cs s) = fromIdx s /\
   fromDist (scanFrom from to i cs s) = fromDist s) \/
  (i <= fromIdx (scanFrom from to i cs s) < i + Z.of_nat (length cs))%Z.
Proof.
  induction cs as [|c cs IH]; intros i s; [by left|].
  cbn [scanFrom length]. destruct (IH (i + 1)%Z (scanStep from to i c s)) as [[Hi Hd]|Hr].
  - destruct (scanStep_fromIdx from to i c s) as [[Hi' Hd']|Hi'].
    + left. by rewrite Hi, Hd.
    + right. rewrite Hi, Hi'. lia.
  - right. lia.
Qed.

(** After a whole scan the [from] index is [-1] with distance [Infinity], or
    an index of the polyline. *)
Lemma nearest_fromIdx (from to : Position) cs :
  (fromIdx (nearest from to cs) = (-1)%Z /\ fromDist (nearest from to cs) = num_infinity) \/
  (0 <= fromIdx (nearest from to cs) < Z.of_nat (length cs))%Z.
Proof. apply (scanFrom_fromIdx from to cs 0 scanInit). Qed.

Lemma nearest_toIdx (from to : Position) cs :
  (toIdx (nearest from to cs) = (-1)%Z /\ toDist (nearest from to cs) = num_infinity) \/
  (0 <= toIdx (nearest from to cs) < Z.of_nat (length cs))%Z.
Proof.
  pose proof (nearest_fromIdx to from cs) as Hswap.
  rewrite nearest_swap in Hswap. exact Hswap.
Qed.

(** The [from] index the scan leaves, when it has moved, is the index of a
    point of the polyline, and the [from] distance is the distance of that
    point. *)
Lemma scanFrom_fromDist (from to : Position) cs :
  forall i (s : Scan),
  (fromIdx (scanFrom from to i cs s) = fromIdx s /\
   fromDist (scanFrom from to i cs s) = fromDist s) \/
  exists (k : nat) c,
    fromIdx (scanFrom from to i cs s) = (i + Z.of_nat k)%Z /\
    cs !! k = Some c /\
    fromDist (scanFrom from to i cs s) = distance c from.
Proof.
  induction cs as [|c cs IH]; intros i s; [by left|].
  cbn [scanFrom]. destruct (IH (i + 1)%Z (scanStep from to i c s)) as [[Hi Hd]|Hr].
  - rewrite Hi, Hd. unfold scanStep.
    destruct (distance c from <? fromDist s) eqn:Hnear; simpl;
      destruct (distance c to <? toDist _); simpl.
    1,2: right; exists 0%nat, c; split; [lia|done].
    1,2: by left.
  - right. destruct Hr as (k & c' & Hk & Hc' & Hd).
    exists (S k), c'. split; [lia|done].
Qed.

Lemma nearest_fromDist (from to : Position) cs :
  (0 <= fromIdx (nearest from to cs))%Z ->
  exists c, cs !! Z.to_nat (fromIdx (nearest from to cs)) = Some c /\
            fromDist (nearest from to cs) = distance c from.
Proof.
  intros Hidx. unfold nearest in *.
  destruct (scanFrom_fromDist from to cs 0 scanInit) as [[Hi _]|(k & c & Hk & Hc & Hd)].
  - rewrite Hi in Hidx. simpl in Hidx. lia.
  - exists c. rewrite Hk. by replace (Z.to_nat (0 + Z.of_nat k)) with k by lia.
Qed.

Lemma nearest_toDist (from to : Position) cs :
  (0 <= toIdx (nearest from to cs))%Z ->
  exists c, cs !! Z.to_nat (toIdx (nearest from to cs)) = Some c /\
            toDist (nearest from to cs) = distance c to.
Proof.
  intros Hidx. pose proof (nearest_fromDist to from cs) as Hswap.
  rewrite nearest_swap in Hswap. by apply Hswap.
Qed.

(** ** The extracted path *)

Lemma extractPath_forward (cs : list Position) (i j : Z) :
  (i < j)%Z -> extractPath cs i j = slice cs i (Some (j + 1)%Z).
Proof.
  intros Hij. unfold extractPath.
  rewrite Z.min_l, Z.max_r by lia.
  destruct (Z.gtb_spec i j); [lia|done].
Qed.

Lemma extractPath_backward (cs : list Position) (i j : Z) :
  (i < j)%Z -> extractPath cs j i = reverse (slice cs i (Some (j + 1)%Z)).
Proof.
  intros Hij. unfold extractPath.
  rewrite Z.min_r, Z.max_l by lia.
  destruct (Z.gtb_spec j i); [done|lia].
Qed.

Lemma extractPath_length (cs : list Position) (a b : Z) :
  (0 <= a < Z.of_nat (length cs))%Z -> (0 <= b < Z.of_nat (length cs))%Z ->
  length (extractPath cs a b) = Z.to_nat (Z.abs (a - b) + 1).
Proof.
  intros Ha Hb. destruct (Z.lt_trichotomy a b) as [Hlt|[->|Hgt]].
  - rewrite extractPath_forward by done. rewrite slice_inclusive_length by lia. lia.
  - unfold extractPath. rewrite Z.min_id, Z.max_id.
    destruct (Z.gtb_spec b b); [lia|]. rewrite slice_inclusive_length by lia. lia.
  - rewrite extractPath_backward by done.
    rewrite length_reverse, slice_inclusive_length by lia. lia.
Qed.

(** ** The choice among the polylines of a line *)

(** Whatever the loop holds as best is a polyline of the line, held with its
    own two nearest indices and its score, and the indices differ. *)
Lemma selectSegment_sound (from to : Position) segs seg :
  bestSegment (selectSegment from to segs) = Some seg ->
  seg ∈ segs /\
  bestFromIdx (selectSegment from to segs) = fromIdx (nearest from to (coordinates seg)) /\
  bestToIdx (selectSegment from to segs) = toIdx (nearest from to (coordinates seg)) /\
  bestScore (selectSegment from to segs) = score (nearest from to (coordinates seg)) /\
  nondegenerate (nearest from to (coordinates seg)) = true.
Proof.
  unfold selectSegment. induction segs as [|x segs IH] using rev_ind; [done|].
  rewrite foldl_app. cbn [foldl].
  set (b := foldl (considerSegment from to) bestInit segs) in *.
  unfold considerSegment. destruct (_ && _) eqn:Htest.
  - simpl. intros [= <-]. apply andb_true_iff in Htest as [_ Hnd].
    split; [|done]. apply elem_of_app. right. by apply list_elem_of_singleton.
  - intros Hbest. destruct (IH Hbest) as (Hin & Hrest).
    split; [|done]. apply elem_of_app. by left.
Qed.

(** C10. A path [findTrackPath] returns comes from a polyline of the line on
    which the two nearest indices differ and lie inside the polyline; it has
    one point more than the indices are apart, hence at least two, and passes
    the test [trackPath.length >= 2] of the animation frame. *)
Theorem C10_resolved_path_has_two_points
    (lineSegments : gmap string (list (@LineSegment num)))
    (from to : Position) (name : string) (path : list Position) :
  findTrackPath lineSegments from to name = Some path ->
  exists segs seg,
    lineSegments !! name = Some segs /\ seg ∈ segs /\
    let i := fromIdx (nearest from to (coordinates seg)) in
    let j := toIdx (nearest from to (coordinates seg)) in
    i <> j /\
    (0 <= i < Z.of_nat (length (coordinates seg)))%Z /\
    (0 <= j < Z.of_nat (length (coordinates seg)))%Z /\
    path = extractPath (coordinates seg) i j /\
    length path = Z.to_nat (Z.abs (i - j) + 1) /\
    (2 <= length path)%nat /\
    (2 <=? length path)%nat = true.
Proof.
  unfold findTrackPath. destruct (lineSegments !! name) as [segs|]; [|done].
  destruct (length segs =? 0)%nat; [done|].
  destruct (bestSegment (selectSegment from to segs)) as [seg|] eqn:Hbest; [|done].
  destruct (selectSegment_sound from to segs seg Hbest) as (Hin & -> & -> & _ & Hnd).
  destruct (_ || _) eqn:Hminus; [done|]. intros [= <-].
  apply orb_false_iff in Hminus as [Hi%Z.eqb_neq Hj%Z.eqb_neq].
  apply negb_true_iff, Z.eqb_neq in Hnd.
  destruct (nearest_fromIdx from to (coordinates seg)) as [[? _]|Hirange]; [done|].
  destruct (nearest_toIdx from to (coordinates seg)) as [[? _]|Hjrange]; [done|].
  exists segs, seg. split; [done|]. split; [done|]. cbn zeta.
  split; [done|]. split; [done|]. split; [done|]. split; [done|].
  rewrite extractPath_length by done.
  split; [done|]. split; [lia|]. apply Nat.leb_le. lia.
Qed.
End Scan.


(* ================================================================== *)
(** * The resolver under the order laws *)
Section Resolver.
Context {num : Type} `{NumberLaws num}.
Local Open Scope num_scope.

Abbreviation Position := (num * num)%type.

Import TrackGeometry Orientation.

Lemma score_swap (s : @Scan num) : score (swapScan s) = score s.
Proof. unfold score, swapScan. simpl. apply add_comm. Qed.

Lemma considerSegment_swap (from to : Position) b seg :
  considerSegment to from (swapBest b) seg = swapBest (considerSegment from to b seg).
Proof.
  unfold considerSegment. rewrite nearest_swap, score_swap.
  cbn [swapScan swapBest fromIdx toIdx bestScore].
  rewrite (Z.eqb_sym (toIdx _)).
  destruct (_ && _); reflexivity.
Qed.

(** Called with the two ends exchanged, the loop chooses the same polyline
    and holds the two indices exchanged. *)
Lemma selectSegment_swap (from to : Position) segs :
  selectSegment to from segs = swapBest (selectSegment from to segs).
Proof.
  unfold selectSegment. induction segs as [|x segs IH] using rev_ind; [done|].
  rewrite !foldl_app. cbn [foldl]. by rewrite IH, considerSegment_swap.
Qed.

Lemma scanStep_fromDist (from to : Position) i c (s : @Scan num) :
  fromDist (scanStep from to i c s)
  = if distance c from <? fromDist s then distance c from else fromDist s.
Proof.
  unfold scanStep. destruct (distance c from <? fromDist s); simpl;
    by destruct (distance c to <? toDist _).
Qed.

(** If no point seen so far is nearer to [from] than the [from] distance
    held, none is when the scan has run over the rest. *)
Lemma scanFrom_nearest (from to : Position) cs :
  forall i (s : @Scan num) (seen : list Position),
  (forall c, c ∈ seen -> (distance c from <? fromDist s) = false) ->
  forall c, c ∈ seen ++ cs ->
    (distance c from <? fromDist (scanFrom from to i cs s)) = false.
Proof.
  induction cs as [|c cs IH]; intros i s seen Hseen x Hx.
  { rewrite app_nil_r in Hx. by apply Hseen. }
  cbn [scanFrom]. apply (IH (i + 1)%Z (scanStep from to i c s) (seen ++ [c])).
  - intros y Hy. rewrite scanStep_fromDist.
    destruct (distance c from <? fromDist s) eqn:Hnear.
    + apply elem_of_app in Hy as [Hy|Hy%list_elem_of_singleton].
      * destruct (distance y from <? distance c from) eqn:Hbelow; [|done].
        by rewrite <- (Hseen y Hy), <- (ltb_trans _ _ _ Hbelow Hnear).
      * subst y. apply ltb_irrefl.
    + apply elem_of_app in Hy as [Hy|Hy%list_elem_of_singleton].
      * by apply Hseen.
      * by subst y.
  - by rewrite <- app_assoc.
Qed.

(** The scan finds a nearest point: no point of the polyline is nearer to
    [from] than the [from] distance it leaves, and none nearer to [to] than
    the [to] distance. *)
Lemma nearest_is_nearest (from to : Position) cs c :
  c ∈ cs ->
  (distance c from <? fromDist (nearest from to cs)) = false /\
  (distance c to <? toDist (nearest from to cs)) = false.
Proof.
  intros Hc.
  assert (Hfrom : forall a b : Position,
            (distance c a <? fromDist (nearest a b cs)) = false).
  { intros a b. apply (scanFrom_nearest a b cs 0 scanInit []); [|done].
    intros y Hy. by apply elem_of_nil in Hy. }
  split; [apply Hfrom|].
  specialize (Hfrom to from). by rewrite nearest_swap in Hfrom.
Qed.

(** An index is [-1] only on a polyline whose score is not below anything. *)
Lemma unmatched_not_below (from to : Position) cs (bound : num) :
  fromIdx (nearest from to cs) = (-1)%Z \/ toIdx (nearest from to cs) = (-1)%Z ->
  (score (nearest from to cs) <? bound) = false.
Proof.
  unfold score. intros [Hi|Hi].
  - destruct (nearest_fromIdx from to cs) as [[_ ->]|?]; [|lia].
    apply add_infinity_not_below.
  - destruct (nearest_toIdx from to cs) as [[_ ->]|?]; [|lia].
    rewrite add_comm. apply add_infinity_not_below.
Qed.

(** What the loop holds after the polylines [segs]: nothing, and then none
    of them qualifies; or a polyline that qualifies, below whose score none
    of those with two different indices lies. *)
Lemma selectSegment_invariant (from to : Position) segs :
  let b := selectSegment from to segs in
  match bestSegment b with
  | None =>
      bestScore b = num_infinity /\
      forall seg, seg ∈ segs -> qualifies from to seg = false
  | Some best =>
      bestScore b = score (nearest from to (coordinates best)) /\
      qualifies from to best = true /\
      forall seg, seg ∈ segs ->
        nondegenerate (nearest from to (coordinates seg)) = true ->
        (score (nearest from to (coordinates seg))
           <? score (nearest from to (coordinates best))) = false
  end.
Proof.
  unfold selectSegment. induction segs as [|x segs IH] using rev_ind.
  { simpl. split; [done|]. intros seg Hseg. by apply elem_of_nil in Hseg. }
  rewrite foldl_app. cbn [foldl].
  set (b := foldl (considerSegment from to) bestInit segs) in *. cbn zeta in IH.
  unfold considerSegment.
  set (sx := nearest from to (coordinates x)).
  destruct (_ && _) eqn:Htest;
    change (negb (fromIdx sx =? toIdx sx)%Z) with (nondegenerate sx) in Htest.
  - apply andb_true_iff in Htest as [Hbelow Hnd]. cbn [bestSegment bestScore].
    assert (Hfinite : (score sx <? num_infinity) = true).
    { destruct (bestSegment b) as [best|].
      - destruct IH as (Hscore & Hq & _). apply andb_true_iff in Hq as [Hq _].
        rewrite Hscore in Hbelow. by eapply ltb_trans.
      - destruct IH as [Hscore _]. by rewrite Hscore in Hbelow. }
    split; [done|]. split; [unfold qualifies; fold sx; by rewrite Hfinite, Hnd|].
    intros seg [Hseg|Hseg%list_elem_of_singleton]%elem_of_app Hsegnd.
    + destruct (score (nearest from to (coordinates seg)) <? score sx) eqn:Hlt; [|done].
      destruct (bestSegment b) as [best|].
      * destruct IH as (Hscore & _ & Hlow). rewrite Hscore in Hbelow.
        pose proof (ltb_trans _ _ _ Hlt Hbelow) as Hc.
        by rewrite (Hlow seg Hseg Hsegnd) in Hc.
      * destruct IH as [_ Hnone]. specialize (Hnone seg Hseg).
        unfold qualifies in Hnone. rewrite Hsegnd, andb_true_r in Hnone.
        pose proof (ltb_trans _ _ _ Hlt Hfinite) as Hc.
        by rewrite Hnone in Hc.
    + subst seg. apply ltb_irrefl.
  - destruct (bestSegment b) as [best|].
    + destruct IH as (Hscore & Hq & Hlow). split; [done|]. split; [done|].
      intros seg [Hseg|Hseg%list_elem_of_singleton]%elem_of_app Hsegnd; [by apply Hlow|].
      subst seg. fold sx in Hsegnd. rewrite Hsegnd, andb_true_r in Htest.
      by rewrite <- Hscore.
    + destruct IH as [Hscore Hnone]. split; [done|].
      intros seg [Hseg|Hseg%list_elem_of_singleton]%elem_of_app; [by apply Hnone|].
      subst seg. unfold qualifies. fold sx. by rewrite <- Hscore.
Qed.

(** The polyline the loop holds has both nearest indices inside it. *)
Lemma selected_indices_in_range (from to : Position) segs seg :
  bestSegment (selectSegment from to segs) = Some seg ->
  (0 <= fromIdx (nearest from to (coordinates seg))
     < Z.of_nat (length (coordinates seg)))%Z /\
  (0 <= toIdx (nearest from to (coordinates seg))
     < Z.of_nat (length (coordinates seg)))%Z.
Proof.
  intros Hbest. pose proof (selectSegment_invariant from to segs) as Hinv.
  cbn zeta in Hinv. rewrite Hbest in Hinv. destruct Hinv as (_ & Hq & _).
  apply andb_true_iff in Hq as [Hfinite _].
  destruct (nearest_fromIdx from to (coordinates seg)) as [[Hi _]|Hi].
  { rewrite unmatched_not_below in Hfinite by (by left). done. }
  destruct (nearest_toIdx from to (coordinates seg)) as [[Hj _]|Hj].
  { rewrite unmatched_not_below in Hfinite by (by right). done. }
  done.
Qed.

(** What [findTrackPath] returns once the loop holds a polyline. *)
Lemma findTrackPath_selected
    (lineSegments : gmap string (list (@LineSegment num)))
    (from to : Position) (name : string) segs seg :
  lineSegments !! name = Some segs ->
  bestSegment (selectSegment from to segs) = Some seg ->
  findTrackPath lineSegments from to name
  = Some (extractPath (coordinates seg)
            (fromIdx (nearest from to (coordinates seg)))
            (toIdx (nearest from to (coordinates seg)))).
Proof.
  intros Hsegs Hbest. unfold findTrackPath. rewrite Hsegs.
  destruct (selectSegment_sound from to segs seg Hbest) as (Hin & Hi & Hj & _).
  destruct (selected_indices_in_range from to segs seg Hbest) as [Hirange Hjrange].
  destruct segs as [|x segs]; [by apply elem_of_nil in Hin|]. cbn [length Nat.eqb].
  rewrite Hbest, Hi, Hj.
  destruct (Z.eqb_spec (fromIdx (nearest from to (coordinates seg))) (-1)); [lia|].
  destruct (Z.eqb_spec (toIdx (nearest from to (coordinates seg))) (-1)); [lia|].
  done.
Qed.

(** [findTrackPath] returns [null] exactly when no polyline registered under
    the name qualifies: has two different nearest indices and a score below
    [Infinity]. *)
Lemma findTrackPath_null_iff
    (lineSegments : gmap string (list (@LineSegment num)))
    (from to : Position) (name : string) :
  findTrackPath lineSegments from to name = None <->
  forall segs seg, lineSegments !! name = Some segs -> seg ∈ segs ->
    qualifies from to seg = false.
Proof.
  destruct (lineSegments !! name) as [segs|] eqn:Hsegs.
  2: { split; [done|]. intros _. unfold findTrackPath. by rewrite Hsegs. }
  pose proof (selectSegment_invariant from to segs) as Hinv. cbn zeta in Hinv.
  destruct (bestSegment (selectSegment from to segs)) as [best|] eqn:Hbest.
  - rewrite (findTrackPath_selected _ _ _ _ segs best) by done.
    destruct Hinv as (_ & Hq & _).
    destruct (selectSegment_sound from to segs best Hbest) as [Hin _].
    split; [done|]. intros Hall. by rewrite (Hall segs best eq_refl Hin) in Hq.
  - destruct Hinv as [_ Hnone]. split.
    + intros _ segs' seg [= <-] Hseg. by apply Hnone.
    + intros _. unfold findTrackPath. rewrite Hsegs, Hbest.
      by destruct (length segs =? 0)%nat.
Qed.

(** C3. Let the loop of [findTrackPath] choose the polyline [seg], on which
    index [i] is nearest to [from] and index [j] nearest to [to], with
    [i < j]. The path returned is the run of the polyline from index [i] to
    index [j], both included: it starts at the point of index [i] and ends at
    the point of index [j]. Called with [from] and [to] exchanged, the
    function returns that path reversed. *)
Theorem C3_path_orientation
    (lineSegments : gmap string (list (@LineSegment num)))
    (from to : Position) (name : string) segs seg (i j : Z) :
  lineSegments !! name = Some segs ->
  bestSegment (selectSegment from to segs) = Some seg ->
  fromIdx (nearest from to (coordinates seg)) = i ->
  toIdx (nearest from to (coordinates seg)) = j ->
  (i < j)%Z ->
  exists path first final,
    findTrackPath lineSegments from to name = Some path /\
    path = take (Z.to_nat (j - i + 1)) (drop (Z.to_nat i) (coordinates seg)) /\
    length path = Z.to_nat (j - i + 1) /\
    (forall k : nat, (Z.of_nat k <= j - i)%Z ->
       path !! k = coordinates seg !! (Z.to_nat i + k)%nat) /\
    coordinates seg !! Z.to_nat i = Some first /\
    coordinates seg !! Z.to_nat j = Some final /\
    head path = Some first /\
    last path = Some final /\
    findTrackPath lineSegments to from name = Some (reverse path).
Proof.
  intros Hsegs Hbest Hi Hj Hij.
  destruct (selected_indices_in_range from to segs seg Hbest) as [Hirange Hjrange].
  rewrite Hi in Hirange. rewrite Hj in Hjrange.
  set (cs := coordinates seg) in *.
  destruct (lookup_lt_is_Some_2 cs (Z.to_nat i)) as [first Hfirst]; [lia|].
  destruct (lookup_lt_is_Some_2 cs (Z.to_nat j)) as [final Hfinal]; [lia|].
  exists (slice cs i (Some (j + 1)%Z)), first, final.
  split.
  { rewrite (findTrackPath_selected _ _ _ _ segs seg) by done.
    fold cs. rewrite Hi, Hj. by rewrite extractPath_forward. }
  split; [apply slice_inclusive; lia|].
  split; [apply slice_inclusive_length; lia|].
  split; [intros k Hk; apply slice_inclusive_lookup; lia|].
  split; [done|]. split; [done|].
  split.
  { rewrite head_lookup, slice_inclusive_lookup by lia.
    by replace (Z.to_nat i + 0)%nat with (Z.to_nat i) by lia. }
  split.
  { rewrite last_lookup, slice_inclusive_length by lia.
    rewrite slice_inclusive_lookup by lia.
    by replace (Z.to_nat i + Nat.pred (Z.to_nat (j - i + 1)))%nat with (Z.to_nat j) by lia. }
  assert (Hback : bestSegment (selectSegment to from segs) = Some seg).
  { by rewrite selectSegment_swap. }
  rewrite (findTrackPath_selected _ _ _ _ segs seg) by done.
  rewrite nearest_swap. cbn [swapScan fromIdx toIdx]. fold cs. rewrite Hi, Hj.
  by rewrite extractPath_backward.
Qed.

(** C4. [findTrackPath] returns [null] exactly when no polyline is
    registered under [name], or the loop rejects every polyline registered
    under it: the two nearest indices coincide on it, or its score is not
    below [Infinity]. And a path it returns is cut from a polyline [best] of
    the line with two different nearest indices [i] and [j] and a score below
    [Infinity]: no point of [best] is nearer to [from] than its point [ci] of
    index [i], none nearer to [to] than its point [cj] of index [j], the
    score is the sum of these two distances, and no polyline of the line with
    two different nearest indices has a score below it. *)
Theorem C4_null_iff_none_qualifies
    (lineSegments : gmap string (list (@LineSegment num)))
    (from to : Position) (name : string) :
  (findTrackPath lineSegments from to name = None <->
   lineSegments !! name = None \/
   exists segs, lineSegments !! name = Some segs /\
     forall seg, seg ∈ segs ->
       fromIdx (nearest from to (coordinates seg))
         = toIdx (nearest from to (coordinates seg)) \/
       (fromDist (nearest from to (coordinates seg))
          + toDist (nearest from to (coordinates seg)) <? num_infinity) = false) /\
  (forall path, findTrackPath lineSegments from to name = Some path ->
   exists segs best ci cj,
     lineSegments !! name = Some segs /\ best ∈ segs /\
     let i := fromIdx (nearest from to (coordinates best)) in
     let j := toIdx (nearest from to (coordinates best)) in
     i <> j /\
     coordinates best !! Z.to_nat i = Some ci /\
     coordinates best !! Z.to_nat j = Some cj /\
     (forall c, c ∈ coordinates best ->
        (distance c from <? distance ci from) = false /\
        (distance c to <? distance cj to) = false) /\
     (distance ci from + distance cj to <? num_infinity) = true /\
     path = extractPath (coordinates best) i j /\
     forall seg, seg ∈ segs ->
       fromIdx (nearest from to (coordinates seg))
         <> toIdx (nearest from to (coordinates seg)) ->
       (fromDist (nearest from to (coordinates seg))
          + toDist (nearest from to (coordinates seg))
        <? distance ci from + distance cj to) = false).
Proof.
  assert (Hnd : forall s : @Scan num,
            nondegenerate s = true <-> fromIdx s <> toIdx s).
  { intros s. unfold nondegenerate. rewrite negb_true_iff. apply Z.eqb_neq. }
  split; [rewrite findTrackPath_null_iff; split|].
  - (* no polyline qualifies: nothing registered, or every polyline rejected *)
    intros Hnone. destruct (lineSegments !! name) as [segs|] eqn:Hsegs; [|by left].
    right. exists segs. split; [done|]. intros seg Hseg.
    specialize (Hnone segs seg eq_refl Hseg). unfold qualifies, score in Hnone.
    apply andb_false_iff in Hnone as [Hscore|Hsame]; [by right|left].
    destruct (Z.eq_dec (fromIdx (nearest from to (coordinates seg)))
                       (toIdx (nearest from to (coordinates seg)))) as [|Hne]; [done|].
    apply Hnd in Hne. by rewrite Hne in Hsame.
  - (* nothing registered, or every polyline rejected: no polyline qualifies *)
    intros [Hno|(segs & Hsegs & Hall)] segs' seg Hsegs' Hseg; [congruence|].
    assert (segs' = segs) as -> by congruence.
    unfold qualifies, score. apply andb_false_iff.
    destruct (Hall seg Hseg) as [Hsame|Hscore]; [right|by left].
    apply not_true_is_false. rewrite Hnd. intros Hne. by apply Hne.
  - (* a path: from a polyline of lowest score *)
    intros path Hpath.
    destruct (lineSegments !! name) as [segs|] eqn:Hsegs;
      [|by unfold findTrackPath in Hpath; rewrite Hsegs in Hpath].
    pose proof (selectSegment_invariant from to segs) as Hinv. cbn zeta in Hinv.
    destruct (bestSegment (selectSegment from to segs)) as [best|] eqn:Hbest.
    2: { unfold findTrackPath in Hpath. rewrite Hsegs, Hbest in Hpath.
         by destruct (length segs =? 0)%nat. }
    rewrite (findTrackPath_selected _ _ _ _ segs best) in Hpath by done.
    injection Hpath as <-.
    destruct (selectSegment_sound from to segs best Hbest) as (Hin & _ & _ & _ & Hbnd).
    destruct (selected_indices_in_range from to segs best Hbest) as [[Hi _] [Hj _]].
    destruct (nearest_fromDist from to (coordinates best) Hi) as (ci & Hci & Hdi).
    destruct (nearest_toDist from to (coordinates best) Hj) as (cj & Hcj & Hdj).
    destruct Hinv as (_ & Hq & Hlow). apply andb_true_iff in Hq as [Hbfin _].
    unfold score in Hbfin, Hlow. rewrite Hdi, Hdj in Hbfin, Hlow.
    exists segs, best, ci, cj. split; [done|]. split; [done|]. cbn zeta.
    split; [by apply Hnd|]. split; [done|]. split; [done|]. split.
    { intros c Hc. rewrite <- Hdi, <- Hdj. by apply nearest_is_nearest. }
    split; [done|]. split; [done|].
    intros seg Hseg Hne. apply Hlow; [done|]. by apply Hnd.
Qed.

(** Let every polyline registered under [name] on which the two nearest
    indices differ have a score below [Infinity], as is the case for
    coordinates of a map. Then [findTrackPath] returns [null] exactly when no polyline is
    registered under [name] or the two nearest indices coincide on every one
    of them. And a path it returns is cut from a polyline [best] of the line
    with two different nearest indices [i] and [j]: no point of [best] is
    nearer to [from] than its point [ci] of index [i], none nearer to [to]
    than its point [cj] of index [j], and the sum of these two distances is
    at most the score of every polyline of the line with two different
    nearest indices. *)
Corollary null_iff_degenerate_on_finite_scores
    (lineSegments : gmap string (list (@LineSegment num)))
    (from to : Position) (name : string) :
  (forall segs seg,
     lineSegments !! name = Some segs -> seg ∈ segs ->
     fromIdx (nearest from to (coordinates seg))
       <> toIdx (nearest from to (coordinates seg)) ->
     (fromDist (nearest from to (coordinates seg))
        + toDist (nearest from to (coordinates seg)) <? num_infinity) = true) ->
  (findTrackPath lineSegments from to name = None <->
   lineSegments !! name = None \/
   exists segs, lineSegments !! name = Some segs /\
     forall seg, seg ∈ segs ->
       fromIdx (nearest from to (coordinates seg))
         = toIdx (nearest from to (coordinates seg))) /\
  (forall path, findTrackPath lineSegments from to name = Some path ->
   exists segs best ci cj,
     lineSegments !! name = Some segs /\ best ∈ segs /\
     let i := fromIdx (nearest from to (coordinates best)) in
     let j := toIdx (nearest from to (coordinates best)) in
     i <> j /\
     coordinates best !! Z.to_nat i = Some ci /\
     coordinates best !! Z.to_nat j = Some cj /\
     (forall c, c ∈ coordinates best ->
        (distance c from <? distance ci from) = false /\
        (distance c to <? distance cj to) = false) /\
     path = extractPath (coordinates best) i j /\
     forall seg, seg ∈ segs ->
       fromIdx (nearest from to (coordinates seg))
         <> toIdx (nearest from to (coordinates seg)) ->
       (distance ci from + distance cj to
        <=? fromDist (nearest from to (coordinates seg))
          + toDist (nearest from to (coordinates seg))) = true).
Proof.
  intros Hfinite.
  assert (Hnd : forall s : @Scan num,
            nondegenerate s = true <-> fromIdx s <> toIdx s).
  { intros s. unfold nondegenerate. rewrite negb_true_iff. apply Z.eqb_neq. }
  split; [rewrite findTrackPath_null_iff; split|].
  - (* no polyline qualifies: nothing registered, or every polyline degenerate *)
    intros Hnone. destruct (lineSegments !! name) as [segs|] eqn:Hsegs; [|by left].
    right. exists segs. split; [done|]. intros seg Hseg.
    specialize (Hnone segs seg eq_refl Hseg). unfold qualifies, score in Hnone.
    destruct (Z.eq_dec (fromIdx (nearest from to (coordinates seg)))
                       (toIdx (nearest from to (coordinates seg)))) as [|Hne]; [done|].
    rewrite (Hfinite segs seg eq_refl Hseg Hne) in Hnone.
    apply Hnd in Hne. by rewrite Hne in Hnone.
  - (* nothing registered, or every polyline degenerate: no polyline qualifies *)
    intros [Hno|(segs & Hsegs & Hall)] segs' seg Hsegs' Hseg; [congruence|].
    assert (segs' = segs) as -> by congruence.
    unfold qualifies. apply andb_false_iff. right.
    apply not_true_is_false. rewrite Hnd. intros Hne. by apply Hne, Hall.
  - (* a path: from a polyline of lowest score *)
    intros path Hpath.
    destruct (lineSegments !! name) as [segs|] eqn:Hsegs;
      [|by unfold findTrackPath in Hpath; rewrite Hsegs in Hpath].
    pose proof (selectSegment_invariant from to segs) as Hinv. cbn zeta in Hinv.
    destruct (bestSegment (selectSegment from to segs)) as [best|] eqn:Hbest.
    2: { unfold findTrackPath in Hpath. rewrite Hsegs, Hbest in Hpath.
         by destruct (length segs =? 0)%nat. }
    rewrite (findTrackPath_selected _ _ _ _ segs best) in Hpath by done.
    injection Hpath as <-.
    destruct (selectSegment_sound from to segs best Hbest) as (Hin & _ & _ & _ & Hbnd).
    destruct (selected_indices_in_range from to segs best Hbest) as [[Hi _] [Hj _]].
    destruct (nearest_fromDist from to (coordinates best) Hi) as (ci & Hci & Hdi).
    destruct (nearest_toDist from to (coordinates best) Hj) as (cj & Hcj & Hdj).
    destruct Hinv as (_ & Hq & Hlow). apply andb_true_iff in Hq as [Hbfin _].
    unfold score in Hbfin, Hlow. rewrite Hdi, Hdj in Hbfin, Hlow.
    exists segs, best, ci, cj. split; [done|]. split; [done|]. cbn zeta.
    split; [by apply Hnd|]. split; [done|]. split; [done|]. split.
    { intros c Hc. rewrite <- Hdi, <- Hdj. by apply nearest_is_nearest. }
    split; [done|].
    intros seg Hseg Hne. apply ltb_false_leb.
    + exact (Hfinite segs seg eq_refl Hseg Hne).
    + exact Hbfin.
    + apply Hlow; [done|]. by apply Hnd.
Qed.
End Resolver.

(* ================================================================== *)
(** * The sampler at its boundaries *)
Section SamplerBoundaries.
Context {num : Type} `{NumberLaws num}.
Local Open Scope num_scope.

Abbreviation Position := (num * num)%type.

Import TrackGeometry.

(** C5. Sampling the empty path gives the origin; sampling a one-point path
    gives that point at any progress; on a path with a first point, progress
    [<= 0] gives the first point and progress [>= 1] the last one; at a
    progress between, a path of total length zero gives the first point.
    The sampler returns a point, and raises nothing, on every path at every
    progress. *)
Theorem C5_sampler_boundaries (p : Position) (rest path : list Position) (progress : num) :
  interpolateAlongPath [] progress = Some (lit 0, lit 0) /\
  interpolateAlongPath [p] progress = Some p /\
  ((progress <=? lit 0) = true ->
   interpolateAlongPath (p :: rest) progress = Some p) /\
  ((progress >=? lit 1) = true ->
   exists final, last (p :: rest) = Some final /\
     interpolateAlongPath (p :: rest) progress = Some final) /\
  ((progress <=? lit 0) = false -> (progress >=? lit 1) = false ->
   (ArcLength.arcLength (p :: rest) =? lit 0) = true ->
   interpolateAlongPath (p :: rest) progress = Some p) /\
  is_Some (interpolateAlongPath path progress).
Proof.
  destruct p as [x y].
  split; [done|]. split; [done|]. split; [|split; [|split]].
  - intros Hlow. unfold interpolateAlongPath.
    destruct rest as [|q rest]; [done|]. cbn [length Nat.eqb]. by rewrite Hlow.
  - intros Hhigh. unfold interpolateAlongPath.
    destruct rest as [|q rest]; [by exists (x, y)|]. cbn [length Nat.eqb].
    rewrite (leb_one_zero progress Hhigh), Hhigh.
    rewrite last_lookup. cbn [length Nat.pred].
    replace (S (S (length rest)) - 1)%nat with (S (length rest)) by lia.
    destruct (lookup_lt_is_Some_2 ((x, y) :: q :: rest) (S (length rest)))
      as [[fx fy] Hfinal]; [simpl; lia|].
    exists (fx, fy). by rewrite Hfinal.
  - intros Hlow Hhigh Hzero. unfold interpolateAlongPath.
    destruct rest as [|q rest]; [done|]. cbn [length Nat.eqb].
    rewrite Hlow, Hhigh, measure_spec. cbn [mbind option_bind]. by rewrite Hzero.
  - apply interpolateAlongPath_is_Some.
Qed.
End SamplerBoundaries.

(* ================================================================== *)
(** * The walk of the sampler *)
Section SamplerWalk.
Context {num : Type} `{SamplerLaws num}.
Local Open Scope num_scope.

Abbreviation Position := (num * num)%type.

Import TrackGeometry.

Lemma segmentLengths_lookup (path : list Position) (i : nat) (a b : Position) :
  path !! i = Some a -> path !! S i = Some b ->
  ArcLength.segmentLengths path !! i = Some (distance a b).
Proof.
  revert i. induction path as [|p [|q rest] IH]; intros i Ha Hb; [done..|].
  change (ArcLength.segmentLengths (p :: q :: rest))
    with (distance p q :: ArcLength.segmentLengths (q :: rest)).
  destruct i as [|i]; simpl in *.
  - by injection Ha as <-; injection Hb as <-.
  - by apply IH.
Qed.

Lemma segmentLengths_take (path : list Position) (i : nat) :
  ArcLength.segmentLengths (take (S i) path) = take i (ArcLength.segmentLengths path).
Proof.
  revert i. induction path as [|p [|q rest] IH]; intros i.
  - by destruct i.
  - simpl. by destruct i.
  - destruct i as [|i]; [done|].
    change (ArcLength.segmentLengths (p :: q :: rest))
      with (distance p q :: ArcLength.segmentLengths (q :: rest)).
    cbn [take]. rewrite <- IH. done.
Qed.

(** The length of the path up to its point of index [S i] is the running
    total of the loop after the segment of index [i]. *)
Lemma arcLength_take_S (path : list Position) (i : nat) (a b : Position) :
  path !! i = Some a -> path !! S i = Some b ->
  ArcLength.arcLength (take (S (S i)) path)
  = ArcLength.arcLength (take (S i) path) + distance a b.
Proof.
  intros Ha Hb. unfold ArcLength.arcLength. rewrite !segmentLengths_take.
  rewrite (take_S_r _ i _ (segmentLengths_lookup path i a b Ha Hb)), foldl_app. done.
Qed.

(** The loop from the segment of index [i] on, entered with the length of
    the path up to the point of index [i]: it stops in the first segment at
    whose end the length of the path reaches the target, and falls through
    to the last point when there is none. *)
Lemma walk_first_reached (path : list Position) (target : num) :
  forall suffix i,
  drop i (ArcLength.segmentLengths path) = suffix ->
  (forall j, (i <= j)%nat -> (S j < length path)%nat ->
     (target <=? ArcLength.arcLength (take (S (S j)) path)) = true ->
     (forall k, (i <= k < j)%nat ->
        (target <=? ArcLength.arcLength (take (S (S k)) path)) = false) ->
     exists p1 p2,
       path !! j = Some p1 /\ path !! S j = Some p2 /\
       ArcLength.reachedIndex target suffix i (ArcLength.arcLength (take (S i) path)) = j /\
       walk path target suffix i (ArcLength.arcLength (take (S i) path))
       = Some (p1.1 + (p2.1 - p1.1)
                        * ((target - ArcLength.arcLength (take (S j) path)) / distance p1 p2),
               p1.2 + (p2.2 - p1.2)
                        * ((target - ArcLength.arcLength (take (S j) path)) / distance p1 p2))) /\
  ((forall k, (i <= k)%nat -> (S k < length path)%nat ->
      (target <=? ArcLength.arcLength (take (S (S k)) path)) = false) ->
   walk path target suffix i (ArcLength.arcLength (take (S i) path))
   = (p ← path !! (length path - 1)%nat; Some (p.1, p.2))).
Proof.
  intros suffix. induction suffix as [|segLen rest IH]; intros i Hdrop.
  - assert (Hi : (length path - 1 <= i)%nat).
    { apply (f_equal length) in Hdrop. rewrite length_drop, segmentLengths_length in Hdrop.
      simpl in Hdrop. lia. }
    split; [intros j Hij Hj; lia|done].
  - assert (Hlen : ArcLength.segmentLengths path !! i = Some segLen).
    { rewrite <- (Nat.add_0_r i), <- lookup_drop, Hdrop. done. }
    assert (Hrest : drop (S i) (ArcLength.segmentLengths path) = rest).
    { rewrite (drop_S _ _ _ Hlen) in Hdrop. by injection Hdrop. }
    pose proof (lookup_lt_Some _ _ _ Hlen) as Hlt. rewrite segmentLengths_length in Hlt.
    destruct (lookup_lt_is_Some_2 path i) as [a Ha]; [lia|].
    destruct (lookup_lt_is_Some_2 path (S i)) as [b Hb]; [lia|].
    assert (segLen = distance a b) as ->.
    { pose proof (segmentLengths_lookup path i a b Ha Hb). congruence. }
    cbn [ArcLength.reachedIndex walk].
    rewrite <- (arcLength_take_S path i a b Ha Hb).
    destruct (IH (S i) Hrest) as [IHreached IHnone].
    split.
    + intros j Hij Hj Hreach Hfirst.
      destruct (decide (j = i)) as [->|Hne].
      * rewrite Hreach. exists a, b. split; [done|]. split; [done|]. split; [done|].
        replace (i + 1)%nat with (S i) by lia. rewrite Ha, Hb. done.
      * rewrite (Hfirst i) by lia. apply IHreached; [lia|done|done|].
        intros k Hk. apply Hfirst. lia.
    + intros Hnone. rewrite (Hnone i) by lia. apply IHnone.
      intros k Hk. apply Hnone. lia.
Qed.

Lemma reachedIndex_ge (target : num) (lens : list num) :
  forall i currentDist, (i <= ArcLength.reachedIndex target lens i currentDist)%nat.
Proof.
  induction lens as [|segLen rest IH]; intros i currentDist; cbn [ArcLength.reachedIndex]; [lia|].
  destruct (num_leb _ _); [lia|]. specialize (IH (S i) (currentDist + segLen)). lia.
Qed.

(** A farther target is reached in the same segment or in a later one. *)
Lemma reachedIndex_mono (target target' : num) (lens : list num) :
  (target <=? target') = true ->
  forall i currentDist,
  (ArcLength.reachedIndex target lens i currentDist
   <= ArcLength.reachedIndex target' lens i currentDist)%nat.
Proof.
  intros Hle. induction lens as [|segLen rest IH]; intros i currentDist;
    cbn [ArcLength.reachedIndex]; [lia|].
  destruct (target' <=? currentDist + segLen) eqn:Hfar.
  - by rewrite (leb_trans _ _ _ Hle Hfar).
  - destruct (target <=? currentDist + segLen); [|apply IH].
    pose proof (reachedIndex_ge target' rest (S i) (currentDist + segLen)). lia.
Qed.

(** C6. On a path of at least two points whose length is not zero, at a
    progress [t] that is neither [<= 0] nor [>= 1], with the target distance
    [t * total]: the sampler walks the segments in order and stops in the
    first segment, of index [i] from [p1] to [p2], at whose end the length of
    the path reaches the target; it returns the point [p1 + (p2 - p1) * s]
    with [s] the quotient of the target less the length of the path up to
    [p1] by the length of the segment. When the length of the path reaches
    the target at no point, it returns the last point. The segment the walk
    stops in is the same or a later one when the target distance is greater.
    And on a path whose cumulative arc length grows at every point no
    segment has length zero: the walk divides by zero in none. *)
Theorem C6_sampler_first_reached_segment (path : list Position) (t : num) :
  (2 <= length path)%nat ->
  (t <=? lit 0) = false -> (t >=? lit 1) = false ->
  (ArcLength.arcLength path =? lit 0) = false ->
  let target := t * ArcLength.arcLength path in
  let upTo k := ArcLength.arcLength (take (S k) path) in
  (forall i, (S i < length path)%nat ->
     (target <=? upTo (S i)) = true ->
     (forall k, (k < i)%nat -> (target <=? upTo (S k)) = false) ->
     exists p1 p2,
       path !! i = Some p1 /\ path !! S i = Some p2 /\
       ArcLength.sampledSegment path t = i /\
       upTo (S i) = upTo i + distance p1 p2 /\
       let s := (target - upTo i) / distance p1 p2 in
       interpolateAlongPath path t
       = Some (p1.1 + (p2.1 - p1.1) * s, p1.2 + (p2.2 - p1.2) * s)) /\
  ((forall k, (S k < length path)%nat -> (target <=? upTo (S k)) = false) ->
   interpolateAlongPath path t = last path) /\
  (forall t', (t' <=? lit 0) = false -> (t' >=? lit 1) = false ->
     (target <=? t' * ArcLength.arcLength path) = true ->
     (ArcLength.sampledSegment path t <= ArcLength.sampledSegment path t')%nat) /\
  ((forall k, (S k < length path)%nat -> (upTo k <? upTo (S k)) = true) ->
   forall i p1 p2, path !! i = Some p1 -> path !! S i = Some p2 ->
     (distance p1 p2 =? lit 0) = false).
Proof.
  intros Hlen Hlow Hhigh Hzero. cbn zeta.
  assert (Hstart : ArcLength.arcLength (take 1 path) = lit 0).
  { by destruct path as [|a [|b rest]]. }
  assert (Hsample : interpolateAlongPath path t
                    = walk path (t * ArcLength.arcLength path)
                        (ArcLength.segmentLengths path) 0 (lit 0)).
  { unfold interpolateAlongPath.
    replace (length path =? 0)%nat with false by (symmetry; apply Nat.eqb_neq; lia).
    replace (length path =? 1)%nat with false by (symmetry; apply Nat.eqb_neq; lia).
    rewrite Hlow, Hhigh, measure_spec. cbn [mbind option_bind]. by rewrite Hzero. }
  assert (Hsegment : ArcLength.sampledSegment path t
                     = ArcLength.reachedIndex (t * ArcLength.arcLength path)
                         (ArcLength.segmentLengths path) 0 (lit 0)).
  { unfold ArcLength.sampledSegment. by rewrite Hlow, Hhigh. }
  destruct (walk_first_reached path (t * ArcLength.arcLength path)
              (ArcLength.segmentLengths path) 0 eq_refl) as [Hreached Hnone].
  rewrite Hstart in Hreached, Hnone.
  split; [|split; [|split]].
  - intros i Hi Hreach Hfirst.
    destruct (Hreached i) as (p1 & p2 & Hp1 & Hp2 & Hindex & Hwalk); [lia|done|done| |].
    { intros k Hk. apply Hfirst. lia. }
    exists p1, p2. split; [done|]. split; [done|].
    split; [by rewrite Hsegment|]. split; [by apply arcLength_take_S|].
    by rewrite Hsample.
  - intros Hfar. rewrite Hsample, Hnone by (intros k _ Hk; by apply Hfar).
    rewrite last_lookup. replace (Nat.pred (length path)) with (length path - 1)%nat by lia.
    by destruct (path !! (length path - 1)%nat) as [[x y]|].
  - intros t' Hlow' Hhigh' Hle. rewrite Hsegment.
    unfold ArcLength.sampledSegment. rewrite Hlow', Hhigh'. by apply reachedIndex_mono.
  - intros Hgrows i p1 p2 Hp1 Hp2.
    pose proof (lookup_lt_Some _ _ _ Hp2) as Hi. specialize (Hgrows i Hi).
    rewrite (arcLength_take_S path i p1 p2 Hp1 Hp2) in Hgrows.
    destruct (distance p1 p2 =? lit 0) eqn:Hflat; [|done].
    by rewrite (add_zero_not_above _ _ Hflat) in Hgrows.
Qed.
End SamplerWalk.

(* ================================================================== *)
(** * The trail *)
Section Trail.
Context {num : Type} `{Number num} `{Infinity num}.
Context (lineSegments : gmap string (list (@TrackGeometry.LineSegment num))).
Context (getStationCoordinates : string -> option (num * num)).
Context (calculateHeading : num * num -> num * num -> num).
Local Open Scope num_scope.

Import TrainPositions.

Abbreviation Position := (num * num)%type.
Abbreviation TrainState := (@TrainPositions.TrainState num).
Abbreviation World := (@TrainPositions.World num).
Abbreviation animateState := (TrainPositions.animateState calculateHeading).
Abbreviation animate := (TrainPositions.animate calculateHeading).
Abbreviation reachable :=
  (TrainPositions.reachable lineSegments getStationCoordinates calculateHeading).


Lemma slice_trail (l : list Position) (p : Position) :
  slice (l ++ [p]) (- TRAIL_LENGTH) None = drop (length l + 1 - 20) (l ++ [p]).
Proof.
  unfold TRAIL_LENGTH. rewrite slice_suffix by lia.
  rewrite length_app. simpl. f_equal.
Qed.

(** What a frame does to the trail of one record. *)
Lemma animateState_trail now deltaTime (s s' : TrainState) out :
  animateState now deltaTime s = Some (s', out) ->
  lastInterpolatedPosition s' = Some (TrainTypes.position out) /\
  match previous s with
  | None => trail s' = trail s
  | Some _ =>
    exists lastTrailPos, last (trail s) = Some lastTrailPos /\
      trail s' =
        if manhattan (TrainTypes.position out) lastTrailPos >? TRAIL_THRESHOLD
        then slice (trail s ++ [TrainTypes.position out]) (- TRAIL_LENGTH) None
        else trail s
  end.
Proof.
  unfold TrainPositions.animateState. destruct (previous s) as [prev|].
  - cbn zeta.
    destruct (match trackPath s with Some _ => _ | None => _ end) as [[target hd]|];
      [|done].
    cbn [mbind option_bind]. destruct (last (trail s)) as [lastTrailPos|]; [|done].
    cbn [mbind option_bind]. intros [= <- <-]. simpl. split; [done|]. by eexists.
  - intros [= <- <-]. done.
Qed.

Lemma animateState_recordOk now deltaTime (s s' : TrainState) out :
  animateState now deltaTime s = Some (s', out) -> recordOk s -> recordOk s'.
Proof.
  intros Hframe [Hok _]. destruct (animateState_trail _ _ _ _ _ Hframe) as [Hlast Htrail].
  split; [|by rewrite Hlast].
  destruct (previous s).
  - destruct Htrail as (lastTrailPos & _ & ->).
    destruct (num_ltb _ _); [|done].
    rewrite slice_trail, length_drop, length_app. simpl. lia.
  - by rewrite Htrail.
Qed.

(** A frame raises nothing on a record whose trail is not empty. *)
Lemma animateState_is_Some now deltaTime (s : TrainState) :
  trail s <> [] -> is_Some (animateState now deltaTime s).
Proof.
  intros Htrail. unfold TrainPositions.animateState.
  destruct (previous s) as [prev|]; [|by eexists]. cbn zeta.
  destruct (last (trail s)) as [lastTrailPos|] eqn:Hlast;
    [|by apply last_None in Hlast].
  destruct (trackPath s) as [path|]; [destruct (2 <=? length path)%nat|];
    try by eexists.
  repeat match goal with
  | |- context [TrackGeometry.interpolateAlongPath ?p ?t] =>
      let Hpoint := fresh "Hpoint" in
      destruct (interpolateAlongPath_is_Some p t) as [? Hpoint];
      rewrite Hpoint; clear Hpoint
  end.
  by eexists.
Qed.

(** The records a frame leaves are the frames of the records it found. *)
Lemma animate_lookup now (w w' : World) out k (s' : TrainState) :
  animate now w = Some (w', out) ->
  trainStates w' !! k = Some s' ->
  exists s o,
    trainStates w !! k = Some s /\
    animateState now (num_min ((now - lastFrameTime w) / lit 1000) (dec 1 10)) s
      = Some (s', o).
Proof.
  unfold TrainPositions.animate. destruct (decide _) as [_|]; [|done].
  intros [= <- <-]. cbn [trainStates].
  rewrite lookup_omap, lookup_fmap.
  destruct (trainStates w !! k) as [s|]; [|done]. simpl.
  destruct (TrainPositions.animateState _ _ _ s) as [[s1 o]|] eqn:Hframe; [|done].
  simpl. intros [= <-]. by exists s, o.
Qed.

Lemma updateTrain_recordOk now (st : gmap string TrainState) t :
  map_Forall (fun _ s => recordOk s) st ->
  map_Forall (fun _ s => recordOk s)
    (TrainPositions.updateTrain lineSegments getStationCoordinates now st t).
Proof.
  intros Hok. unfold TrainPositions.updateTrain.
  destruct (getStationCoordinates _) as [coords|]; [|done].
  destruct (st !! TrainTypes.id t) as [existing|] eqn:Hex.
  - pose proof (map_Forall_lookup_1 _ _ _ _ Hok Hex) as [Htrail Hrendered].
    destruct (posChanged coords existing); apply map_Forall_insert_2; done.
  - apply map_Forall_insert_2; [|done]. split; [simpl; lia|done].
Qed.

Lemma ingest_recordOk now trains (st : gmap string TrainState) :
  map_Forall (fun _ s => recordOk s) st ->
  map_Forall (fun _ s => recordOk s)
    (TrainPositions.ingest lineSegments getStationCoordinates now trains st).
Proof.
  intros Hok. destruct trains as [trains|]; [|done]. simpl.
  assert (Hfold : map_Forall (fun _ s => recordOk s)
            (foldl (TrainPositions.updateTrain lineSegments getStationCoordinates now)
                   st trains)).
  { revert st Hok. induction trains as [|t trains IH]; intros st Hok; [done|].
    simpl. apply IH. by apply updateTrain_recordOk. }
  intros k s Hk. unfold removeStale in Hk.
  apply map_lookup_filter_Some in Hk as [Hk _]. by apply (Hfold k).
Qed.

(** In every world of the hook each record has a trail of 1 to 20 points
    and a last rendered position. *)
Lemma reachable_recordOk (w : World) :
  reachable w -> map_Forall (fun _ s => recordOk s) (trainStates w).
Proof.
  induction 1 as [t0|w now trains _ IH|w now w' out _ IH Hframe].
  - apply map_Forall_empty.
  - by apply ingest_recordOk.
  - intros k s' Hk.
    destruct (animate_lookup _ _ _ _ _ _ Hframe Hk) as (s & o & Hs & Hs').
    eapply animateState_recordOk; [exact Hs'|]. by apply (IH k).
Qed.

(** C7. In every world the hook reaches from its start by data arrivals and
    frames, every trail has at most 20 points (and at least one), and a
    frame raises nothing. A frame leaves the trail of a record without a
    previous keyframe as it is; for a record with one it compares the newly
    rendered position with the last point of the trail: when their Manhattan
    distance is above the threshold 0.00003 the position is appended and
    the trail cut to its last 20 points, dropping from the front, and
    otherwise the trail stays as it is. *)
Theorem C7_trail_bounded :
  (forall w : World, reachable w ->
     forall k s, trainStates w !! k = Some s -> (1 <= length (trail s) <= 20)%nat) /\
  (forall (w : World) now, reachable w -> is_Some (animate now w)) /\
  (forall now deltaTime (s s' : TrainState) out,
     animateState now deltaTime s = Some (s', out) ->
     let rendered := TrainTypes.position out in
     lastInterpolatedPosition s' = Some rendered /\
     match previous s with
     | None => trail s' = trail s
     | Some _ =>
       exists lastTrailPos, last (trail s) = Some lastTrailPos /\
         if manhattan rendered lastTrailPos >? dec 3 100000
         then trail s' = drop (length (trail s) + 1 - 20) (trail s ++ [rendered]) /\
              ((length (trail s) < 20)%nat -> trail s' = trail s ++ [rendered]) /\
              (length (trail s) = 20%nat -> trail s' = tail (trail s) ++ [rendered])
         else trail s' = trail s
     end).
Proof.
  split; [|split].
  - intros w Hw k s Hk. by apply (reachable_recordOk w Hw k).
  - intros w now Hw. unfold TrainPositions.animate.
    destruct (decide _) as [_|Hbad]; [by eexists|]. exfalso. apply Hbad.
    intros k frame. rewrite lookup_fmap.
    destruct (trainStates w !! k) as [s|] eqn:Hk; [|done]. simpl. intros [= <-].
    apply animateState_is_Some.
    pose proof (reachable_recordOk w Hw k s Hk) as [Hok _]. simpl in Hok.
    intros Hnil. rewrite Hnil in Hok. simpl in Hok. lia.
  - intros now deltaTime s s' out Hframe rendered.
    destruct (animateState_trail _ _ _ _ _ Hframe) as [Hlast Htrail].
    split; [done|]. destruct (previous s); [|done].
    destruct Htrail as (lastTrailPos & HlastTrail & Htrail).
    exists lastTrailPos. split; [done|]. fold rendered in Htrail.
    unfold TRAIL_THRESHOLD in Htrail. destruct (num_ltb _ _); [|done].
    rewrite slice_trail in Htrail. split; [done|]. split.
    + intros Hshort. rewrite Htrail.
      replace (length (trail s) + 1 - 20)%nat with 0%nat by lia. done.
    + intros Hfull. rewrite Htrail, Hfull.
      destruct (trail s) as [|oldest others]; [done|]. done.
Qed.
End Trail.

(* ================================================================== *)
(** * The sampler in exact arithmetic *)
Section RealSampler.
Import Reals Lra RealNumber.
Local Open Scope R_scope.
Local Arguments TrackGeometry.distance : simpl never.

Abbreviation RPosition := (R * R)%type.
Abbreviation lengths := (@ArcLength.segmentLengths R real_number).
Abbreviation total := (@ArcLength.arcLength R real_number).
Abbreviation dist := (@TrackGeometry.distance R real_number).

(** The sum a left fold of [+] computes. *)
Lemma foldl_Rplus (l : list R) (a : R) : foldl Rplus a l = a + foldl Rplus 0 l.
Proof.
  revert a. induction l as [|x l IH]; intros a; simpl; [lra|].
  rewrite (IH (a + x)), (IH (0 + x)). lra.
Qed.

Lemma sum_cons (x : R) (l : list R) : foldl Rplus 0 (x :: l) = x + foldl Rplus 0 l.
Proof. simpl. rewrite foldl_Rplus. lra. Qed.

Lemma sum_take_S (l : list R) (i : nat) (x : R) :
  l !! i = Some x -> foldl Rplus 0 (take (S i) l) = foldl Rplus 0 (take i l) + x.
Proof.
  intros Hx. rewrite (take_S_r l i x Hx), foldl_app. reflexivity.
Qed.

Lemma sum_nonneg (l : list R) : Forall (fun x => 0 < x) l -> 0 <= foldl Rplus 0 l.
Proof.
  induction 1 as [|x l Hx _ IH]; [simpl; lra|]. rewrite sum_cons. lra.
Qed.

Lemma sum_pos (l : list R) : l <> [] -> Forall (fun x => 0 < x) l -> 0 < foldl Rplus 0 l.
Proof.
  intros Hne Hall. destruct Hall as [|x l Hx Hl]; [done|].
  rewrite sum_cons. pose proof (sum_nonneg l Hl). lra.
Qed.

Lemma real_leb_true (a b : R) : num_leb a b = true <-> a <= b.
Proof. simpl. unfold leb. destruct (Rle_dec a b); split; (done || lra). Qed.

Lemma real_leb_false (a b : R) : num_leb a b = false <-> b < a.
Proof. simpl. unfold leb. destruct (Rle_dec a b); split; (done || lra). Qed.

Lemma real_eqb_false (a b : R) : a <> b -> num_eqb a b = false.
Proof. intros Hne. simpl. unfold eqb. by destruct (Req_dec_T a b). Qed.

Lemma lengths_lookup (path : list RPosition) (i : nat) (a b : RPosition) :
  path !! i = Some a -> path !! S i = Some b -> lengths path !! i = Some (dist a b).
Proof.
  revert i. induction path as [|p [|q rest] IH]; intros i Ha Hb; [done..|].
  change (lengths (p :: q :: rest)) with (dist p q :: lengths (q :: rest)).
  destruct i as [|i]; simpl in *.
  - by injection Ha as <-; injection Hb as <-.
  - by apply IH.
Qed.

Lemma lengths_take (path : list RPosition) (i : nat) :
  lengths (take (S i) path) = take i (lengths path).
Proof.
  revert i. induction path as [|p [|q rest] IH]; intros i.
  - by destruct i.
  - simpl. by destruct i.
  - destruct i as [|i]; [done|].
    change (lengths (p :: q :: rest)) with (dist p q :: lengths (q :: rest)).
    cbn [take]. rewrite <- IH. done.
Qed.

(** The distance from the start of a segment to a point of it. *)
Lemma dist_along (p q : RPosition) (s : R) :
  0 <= s ->
  dist p (p.1 + (q.1 - p.1) * s, p.2 + (q.2 - p.2) * s) = s * dist p q.
Proof.
  intros Hs. unfold TrackGeometry.distance. simpl.
  replace ((p.1 - (p.1 + (q.1 - p.1) * s)) * (p.1 - (p.1 + (q.1 - p.1) * s)) +
           (p.2 - (p.2 + (q.2 - p.2) * s)) * (p.2 - (p.2 + (q.2 - p.2) * s)))
    with (s * s * ((p.1 - q.1) * (p.1 - q.1) + (p.2 - q.2) * (p.2 - q.2))) by ring.
  rewrite sqrt_mult.
  - by rewrite sqrt_square.
  - nra.
  - pose proof (Rle_0_sqr (p.1 - q.1)) as Hx. pose proof (Rle_0_sqr (p.2 - q.2)) as Hy.
    unfold Rsqr in Hx, Hy. lra.
Qed.

Abbreviation sum := (foldl Rplus 0).

(** The walk over the segments from index [i] on stops in a segment [j]
    around the target distance, and returns the point of that segment at the
    remaining distance. *)
Lemma walk_reaches (path : list RPosition) (target : R) :
  Forall (fun x => 0 < x) (lengths path) ->
  target <= sum (lengths path) ->
  forall suffix i,
  drop i (lengths path) = suffix ->
  sum (take i (lengths path)) < target ->
  exists j p1 p2,
    ArcLength.reachedIndex target suffix i (sum (take i (lengths path))) = j /\
    path !! j = Some p1 /\ path !! S j = Some p2 /\
    sum (take j (lengths path)) < target <= sum (take j (lengths path)) + dist p1 p2 /\
    TrackGeometry.walk path target suffix i (sum (take i (lengths path)))
    = Some (p1.1 + (p2.1 - p1.1) * ((target - sum (take j (lengths path))) / dist p1 p2),
            p1.2 + (p2.2 - p1.2) * ((target - sum (take j (lengths path))) / dist p1 p2)).
Proof.
  intros Hpos Htotal suffix. induction suffix as [|segLen rest IH]; intros i Hdrop Hbelow.
  - assert (Hall : take i (lengths path) = lengths path).
    { apply take_ge. apply (f_equal length) in Hdrop. rewrite length_drop in Hdrop.
      simpl in Hdrop. lia. }
    rewrite Hall in Hbelow. lra.
  - assert (Hi : lengths path !! i = Some segLen).
    { rewrite <- (Nat.add_0_r i), <- lookup_drop, Hdrop. done. }
    assert (Hrest : drop (S i) (lengths path) = rest).
    { rewrite (drop_S _ _ _ Hi) in Hdrop. by injection Hdrop. }
    pose proof (lookup_lt_Some _ _ _ Hi) as Hlt. rewrite segmentLengths_length in Hlt.
    destruct (lookup_lt_is_Some_2 path i) as [a Ha]; [lia|].
    destruct (lookup_lt_is_Some_2 path (S i)) as [b Hb]; [lia|].
    pose proof (lengths_lookup path i a b Ha Hb) as Hab.
    assert (segLen = dist a b) as -> by congruence.
    cbn [ArcLength.reachedIndex TrackGeometry.walk].
    destruct (num_leb _ _) eqn:Hreach.
    + apply real_leb_true in Hreach. simpl in Hreach.
      exists i, a, b. split; [done|]. split; [done|]. split; [done|].
      split; [lra|]. replace (i + 1)%nat with (S i) by lia. rewrite Ha, Hb. done.
    + apply real_leb_false in Hreach. simpl in Hreach.
      change (num_add (sum (take i (lengths path))) (dist a b))
        with (sum (take i (lengths path)) + dist a b).
      rewrite <- (sum_take_S _ _ _ Hi). apply IH; [done|].
      rewrite (sum_take_S _ _ _ Hi). lra.
Qed.

(** Cumulative arc length that grows at every point means segments of
    positive length. *)
Lemma increasing_lengths_positive (path : list RPosition) :
  (forall k, (S k < length path)%nat ->
     total (take (S k) path) < total (take (S (S k)) path)) ->
  Forall (fun x => 0 < x) (lengths path).
Proof.
  intros Hinc. apply Forall_lookup_2. intros k x Hk.
  pose proof (lookup_lt_Some _ _ _ Hk) as Hlt. rewrite segmentLengths_length in Hlt.
  specialize (Hinc k ltac:(lia)). unfold ArcLength.arcLength in Hinc.
  rewrite !lengths_take in Hinc.
  change (sum (take k (lengths path)) < sum (take (S k) (lengths path))) in Hinc.
  rewrite (sum_take_S _ _ _ Hk) in Hinc. lra.
Qed.

(** In exact arithmetic, the numbers read as reals and nothing rounded: on a
    path of at least two points whose cumulative arc length grows at every
    point, and at a progress [t] between 0 and 1, the sample lies in the
    segment from [p1] to [p2] that [sampledSegment] names, at the fraction
    [s] of it; the distance travelled up to it, the length of the path up to
    [p1] plus [s] times the length of the segment, is [t] times the total
    length; and the distance travelled does not decrease when the progress
    grows. Binary64 rounds, and has this up to rounding only. *)
Lemma sampler_arc_length_exact (path : list RPosition) :
  (2 <= length path)%nat ->
  (forall k, (S k < length path)%nat ->
     total (take (S k) path) < total (take (S (S k)) path)) ->
  (forall t, 0 <= t <= 1 ->
     exists i p1 p2 s,
       ArcLength.sampledSegment path t = i /\
       path !! i = Some p1 /\ path !! S i = Some p2 /\
       0 <= s <= 1 /\
       TrackGeometry.interpolateAlongPath path t
         = Some (p1.1 + (p2.1 - p1.1) * s, p1.2 + (p2.2 - p1.2) * s) /\
       total (take (S i) path) + s * dist p1 p2 = t * total path /\
       ArcLength.traveled path t = Some (t * total path)) /\
  (forall t1 t2, 0 <= t1 -> t1 <= t2 -> t2 <= 1 ->
     exists d1 d2,
       ArcLength.traveled path t1 = Some d1 /\
       ArcLength.traveled path t2 = Some d2 /\
       d1 <= d2).
Proof.
  intros Hlen Hinc. pose proof (increasing_lengths_positive path Hinc) as Hpos.
  assert (Hlens : length (lengths path) = (length path - 1)%nat)
    by apply segmentLengths_length.
  assert (Htotal : 0 < total path).
  { apply sum_pos; [|done]. intros Hnil. rewrite Hnil in Hlens. simpl in Hlens. lia. }
  assert (Hsample : forall t, 0 <= t <= 1 ->
    exists i p1 p2 s,
      ArcLength.sampledSegment path t = i /\
      path !! i = Some p1 /\ path !! S i = Some p2 /\
      0 <= s <= 1 /\
      TrackGeometry.interpolateAlongPath path t
        = Some (p1.1 + (p2.1 - p1.1) * s, p1.2 + (p2.2 - p1.2) * s) /\
      total (take (S i) path) + s * dist p1 p2 = t * total path).
  { intros t [Ht0 Ht1].
    unfold ArcLength.sampledSegment, TrackGeometry.interpolateAlongPath.
    destruct path as [|a [|b rest]] eqn:Hpath; [simpl in Hlen; lia..|].
    rewrite <- Hpath in *. replace (length path =? 0)%nat with false
      by (symmetry; apply Nat.eqb_neq; lia).
    replace (length path =? 1)%nat with false by (symmetry; apply Nat.eqb_neq; lia).
    destruct (num_leb t (lit 0)) eqn:Hlow.
    { (* progress 0: the first point *)
      apply real_leb_true in Hlow. change (lit 0) with 0 in Hlow.
      assert (t = 0) as -> by lra.
      exists 0%nat, a, b, 0. rewrite Hpath. cbn [lookup list_lookup mbind option_bind].
      split; [done|]. split; [done|]. split; [done|]. split; [lra|].
      split; [f_equal; f_equal; ring|].
      change (total (take 1 (a :: b :: rest))) with 0. lra. }
    destruct (num_leb (lit 1) t) eqn:Hhigh.
    { (* progress 1: the last point *)
      apply real_leb_true in Hhigh. change (lit 1) with 1 in Hhigh.
      assert (t = 1) as -> by lra.
      destruct (lookup_lt_is_Some_2 path (length path - 2)) as [p1 Hp1]; [lia|].
      destruct (lookup_lt_is_Some_2 path (S (length path - 2))) as [p2 Hp2]; [lia|].
      exists (length path - 2)%nat, p1, p2, 1.
      split; [done|]. split; [done|]. split; [done|]. split; [lra|].
      replace (length path - 1)%nat with (S (length path - 2)) by lia.
      rewrite Hp2. cbn [mbind option_bind].
      split; [f_equal; f_equal; ring|].
      pose proof (lengths_lookup path _ p1 p2 Hp1 Hp2) as Hseg.
      unfold ArcLength.arcLength. rewrite lengths_take.
      change (sum (take (length path - 2) (lengths path)) + 1 * dist p1 p2
              = 1 * sum (lengths path)).
      rewrite Rmult_1_l, <- (sum_take_S _ _ _ Hseg), take_ge by lia. lra. }
    (* between: the walk *)
    apply real_leb_false in Hlow, Hhigh.
    change (lit 0) with 0 in Hlow. change (lit 1) with 1 in Hhigh.
    rewrite measure_spec. cbn [mbind option_bind].
    rewrite real_eqb_false by (change (lit 0) with 0; lra).
    destruct (walk_reaches path (t * total path) Hpos) with (suffix := lengths path) (i := 0%nat)
      as (j & p1 & p2 & Hj & Hp1 & Hp2 & [Hbelow Hreach] & Hwalk).
    { change (t * total path <= total path). nra. }
    { done. }
    { change (0 < t * total path). nra. }
    exists j, p1, p2, ((t * total path - sum (take j (lengths path))) / dist p1 p2).
    assert (Hd : 0 < dist p1 p2) by lra.
    assert (Hs : (t * total path - sum (take j (lengths path))) / dist p1 p2 * dist p1 p2
                 = t * total path - sum (take j (lengths path))) by (field; lra).
    split; [exact Hj|]. split; [done|]. split; [done|].
    split; [split; nra|]. split; [exact Hwalk|].
    unfold ArcLength.arcLength at 1. rewrite lengths_take.
    change (sum (take j (lengths path))
            + (t * total path - sum (take j (lengths path))) / dist p1 p2 * dist p1 p2
            = t * total path).
    rewrite Hs. lra. }
  assert (Htraveled : forall t, 0 <= t <= 1 ->
            ArcLength.traveled path t = Some (t * total path)).
  { intros t Ht. destruct (Hsample t Ht) as (i & p1 & p2 & s & Hi & Hp1 & Hp2 & Hs & Hpoint & Hdist).
    unfold ArcLength.traveled. rewrite Hi, Hp1, Hpoint. cbn [mbind option_bind].
    f_equal. rewrite dist_along by lra. exact Hdist. }
  split.
  - intros t Ht. destruct (Hsample t Ht) as (i & p1 & p2 & s & Hi & Hp1 & Hp2 & Hs & Hpoint & Hdist).
    exists i, p1, p2, s. repeat (split; [done|]). by apply Htraveled.
  - intros t1 t2 H0 H12 H1. exists (t1 * total path), (t2 * total path).
    split; [apply Htraveled; lra|]. split; [apply Htraveled; lra|]. nra.
Qed.
End RealSampler.

(* ================================================================== *)
(** * The theorems on the small network *)

(** C2 there: the moving train is reported back at A at 31000 and keeps its
    velocity (0.03, 0.01). *)
Lemma C2_velocity_carried_over_witness :
  TrainPositions.velocity <$>
    (TrainPositions.ingest Scenario.lineSegments Scenario.getStationCoordinates
       (lit 31000) (Some [Scenario.trainAt "A"]) Scenario.storeCruising
       !! "central-1"%string)
  = Some (dec 3 100, dec 1 100).
Proof.
  destruct (C2_velocity_carried_over Scenario.lineSegments Scenario.getStationCoordinates
              (lit 31000) Scenario.storeCruising (Scenario.trainAt "A")
              Scenario.stationA Scenario.cruising) as [_ Hbatch].
  - reflexivity.
  - reflexivity.
  - reflexivity.
  - apply (Hbatch [Scenario.trainAt "A"]).
    + apply NoDup_singleton.
    + apply list_elem_of_singleton. reflexivity.
Defined.

(** C3 there: from A to B the resolver returns the whole polyline, from B
    to A the polyline reversed. *)
Lemma C3_path_orientation_witness :
  TrackGeometry.findTrackPath Scenario.lineSegments Scenario.stationA Scenario.stationB
    "Central" = Some Scenario.polyline /\
  TrackGeometry.findTrackPath Scenario.lineSegments Scenario.stationB Scenario.stationA
    "Central" = Some (reverse Scenario.polyline).
Proof.
  destruct (C3_path_orientation Scenario.lineSegments Scenario.stationA Scenario.stationB
              "Central" [Scenario.segment] Scenario.segment 0 2)
    as (path & first & final & Hpath & Hrun & _ & _ & _ & _ & _ & _ & Hback).
  - reflexivity.
  - reflexivity.
  - reflexivity.
  - reflexivity.
  - reflexivity.
  - rewrite Hpath, Hback, Hrun. split; reflexivity.
Defined.

(** C4 there: from A to A both nearest indices are 0 on the only polyline of
    the line, and the resolver returns [null]; from A to B they are 0 and 2,
    the score is 0, and the resolver returns the run between them. *)
Lemma C4_null_iff_none_qualifies_witness :
  TrackGeometry.findTrackPath Scenario.lineSegments Scenario.stationA Scenario.stationA
    "Central" = None /\
  exists best,
    best ∈ [Scenario.segment] /\
    TrackGeometry.findTrackPath Scenario.lineSegments Scenario.stationA Scenario.stationB
      "Central"
    = Some (TrackGeometry.extractPath (TrackGeometry.coordinates best)
              (TrackGeometry.fromIdx
                 (TrackGeometry.nearest Scenario.stationA Scenario.stationB
                    (TrackGeometry.coordinates best)))
              (TrackGeometry.toIdx
                 (TrackGeometry.nearest Scenario.stationA Scenario.stationB
                    (TrackGeometry.coordinates best)))).
Proof.
  assert (Hline : Scenario.lineSegments !! "Central"%string = Some [Scenario.segment])
    by reflexivity.
  split.
  - destruct (C4_null_iff_none_qualifies Scenario.lineSegments Scenario.stationA
                Scenario.stationA "Central") as [[_ Hnull] _].
    apply Hnull. right. exists [Scenario.segment]. split; [exact Hline|].
    intros seg Hseg. apply list_elem_of_singleton in Hseg as ->. left. reflexivity.
  - destruct (C4_null_iff_none_qualifies Scenario.lineSegments Scenario.stationA
                Scenario.stationB "Central") as [_ Hsome].
    destruct (Hsome Scenario.polyline) as
      (segs & best & ci & cj & Hsegs & Hbest & _ & _ & _ & _ & _ & Hpath & _);
      [reflexivity|].
    assert (segs = [Scenario.segment]) as -> by congruence.
    exists best. split; [exact Hbest|].
    apply list_elem_of_singleton in Hbest as ->. reflexivity.
Defined.

(** C5 there: the polyline sampled at progress 0 and at progress 1. *)
Lemma C5_sampler_boundaries_witness :
  TrackGeometry.interpolateAlongPath Scenario.polyline (lit 0) = Some Scenario.stationA /\
  exists final, last Scenario.polyline = Some final /\
    TrackGeometry.interpolateAlongPath Scenario.polyline (lit 1) = Some final.
Proof.
  destruct (C5_sampler_boundaries Scenario.stationA
              [(dec 5 10, dec 1 10); Scenario.stationB] [] (lit 0))
    as (_ & _ & Hfirst & _).
  destruct (C5_sampler_boundaries Scenario.stationA
              [(dec 5 10, dec 1 10); Scenario.stationB] [] (lit 1))
    as (_ & _ & _ & Hlast & _).
  split.
  - apply Hfirst. reflexivity.
  - apply Hlast. reflexivity.
Defined.

(** C8 there: the train seen at A at 1000 is missing from the batch of
    16000. The track-path hook has dropped it; the straight-line hook still
    holds its record, and drops it from the batch of 62000. *)
Lemma C8_absent_train_evicted_witness :
  TrainPositions.ingest Scenario.lineSegments Scenario.getStationCoordinates
    (lit 16000) (Some []) Scenario.storeA !! "central-1"%string = None /\
  TrainPositionsLegacy.ingest Scenario.getStationCoordinates
    (lit 16000) (Some []) Scenario.legacyStoreA !! "central-1"%string
    = Some Scenario.legacySeenAtA /\
  TrainPositionsLegacy.ingest Scenario.getStationCoordinates
    (lit 62000) (Some []) Scenario.legacyStoreA !! "central-1"%string = None.
Proof.
  destruct (C8_absent_train_evicted Scenario.lineSegments Scenario.getStationCoordinates
              (lit 16000) [] Scenario.storeA Scenario.legacyStoreA "central-1")
    as [Hgone Hkept]; [apply not_elem_of_nil|].
  destruct (C8_absent_train_evicted Scenario.lineSegments Scenario.getStationCoordinates
              (lit 62000) [] Scenario.storeA Scenario.legacyStoreA "central-1")
    as [_ Hlate]; [apply not_elem_of_nil|].
  split; [exact Hgone|]. split.
  - rewrite Hkept. reflexivity.
  - rewrite Hlate. reflexivity.
Defined.

(** C9 there: the train seen at A is reported at a station the lookup does
    not know, and its record stays. *)
Lemma C9_unresolved_station_skipped_witness :
  TrainPositions.ingest Scenario.lineSegments Scenario.getStationCoordinates
    (lit 16000) (Some [Scenario.trainAt "Nowhere"]) Scenario.storeA !! "central-1"%string
  = Some Scenario.seenAtA.
Proof.
  destruct (C9_unresolved_station_skipped Scenario.lineSegments
              Scenario.getStationCoordinates (lit 16000) Scenario.storeA
              (Scenario.trainAt "Nowhere")) as (_ & _ & Hbatch).
  - reflexivity.
  - etrans; [apply (Hbatch [Scenario.trainAt "Nowhere"])|reflexivity].
    + apply NoDup_singleton.
    + apply list_elem_of_singleton. reflexivity.
Defined.

(** C10 there: the path from A to B is the polyline, of three points. *)
Lemma C10_resolved_path_has_two_points_witness :
  TrackGeometry.findTrackPath Scenario.lineSegments Scenario.stationA Scenario.stationB
    "Central" = Some Scenario.polyline /\
  (2 <= length Scenario.polyline)%nat.
Proof.
  assert (Hpath : TrackGeometry.findTrackPath Scenario.lineSegments Scenario.stationA
                    Scenario.stationB "Central" = Some Scenario.polyline) by reflexivity.
  destruct (C10_resolved_path_has_two_points Scenario.lineSegments
              Scenario.stationA Scenario.stationB "Central" Scenario.polyline Hpath)
    as (segs & seg & _ & _ & _ & _ & _ & _ & _ & Htwo & _).
  split; [exact Hpath|exact Htwo].
Defined.

Section RealNetwork.
Import Reals Lra RealNumber.
Local Open Scope R_scope.

(** On the path (0,0), (3,4), (3,10) in exact arithmetic: half way, the
    distance travelled is half the length of the path. *)
Example half_way_exact :
  ArcLength.traveled Scenario.realPath (1 / 2)
  = Some (1 / 2 * ArcLength.arcLength Scenario.realPath).
Proof.
  destruct (sampler_arc_length_exact Scenario.realPath) as [Hat _].
  - simpl. lia.
  - intros k Hk. unfold ArcLength.arcLength, TrackGeometry.distance.
    destruct k as [|[|k]]; [| |simpl in Hk; lia]; simpl.
    + assert (0 < sqrt ((0 - 3) * (0 - 3) + (0 - 4) * (0 - 4))) by (apply sqrt_lt_R0; lra).
      lra.
    + assert (0 < sqrt ((3 - 3) * (3 - 3) + (4 - 10) * (4 - 10))) by (apply sqrt_lt_R0; lra).
      lra.
  - destruct (Hat (1 / 2)) as (i & p1 & p2 & s & _ & _ & _ & _ & _ & _ & Htraveled); [lra|].
    exact Htraveled.
Qed.
End RealNetwork.

(** C7 there: after the sighting at A the trail is within bounds and a
    frame goes through; a frame at 20000 on the moving record, 16 ms after
    the frame before, appends the rendered position to its trail. *)
Lemma C7_trail_bounded_witness :
  (1 <= length (TrainPositions.trail Scenario.seenAtA) <= 20)%nat /\
  is_Some (TrainPositions.animate Scenario.noHeading (lit 1016) Scenario.world1) /\
  exists s' out,
    TrainPositions.animateState Scenario.noHeading (lit 20000) (dec 16 1000)
      Scenario.cruising = Some (s', out) /\
    TrainPositions.trail s'
      = TrainPositions.trail Scenario.cruising ++ [TrainTypes.position out].
Proof.
  destruct (C7_trail_bounded Scenario.lineSegments Scenario.getStationCoordinates
              Scenario.noHeading) as (Hbound & Htotal & Hframe).
  assert (Hworld : TrainPositions.reachable Scenario.lineSegments
            Scenario.getStationCoordinates Scenario.noHeading Scenario.world1).
  { apply TrainPositions.reachable_arrive, TrainPositions.reachable_start. }
  split; [|split].
  - apply (Hbound Scenario.world1 Hworld "central-1"%string). reflexivity.
  - apply Htotal. exact Hworld.
  - eexists _, _. split; [vm_compute; reflexivity|].
    match goal with
    | |- TrainPositions.trail ?s' = _ ++ [TrainTypes.position ?out] =>
        destruct (Hframe (lit 20000) (dec 16 1000) Scenario.cruising s' out)
          as [_ (lastTrailPos & Hlast & Hif)]; [vm_compute; reflexivity|]
    end.
    assert (lastTrailPos = (dec 25 100, dec 5 100)) as ->
      by (apply (inj Some); rewrite <- Hlast; reflexivity).
    match type of Hif with
    | if ?c then _ else _ =>
        assert (Hfar : c = true) by (vm_compute; reflexivity); rewrite Hfar in Hif
    end.
    destruct Hif as (_ & Hshort & _). apply Hshort. simpl. lia.
Defined.

(* ================================================================== *)
(** * Readings on binary64 *)
Section Binary64.
Import Floats.

(** The quotients that stand for the decimal literals of the sources are the
    values of those literals. *)
#[warnings="-inexact-float"]
Example decimal_literals :
  (dec 5 10 : PrimFloat.float) = 0.5%float /\
  (dec 48 100 : PrimFloat.float) = 0.48%float /\
  (dec 235 1000 : PrimFloat.float) = 0.235%float /\
  (dec 5 100 : PrimFloat.float) = 0.05%float /\
  (dec 1 10 : PrimFloat.float) = 0.1%float /\
  (dec 3 100000 : PrimFloat.float) = 0.00003%float /\
  (dec 1 10000 : PrimFloat.float) = 0.0001%float /\
  (dec 1 100000 : PrimFloat.float) = 0.00001%float.
Proof. repeat split; reflexivity. Qed.

(** Half way along the polyline of the small network, whose two segments
    have the same length, the sampler is at the middle point. *)
Example sample_half_way :
  TrackGeometry.interpolateAlongPath Scenario.polyline (dec 5 10)
  = Some (dec 5 10, dec 1 10).
Proof. reflexivity. Qed.

(** C4 as the specification words it fails: a polyline is registered under
    the name and its two nearest indices differ, yet the resolver returns
    [null]. From the point (2^600, 0) the square of the distance to every
    point of the polyline overflows, every distance is [Infinity], and no
    index is ever nearest to it: the scan leaves [-1] for [from] and [2] for
    [to], and the score [Infinity] is not below [Infinity]. *)
Lemma C4_null_with_different_indices :
  let from : PrimFloat.float * PrimFloat.float := (0x1p+600%float, lit 0) in
  let s := TrackGeometry.nearest from Scenario.stationB Scenario.polyline in
  Scenario.lineSegments !! "Central"%string = Some [Scenario.segment] /\
  TrackGeometry.coordinates Scenario.segment = Scenario.polyline /\
  TrackGeometry.fromIdx s = (-1)%Z /\ TrackGeometry.toIdx s = 2%Z /\
  (TrackGeometry.score s <? num_infinity)%num = false /\
  TrackGeometry.findTrackPath Scenario.lineSegments from Scenario.stationB "Central" = None /\
  (Scenario.lineSegments !! "Central"%string <> None) /\
  (forall segs, Scenario.lineSegments !! "Central"%string = Some segs ->
     exists seg, seg ∈ segs /\
       TrackGeometry.fromIdx
         (TrackGeometry.nearest from Scenario.stationB (TrackGeometry.coordinates seg))
       <> TrackGeometry.toIdx
            (TrackGeometry.nearest from Scenario.stationB (TrackGeometry.coordinates seg))).
Proof.
  cbn zeta. repeat (split; [reflexivity|]). split; [done|].
  intros segs [= <-]. exists Scenario.segment.
  split; [by apply list_elem_of_singleton|]. vm_compute. discriminate.
Qed.

(** C6 on the polyline of the small network: three quarters of the way, the
    length of the path reaches the target in the second segment and not in
    the first, and the sample is the point of the second segment at the
    quotient of the distance that remains by the length of that segment. *)
Lemma C6_sampler_first_reached_segment_witness :
  let target : PrimFloat.float := (dec 75 100 * ArcLength.arcLength Scenario.polyline)%num in
  let s := ((target - ArcLength.arcLength (take 2 Scenario.polyline))
            / TrackGeometry.distance (dec 5 10, dec 1 10) (lit 1, lit 0))%num in
  ArcLength.sampledSegment Scenario.polyline (dec 75 100) = 1%nat /\
  TrackGeometry.interpolateAlongPath Scenario.polyline (dec 75 100)
  = Some ((dec 5 10 + (lit 1 - dec 5 10) * s)%num,
          (dec 1 10 + (lit 0 - dec 1 10) * s)%num).
Proof.
  destruct (C6_sampler_first_reached_segment Scenario.polyline (dec 75 100))
    as [Hreached _]; [simpl; lia|reflexivity..|].
  destruct (Hreached 1%nat) as (p1 & p2 & Hp1 & Hp2 & Hsegment & _ & Hpoint);
    [simpl; lia|reflexivity| |].
  { intros k Hk. assert (k = 0%nat) as -> by lia. reflexivity. }
  cbn zeta. split; [exact Hsegment|].
  apply (inj Some) in Hp1. apply (inj Some) in Hp2. subst p1 p2.
  exact Hpoint.
Defined.

(** C6 as the specification words it fails, in binary64. On the polyline of
    the small network, whose cumulative arc length grows at every point, the
    distance travelled at progress 0.45 is not 0.45 times the total length.
    And on the path (0,0), (1,0), (1,1.5 * 2^-53), (2,1.5 * 2^-53), whose
    cumulative arc length 0, 1, 1 + 2^-52, 2 grows at every point as well, at
    the progress next above one half the walk stops in the second segment,
    the quotient [s] is 4/3, and the sample (1, 2^-52) lies beyond the end of
    that segment. *)
Lemma C6_sample_off_the_arc_length :
  let upTo (path : list (PrimFloat.float * PrimFloat.float)) k :=
    ArcLength.arcLength (take (S k) path) in
  let t : PrimFloat.float := dec 45 100 in
  let steep : list (PrimFloat.float * PrimFloat.float) :=
    [(lit 0, lit 0); (lit 1, lit 0); (lit 1, 0x1.8p-53%float); (lit 2, 0x1.8p-53%float)] in
  let half : PrimFloat.float := 0x1.0000000000001p-1%float in
  ((upTo Scenario.polyline 0%nat <? upTo Scenario.polyline 1%nat)%num = true /\
   (upTo Scenario.polyline 1%nat <? upTo Scenario.polyline 2%nat)%num = true /\
   (lit 0 <? t)%num = true /\ (t <? lit 1)%num = true /\
   ArcLength.traveled Scenario.polyline t
   <> Some (t * ArcLength.arcLength Scenario.polyline)%num) /\
  ((upTo steep 0%nat <? upTo steep 1%nat)%num = true /\
   (upTo steep 1%nat <? upTo steep 2%nat)%num = true /\
   (upTo steep 2%nat <? upTo steep 3%nat)%num = true /\
   (lit 0 <? half)%num = true /\ (half <? lit 1)%num = true /\
   ArcLength.sampledSegment steep half = 1%nat /\
   ((half * ArcLength.arcLength steep - upTo steep 1%nat)
      / TrackGeometry.distance (lit 1, lit 0) (lit 1, 0x1.8p-53%float) >? lit 1)%num = true /\
   TrackGeometry.interpolateAlongPath steep half = Some (lit 1, 0x1p-52%float) /\
   (0x1.8p-53%float <? 0x1p-52%float)%num = true).
Proof.
  cbn zeta. split.
  - repeat (split; [reflexivity|]). intros Heq.
    apply (f_equal (fun o => match o with
                             | Some d => (d =? dec 45 100
                                                * ArcLength.arcLength Scenario.polyline)%num
                             | None => true
                             end)) in Heq.
    vm_compute in Heq. discriminate.
  - repeat split; reflexivity.
Qed.
End Binary64.


Section Cut.
Context {num : Type} `{Number num} `{Infinity num}.
Local Open Scope num_scope.
Import TrackGeometry Orientation.

Abbreviation Position := (num * num)%type.

(** A path the resolver returns is cut from a polyline of the line between
    its two nearest indices, which differ and lie inside the polyline. *)
Lemma findTrackPath_cut
    (lineSegments : gmap string (list (@LineSegment num)))
    (from to : Position) (name : string) (path : list Position) :
  findTrackPath lineSegments from to name = Some path ->
  exists segs seg,
    lineSegments !! name = Some segs /\ seg ∈ segs /\
    bestSegment (selectSegment from to segs) = Some seg /\
    fromIdx (nearest from to (coordinates seg)) <> toIdx (nearest from to (coordinates seg)) /\
    (0 <= fromIdx (nearest from to (coordinates seg)) < Z.of_nat (length (coordinates seg)))%Z /\
    (0 <= toIdx (nearest from to (coordinates seg)) < Z.of_nat (length (coordinates seg)))%Z /\
    path = extractPath (coordinates seg) (fromIdx (nearest from to (coordinates seg)))
             (toIdx (nearest from to (coordinates seg))).
Proof.
  unfold findTrackPath. destruct (lineSegments !! name) as [segs|]; [|done].
  destruct (length segs =? 0)%nat; [done|].
  destruct (bestSegment (selectSegment from to segs)) as [seg|] eqn:Hbest; [|done].
  destruct (selectSegment_sound from to segs seg Hbest) as (Hin & -> & -> & _ & Hnd).
  destruct (_ || _) eqn:Hminus; [done|]. intros [= <-].
  apply orb_false_iff in Hminus as [Hi%Z.eqb_neq Hj%Z.eqb_neq].
  apply negb_true_iff, Z.eqb_neq in Hnd.
  destruct (nearest_fromIdx from to (coordinates seg)) as [[? _]|Hirange]; [done|].
  destruct (nearest_toIdx from to (coordinates seg)) as [[? _]|Hjrange]; [done|].
  by exists segs, seg.
Qed.

Lemma extractPath_ends (cs : list Position) (i j : Z) :
  (0 <= i < Z.of_nat (length cs))%Z -> (0 <= j < Z.of_nat (length cs))%Z -> i <> j ->
  head (extractPath cs i j) = cs !! Z.to_nat i /\
  last (extractPath cs i j) = cs !! Z.to_nat j.
Proof.
  intros Hi Hj Hne.
  assert (Hrun : forall a b : Z, (0 <= a)%Z -> (a < b)%Z -> (b < Z.of_nat (length cs))%Z ->
            head (slice cs a (Some (b + 1)%Z)) = cs !! Z.to_nat a /\
            last (slice cs a (Some (b + 1)%Z)) = cs !! Z.to_nat b).
  { intros a b Ha Hab Hb. split.
    - rewrite head_lookup, slice_inclusive_lookup by lia. f_equal. lia.
    - rewrite last_lookup, slice_inclusive_length by lia.
      rewrite slice_inclusive_lookup by lia. f_equal. lia. }
  destruct (Z.lt_trichotomy i j) as [Hlt|[->|Hgt]]; [|done|].
  - rewrite extractPath_forward by done. apply Hrun; lia.
  - rewrite extractPath_backward by done.
    rewrite head_reverse, last_reverse. destruct (Hrun j i) as [Hh Hl]; try lia. done.
Qed.

Lemma extractPath_subseteq (cs : list Position) (i j : Z) p :
  p ∈ extractPath cs i j -> p ∈ cs.
Proof.
  assert (Hcut : forall a b, slice cs a b `sublist_of` cs).
  { intros a b. unfold slice. etrans; [apply sublist_take|apply sublist_drop]. }
  unfold extractPath. destruct (_ >? _)%Z.
  - rewrite elem_of_reverse. intros Hp. by eapply elem_of_sublist.
  - intros Hp. by eapply elem_of_sublist.
Qed.

(** X2. A path [findTrackPath] returns, in either orientation, begins at the
    point of the chosen polyline that the scan found nearest to [from] and
    ends at the point it found nearest to [to], whichever of the two comes
    first in the polyline; the two distances the scan holds are the distances
    of these two points; and every point of the path is a point of that
    polyline. *)
Theorem X2_path_ends_at_nearest_points
    (lineSegments : gmap string (list (@LineSegment num)))
    (from to : Position) (name : string) (path : list Position) :
  findTrackPath lineSegments from to name = Some path ->
  exists segs seg first final,
    lineSegments !! name = Some segs /\ seg ∈ segs /\
    coordinates seg !! Z.to_nat (fromIdx (nearest from to (coordinates seg))) = Some first /\
    coordinates seg !! Z.to_nat (toIdx (nearest from to (coordinates seg))) = Some final /\
    head path = Some first /\ last path = Some final /\
    fromDist (nearest from to (coordinates seg)) = distance first from /\
    toDist (nearest from to (coordinates seg)) = distance final to /\
    (forall p, p ∈ path -> p ∈ coordinates seg).
Proof.
  intros Hpath.
  destruct (findTrackPath_cut _ _ _ _ _ Hpath)
    as (segs & seg & Hsegs & Hseg & _ & Hne & Hi & Hj & ->).
  destruct (nearest_fromDist from to (coordinates seg)) as (first & Hfirst & Hdf); [lia|].
  destruct (nearest_toDist from to (coordinates seg)) as (final & Hfinal & Hdt); [lia|].
  destruct (extractPath_ends (coordinates seg) _ _ Hi Hj Hne) as [Hhead Hlast].
  exists segs, seg, first, final. split; [done|]. split; [done|].
  split; [done|]. split; [done|].
  split; [by rewrite Hhead|]. split; [by rewrite Hlast|].
  split; [done|]. split; [done|].
  intros p. apply extractPath_subseteq.
Qed.
End Cut.

Section Swap.
Context {num : Type} `{NumberLaws num}.
Local Open Scope num_scope.
Import TrackGeometry Orientation.

(** X3. Under the order laws, which binary64 has: for any two ends and any
    line, [findTrackPath] called with the two ends exchanged returns [null]
    when the call with the ends in order does, and otherwise the same path
    reversed. *)
Theorem X3_swapped_ends_reverse_path
    (lineSegments : gmap string (list (@LineSegment num)))
    (from to : num * num) (name : string) :
  findTrackPath lineSegments to from name
  = reverse <$> findTrackPath lineSegments from to name.
Proof.
  unfold findTrackPath. destruct (lineSegments !! name) as [segs|]; [|done].
  destruct (length segs =? 0)%nat; [done|].
  rewrite selectSegment_swap. cbn [swapBest bestSegment bestFromIdx bestToIdx].
  destruct (bestSegment (selectSegment from to segs)) as [seg|] eqn:Hbest; [|done].
  rewrite (orb_comm (bestToIdx _ =? -1)%Z).
  destruct (_ || _); [done|]. simpl. f_equal.
  destruct (selectSegment_sound from to segs seg Hbest) as (_ & -> & -> & _ & Hnd).
  apply negb_true_iff, Z.eqb_neq in Hnd.
  set (i := fromIdx (nearest from to (coordinates seg))) in *.
  set (j := toIdx (nearest from to (coordinates seg))) in *.
  destruct (Z.lt_trichotomy i j) as [Hlt|[?|Hgt]]; [|done|].
  - by rewrite (extractPath_backward _ i j), (extractPath_forward _ i j).
  - rewrite (extractPath_backward _ j i), (extractPath_forward _ j i) by done.
    by rewrite reverse_involutive.
Qed.
End Swap.

Section Batch.
Context {num : Type} `{Number num} `{Infinity num}.
Context (lineSegments : gmap string (list (@TrackGeometry.LineSegment num))).
Context (getStationCoordinates : string -> option (num * num)%type).

Abbreviation TrainState := (@TrainPositions.TrainState num).
Abbreviation updateTrain := (TrainPositions.updateTrain lineSegments getStationCoordinates).
Abbreviation ingest := (TrainPositions.ingest lineSegments getStationCoordinates).

Lemma updateTrain_is_Some now (st : gmap string TrainState) t k :
  is_Some (updateTrain now st t !! k) <->
  is_Some (st !! k) \/
  (TrainTypes.id t = k /\ is_Some (getStationCoordinates (TrainTypes.currentStation t))).
Proof.
  destruct (decide (TrainTypes.id t = k)) as [<-|Hne].
  - unfold TrainPositions.updateTrain.
    destruct (getStationCoordinates _) as [coords|].
    + split; [intros _; right; split; [done|by eexists]|]. intros _.
      destruct (st !! TrainTypes.id t) as [existing|].
      * destruct (TrainPositions.posChanged coords existing);
          rewrite lookup_insert_eq; by eexists.
      * rewrite lookup_insert_eq. by eexists.
    + split; [by left|]. intros [Hs|[_ Hs]]; [done|]. by destruct Hs.
  - rewrite updateTrain_other by done. split; [by left|].
    intros [Hs|[Heq _]]; done.
Qed.

Lemma foldl_updateTrain_is_Some now trains (st : gmap string TrainState) k :
  is_Some (foldl (updateTrain now) st trains !! k) <->
  is_Some (st !! k) \/
  exists t, t ∈ trains /\ TrainTypes.id t = k /\
            is_Some (getStationCoordinates (TrainTypes.currentStation t)).
Proof.
  revert st. induction trains as [|t trains IH]; intros st.
  - simpl. split; [by left|]. intros [Hs|(t & Ht & _)]; [done|].
    by apply elem_of_nil in Ht.
  - simpl. rewrite IH, updateTrain_is_Some. split.
    + intros [[Hs|[Hid Hres]]|(t' & Ht' & Hid & Hres)].
      * by left.
      * right. exists t. split; [left|done].
      * right. exists t'. split; [by right|done].
    + intros [Hs|(t' & Ht' & Hid & Hres)].
      * left. by left.
      * apply elem_of_cons in Ht' as [->|Ht'].
        -- left. by right.
        -- right. by exists t'.
Qed.

(** X6. After a batch has been taken in, the store holds a record under an id
    exactly when a train of the batch has this id and either the store held
    a record under it before or the station of a train of the batch with this
    id resolves. The batch is any array of trains. *)
Theorem X6_ids_after_arrival now trains (st : gmap string TrainState) k :
  is_Some (ingest now (Some trains) st !! k) <->
  k ∈ TrainTypes.id <$> trains /\
  (is_Some (st !! k) \/
   exists t, t ∈ trains /\ TrainTypes.id t = k /\
             is_Some (getStationCoordinates (TrainTypes.currentStation t))).
Proof.
  simpl. rewrite removeStale_lookup. destruct (decide _) as [Hin|Hout].
  - rewrite foldl_updateTrain_is_Some. tauto.
  - split; [by intros []|]. by intros [? _].
Qed.

(** X7. A train of a batch with distinct ids whose station resolves and which
    has no record yet gets this one: no previous keyframe, the resolved
    coordinate stamped [now] as current keyframe, a trail of that one point,
    no path, the coordinate as last rendered position, and velocity zero. *)
Theorem X7_first_sighting now (st : gmap string TrainState) t coords trains :
  getStationCoordinates (TrainTypes.currentStation t) = Some coords ->
  st !! TrainTypes.id t = None ->
  NoDup (TrainTypes.id <$> trains) -> t ∈ trains ->
  ingest now (Some trains) st !! TrainTypes.id t
  = Some {| TrainPositions.previous := None;
            TrainPositions.current :=
              {| TrainPositions.position := coords; TrainPositions.timestamp := now |};
            TrainPositions.train := t;
            TrainPositions.trail := [coords];
            TrainPositions.trackPath := None;
            TrainPositions.lastInterpolatedPosition := Some coords;
            TrainPositions.velocity := (lit 0, lit 0) |}.
Proof.
  intros Hcoords Hnew Hnd Hin. rewrite ingest_lookup_unique by done.
  unfold TrainPositions.updateTrain. rewrite Hcoords, Hnew. by rewrite lookup_insert_eq.
Qed.

(** X8. A train of a batch with distinct ids that is reported where its record
    stands already (both coordinates [===] those of the current keyframe)
    keeps its record but for the train data: the keyframes and their time
    stamps, the trail, the path, the last rendered position and the velocity
    stay, so that the transition under way is not started again. *)
Theorem X8_same_station_report now (st : gmap string TrainState) t coords existing trains :
  getStationCoordinates (TrainTypes.currentStation t) = Some coords ->
  st !! TrainTypes.id t = Some existing ->
  TrainPositions.posChanged coords existing = false ->
  NoDup (TrainTypes.id <$> trains) -> t ∈ trains ->
  ingest now (Some trains) st !! TrainTypes.id t = Some (Records.withTrain t existing).
Proof.
  intros Hcoords Hex Hsame Hnd Hin. rewrite ingest_lookup_unique by done.
  unfold TrainPositions.updateTrain. rewrite Hcoords, Hex, Hsame.
  by rewrite lookup_insert_eq.
Qed.

Lemma updateTrain_settled now later (st st1 : gmap string TrainState) t c r :
  getStationCoordinates (TrainTypes.currentStation t) = Some c ->
  (c.1 =? c.1)%num = true -> (c.2 =? c.2)%num = true ->
  updateTrain now st t !! TrainTypes.id t = Some r ->
  st1 !! TrainTypes.id t = Some r ->
  updateTrain later st1 t !! TrainTypes.id t = Some r.
Proof.
  intros Hc H1 H2 Hfirst Hst1. unfold TrainPositions.updateTrain in *.
  rewrite Hc in *. rewrite Hst1.
  assert (Hr : TrainPositions.posChanged c r = false /\ Records.withTrain t r = r).
  { destruct (st !! TrainTypes.id t) as [existing|].
    - destruct (TrainPositions.posChanged c existing) eqn:Hch;
        rewrite lookup_insert_eq in Hfirst; injection Hfirst as <-.
      + split; [|done]. unfold TrainPositions.posChanged. simpl. by rewrite H1, H2.
      + split; [|done]. exact Hch.
    - rewrite lookup_insert_eq in Hfirst. injection Hfirst as <-.
      split; [|done]. unfold TrainPositions.posChanged. simpl. by rewrite H1, H2. }
  destruct Hr as [-> Hr]. rewrite lookup_insert_eq. f_equal. exact Hr.
Qed.

(** X9. Taking in the same batch a second time, at any time, leaves the store
    exactly as the first time left it, provided the ids of the batch are
    distinct and no resolved coordinate is NaN (a coordinate has to be [===]
    itself). *)
Theorem X9_arrival_idempotent now later trains (st : gmap string TrainState) :
  NoDup (TrainTypes.id <$> trains) ->
  (forall t c, t ∈ trains ->
     getStationCoordinates (TrainTypes.currentStation t) = Some c ->
     (c.1 =? c.1)%num = true /\ (c.2 =? c.2)%num = true) ->
  ingest later (Some trains) (ingest now (Some trains) st) = ingest now (Some trains) st.
Proof.
  intros Hnd Hnum. apply map_eq. intros k.
  destruct (decide (k ∈ TrainTypes.id <$> trains)) as [Hin|Hout].
  2: { by rewrite !ingest_absent. }
  apply list_elem_of_fmap in Hin as (t & -> & Hin).
  rewrite (ingest_lookup_unique _ _ later) by done.
  pose proof (ingest_lookup_unique lineSegments getStationCoordinates now trains st t Hnd Hin)
    as Hfirst.
  destruct (getStationCoordinates (TrainTypes.currentStation t)) as [c|] eqn:Hc.
  - destruct (Hnum t c Hin Hc) as [H1 H2].
    destruct (ingest now (Some trains) st !! TrainTypes.id t) as [r|] eqn:Hr.
    + eapply updateTrain_settled; [exact Hc|exact H1|exact H2| |exact Hr].
      symmetry. exact Hfirst.
    + exfalso. symmetry in Hfirst.
      assert (Hs : is_Some (updateTrain now st t !! TrainTypes.id t)).
      { apply updateTrain_is_Some. right. split; [done|]. rewrite Hc. by eexists. }
      rewrite Hfirst in Hs. by destruct Hs.
  - by rewrite updateTrain_unresolved.
Qed.
End Batch.

Section Frames.
Context {num : Type} `{Number num} `{Infinity num}.
Context (lineSegments : gmap string (list (@TrackGeometry.LineSegment num))).
Context (getStationCoordinates : string -> option (num * num)).
Context (calculateHeading : num * num -> num * num -> num).
Local Open Scope num_scope.

Import TrainPositions Records.

Abbreviation Position := (num * num)%type.
Abbreviation TrainState := (@TrainPositions.TrainState num).
Abbreviation World := (@TrainPositions.World num).
Abbreviation animateState := (TrainPositions.animateState calculateHeading).
Abbreviation animate := (TrainPositions.animate calculateHeading).
Abbreviation reachable :=
  (TrainPositions.reachable lineSegments getStationCoordinates calculateHeading).

(** A frame leaves the keyframes, the train data and the path of a record
    as they are, and pushes the train data with the position it renders. *)
Lemma animateState_keeps now deltaTime (s s' : TrainState) out :
  animateState now deltaTime s = Some (s', out) ->
  current s' = current s /\ previous s' = previous s /\ train s' = train s /\
  trackPath s' = trackPath s /\ TrainTypes.train_of out = train s.
Proof.
  unfold TrainPositions.animateState. destruct (previous s) as [prev|] eqn:Hprev.
  - cbn zeta.
    destruct (match trackPath s with Some _ => _ | None => _ end) as [[target hd]|];
      [|done].
    cbn [mbind option_bind]. destruct (last (trail s)) as [lastTrailPos|]; [|done].
    cbn [mbind option_bind]. by intros [= <- <-].
  - by intros [= <- <-].
Qed.

(** The frame of a record without a previous keyframe. *)
Lemma animateState_standing now deltaTime (s : TrainState) :
  previous s = None ->
  animateState now deltaTime s
  = Some ({| current := current s; previous := None; train := train s;
             trail := trail s; trackPath := trackPath s;
             lastInterpolatedPosition := Some (position (current s));
             velocity := (lit 0, lit 0) |},
          {| TrainTypes.train_of := train s;
             TrainTypes.position := position (current s);
             TrainTypes.heading := lit 0 |}).
Proof. intros Hprev. unfold TrainPositions.animateState. by rewrite Hprev. Qed.

Lemma animate_frames now (w w' : World) out k :
  animate now w = Some (w', out) ->
  lastFrameTime w' = now /\
  match trainStates w !! k with
  | None => trainStates w' !! k = None /\ out !! k = None
  | Some s =>
    exists s' o,
      animateState now (num_min ((now - lastFrameTime w) / lit 1000) (dec 1 10)) s
        = Some (s', o) /\
      trainStates w' !! k = Some s' /\ out !! k = Some o
  end.
Proof.
  unfold TrainPositions.animate. destruct (decide _) as [Hall|]; [|done].
  intros [= <- <-]. split; [done|]. cbn [trainStates].
  rewrite !lookup_omap, !lookup_fmap.
  destruct (trainStates w !! k) as [s|] eqn:Hs; [|done]. simpl.
  destruct (Hall k (TrainPositions.animateState calculateHeading now
              (num_min ((now - lastFrameTime w) / lit 1000) (dec 1 10)) s))
    as [[s' o] Hframe].
  { by rewrite lookup_fmap, Hs. }
  rewrite Hframe. by exists s', o.
Qed.

(** X10. A frame that goes through stamps [lastFrameTime] with [now], adds and
    removes no record, and pushes exactly one position per record, under the
    id of the record; of each record it keeps both keyframes, the train data
    and the path; it hands on the train data with the position, and stores
    the position it pushed as the last rendered position. *)
Theorem X10_frame_keeps_trains now (w w' : World) out :
  animate now w = Some (w', out) ->
  lastFrameTime w' = now /\
  forall k,
    match trainStates w !! k with
    | None => trainStates w' !! k = None /\ out !! k = None
    | Some s =>
      exists s' o,
        trainStates w' !! k = Some s' /\ out !! k = Some o /\
        current s' = current s /\ previous s' = previous s /\ train s' = train s /\
        trackPath s' = trackPath s /\
        TrainTypes.train_of o = train s /\
        lastInterpolatedPosition s' = Some (TrainTypes.position o)
    end.
Proof.
  intros Hframe. split; [by destruct (animate_frames _ _ _ _ "" Hframe)|].
  intros k. destruct (animate_frames _ _ _ _ k Hframe) as [_ Hk].
  destruct (trainStates w !! k) as [s|]; [|done].
  destruct Hk as (s' & o & Hs & Hs' & Ho). exists s', o.
  destruct (animateState_keeps _ _ _ _ _ Hs) as (? & ? & ? & ? & ?).
  destruct (animateState_trail _ _ _ _ _ _ Hs) as [? _].
  done.
Qed.

Lemma updateTrain_recordSound now (st : gmap string TrainState) t :
  map_Forall recordSound st ->
  map_Forall recordSound
    (TrainPositions.updateTrain lineSegments getStationCoordinates now st t).
Proof.
  intros Hok. unfold TrainPositions.updateTrain.
  destruct (getStationCoordinates _) as [coords|]; [|done].
  destruct (st !! TrainTypes.id t) as [existing|] eqn:Hex.
  - pose proof (map_Forall_lookup_1 _ _ _ _ Hok Hex) as (Hid & Hpath & Hnew).
    destruct (posChanged coords existing); apply map_Forall_insert_2; try done.
    split; [done|]. split; [|done]. cbn [trackPath previous]. intros path Hfound.
    split; [|by eexists].
    destruct (findTrackPath_cut _ _ _ _ _ Hfound)
      as (segs & seg & _ & _ & _ & Hne & Hi & Hj & ->).
    rewrite extractPath_length by done. lia.
  - apply map_Forall_insert_2; [|done]. split; [done|]. split; [done|]. done.
Qed.

Lemma ingest_recordSound now trains (st : gmap string TrainState) :
  map_Forall recordSound st ->
  map_Forall recordSound
    (TrainPositions.ingest lineSegments getStationCoordinates now trains st).
Proof.
  intros Hok. destruct trains as [trains|]; [|done]. simpl.
  assert (Hfold : map_Forall recordSound
            (foldl (TrainPositions.updateTrain lineSegments getStationCoordinates now)
                   st trains)).
  { revert st Hok. induction trains as [|t trains IH]; intros st Hok; [done|].
    simpl. apply IH. by apply updateTrain_recordSound. }
  intros k s Hk. unfold removeStale in Hk.
  apply map_lookup_filter_Some in Hk as [Hk _]. by apply (Hfold k).
Qed.

Lemma animateState_recordSound now deltaTime k (s s' : TrainState) out :
  animateState now deltaTime s = Some (s', out) -> recordSound k s -> recordSound k s'.
Proof.
  intros Hframe (Hid & Hpath & Hnew).
  destruct (animateState_keeps _ _ _ _ _ Hframe) as (Hc & Hp & Ht & Htp & _).
  destruct (previous s) as [prev|] eqn:Hprev.
  - split; [by rewrite Ht|]. split; [|by rewrite Hp].
    intros path. rewrite Htp, Hp. apply Hpath.
  - rewrite animateState_standing in Hframe by done. injection Hframe as <- _.
    destruct (Hnew eq_refl) as (Htrail & _ & _).
    split; [done|]. split; [|done]. cbn [trackPath previous]. intros path Hsome.
    by destruct (Hpath path Hsome) as [_ []].
Qed.

Lemma reachable_recordSound (w : World) :
  reachable w -> map_Forall recordSound (trainStates w).
Proof.
  induction 1 as [t0|w now trains _ IH|w now w' out _ IH Hframe].
  - apply map_Forall_empty.
  - by apply ingest_recordSound.
  - intros k s' Hk.
    destruct (animate_lookup _ _ _ _ _ _ _ Hframe Hk) as (s & o & Hs & Hs').
    eapply animateState_recordSound; [exact Hs'|]. by apply (IH k).
Qed.

(** X11. In every world the hook reaches, a record stands under the id of its
    train; a path a record holds has two points or more (the test
    [trackPath.length >= 2] of the frame holds for it) and comes with a
    previous keyframe; and a record without a previous keyframe is as it was
    created: no path, a trail of its one position, that position as the last
    rendered one, velocity zero. *)
Theorem X11_reachable_records (w : World) k (s : TrainState) :
  reachable w -> trainStates w !! k = Some s ->
  TrainTypes.id (train s) = k /\
  (forall path, trackPath s = Some path ->
     (2 <=? length path)%nat = true /\ is_Some (previous s)) /\
  (previous s = None ->
     trackPath s = None /\ trail s = [position (current s)] /\
     lastInterpolatedPosition s = Some (position (current s)) /\
     velocity s = (lit 0, lit 0)).
Proof.
  intros Hw Hk. destruct (reachable_recordSound w Hw k s Hk) as (Hid & Hpath & Hnew).
  split; [done|]. split.
  - intros path Hsome. destruct (Hpath path Hsome) as [Hlen Hprev].
    split; [by apply Nat.leb_le|done].
  - intros Hprev. destruct (Hnew Hprev) as (? & ? & ?). split; [|done].
    destruct (trackPath s) as [path|] eqn:Hsome; [|done].
    destruct (Hpath path eq_refl) as [_ [prev Hsome']]. congruence.
Qed.

(** X12. In a world the hook reaches, a frame draws a train without a previous
    keyframe (one that has been reported at one position only) exactly at its
    current keyframe, with heading 0, and [getTrails] has no trail for it
    after the frame. *)
Theorem X12_standing_train now (w w' : World) out k (s : TrainState) :
  reachable w -> trainStates w !! k = Some s -> previous s = None ->
  animate now w = Some (w', out) ->
  out !! k = Some {| TrainTypes.train_of := train s;
                     TrainTypes.position := position (current s);
                     TrainTypes.heading := lit 0 |} /\
  getTrails w' !! k = None.
Proof.
  intros Hw Hk Hprev Hframe.
  destruct (animate_frames _ _ _ _ k Hframe) as [_ Hout]. rewrite Hk in Hout.
  destruct Hout as (s' & o & Hs & Hs' & Ho).
  rewrite animateState_standing in Hs by done. injection Hs as <- <-.
  split; [done|]. unfold getTrails. rewrite lookup_fmap.
  destruct (reachable_recordSound w Hw k s Hk) as (_ & _ & Hnew).
  destruct (Hnew Hprev) as (Htrail & _).
  rewrite (proj2 (map_lookup_filter_None _ _ _)); [done|].
  right. intros s'' Hs''. rewrite Hs' in Hs''. injection Hs'' as <-.
  simpl. rewrite Htrail. simpl. lia.
Qed.

(** X13. In a world the hook reaches, a trail [getTrails] returns is the trail
    of the record under that id, has between 3 and 20 points, and belongs to
    a train whose id is that id and which has a previous keyframe (it has
    been reported at a second position). *)
Theorem X13_trails_drawn (w : World) k (coordinates : list Position) :
  reachable w -> getTrails w !! k = Some coordinates ->
  exists s, trainStates w !! k = Some s /\ coordinates = trail s /\
    (3 <= length coordinates <= 20)%nat /\
    TrainTypes.id (train s) = k /\ is_Some (previous s).
Proof.
  intros Hw. unfold getTrails. rewrite lookup_fmap.
  destruct (filter _ (trainStates w) !! k) as [s|] eqn:Hs; [|done].
  apply map_lookup_filter_Some in Hs as [Hs Hlong]. simpl in Hlong.
  intros [= <-]. exists s. split; [done|]. split; [done|].
  destruct (reachable_recordOk _ _ _ w Hw k s Hs) as [Hbound _].
  destruct (reachable_recordSound w Hw k s Hs) as (Hid & _ & Hnew).
  split; [simpl in Hbound; lia|]. split; [done|].
  destruct (previous s) as [prev|]; [by eexists|].
  destruct (Hnew eq_refl) as (Htrail & _). rewrite Htrail in Hlong. simpl in Hlong. lia.
Qed.
End Frames.


(* ================================================================== *)
(** * Maps in insertion order *)
Section JsMaps.
Context {V : Type}.
Implicit Types m : list (string * V).

Lemma set_fresh m key v : key ∉ m.*1 -> Js.set key v m = m ++ [(key, v)].
Proof.
  induction m as [|[k w] m IH]; intros Hkey; [done|].
  simpl in *. apply not_elem_of_cons in Hkey as [Hne Hkey].
  destruct (String.eqb_spec k key); [congruence|]. by rewrite IH.
Qed.

Lemma set_keys m key v :
  (Js.set key v m).*1 = if decide (key ∈ m.*1) then m.*1 else m.*1 ++ [key].
Proof.
  induction m as [|[k w] m IH]; [done|]. cbn [Js.set].
  destruct (String.eqb_spec k key) as [->|Hne].
  - rewrite !fmap_cons. rewrite decide_True by left. done.
  - rewrite !fmap_cons, IH. cbn [fst]. destruct (decide (key ∈ m.*1)) as [Hin|Hout].
    + rewrite decide_True by (by right). done.
    + rewrite decide_False; [done|]. by intros [?|?]%elem_of_cons.
Qed.

Lemma set_NoDup m key v : NoDup m.*1 -> NoDup (Js.set key v m).*1.
Proof.
  intros Hnd. rewrite set_keys. destruct (decide _); [done|].
  apply NoDup_app. split; [done|]. split; [|apply NoDup_singleton].
  intros k Hk ->%list_elem_of_singleton. done.
Qed.

Lemma get_set m key v k :
  Js.get k (Js.set key v m) = if decide (k = key) then Some v else Js.get k m.
Proof.
  induction m as [|[k' w] m IH]; simpl.
  - destruct (String.eqb_spec key k), (decide (k = key)); congruence.
  - destruct (String.eqb_spec k' key) as [->|Hne]; simpl.
    + destruct (String.eqb_spec key k), (decide (k = key)); congruence.
    + destruct (String.eqb_spec k' k) as [->|Hne'].
      * by rewrite decide_False.
      * exact IH.
Qed.

Lemma get_Some m k v : NoDup m.*1 -> Js.get k m = Some v <-> (k, v) ∈ m.
Proof.
  induction m as [|[k' w] m IH]; intros Hnd; simpl.
  - split; [done|]. by intros ?%elem_of_nil.
  - simpl in Hnd. apply NoDup_cons in Hnd as [Hk' Hnd].
    destruct (String.eqb_spec k' k) as [->|Hne].
    + split.
      * intros [= ->]. left.
      * intros [[= ->]|Hin]%elem_of_cons; [done|].
        exfalso. apply Hk'. by apply (list_elem_of_fmap_2 fst) in Hin.
    + rewrite IH by done. split; [by right|].
      intros [[= -> ->]|Hin]%elem_of_cons; done.
Qed.

Lemma get_elem_of m k v : Js.get k m = Some v -> (k, v) ∈ m.
Proof.
  induction m as [|[k' w] m IH]; simpl; [done|].
  destruct (String.eqb_spec k' k) as [->|Hne].
  - intros [= ->]. left.
  - intros Hget. right. by apply IH.
Qed.

Lemma get_None m k : Js.get k m = None <-> k ∉ m.*1.
Proof.
  induction m as [|[k' w] m IH]; simpl.
  - split; [intros _; apply not_elem_of_nil|done].
  - destruct (String.eqb_spec k' k) as [->|Hne].
    + split; [done|]. intros Hk. exfalso. apply Hk. left.
    + rewrite IH, not_elem_of_cons. split; [by split|by intros [_ ?]].
Qed.

(** What [new Map(entries)] holds under a key: the value of the last entry
    with that key. *)
Lemma foldl_set_get (entries m : list (string * V)) k :
  Js.get k (foldl (fun m entry => Js.set entry.1 entry.2 m) m entries)
  = match last (filter (fun entry => entry.1 = k) entries) with
    | Some entry => Some entry.2
    | None => Js.get k m
    end.
Proof.
  revert m. induction entries as [|[k' v'] entries IH]; intros m; [done|].
  simpl. rewrite IH, get_set. rewrite filter_cons. simpl.
  destruct (decide (k' = k)) as [->|Hne].
  - rewrite decide_True by done.
    destruct (filter _ entries) as [|e l] eqn:Hrest; [done|].
    change (last ((k, v') :: e :: l)) with (last (e :: l)).
    destruct (last (e :: l)) eqn:Hlast; [done|]. by apply last_None in Hlast.
  - rewrite decide_False by done. done.
Qed.

Lemma foldl_set_keys (entries m : list (string * V)) :
  NoDup m.*1 ->
  NoDup (foldl (fun m entry => Js.set entry.1 entry.2 m) m entries).*1 /\
  forall k, k ∈ (foldl (fun m entry => Js.set entry.1 entry.2 m) m entries).*1
            <-> k ∈ m.*1 \/ k ∈ entries.*1.
Proof.
  revert m. induction entries as [|[k' v'] entries IH]; intros m Hnd.
  - simpl. split; [done|]. intros k. rewrite elem_of_nil. tauto.
  - simpl. destruct (IH (Js.set k' v' m)) as [Hnd' Hkeys]; [by apply set_NoDup|].
    split; [done|]. intros k. rewrite Hkeys, set_keys, elem_of_cons.
    destruct (decide (k' ∈ m.*1)).
    + split; [tauto|]. intros [?|[->|?]]; tauto.
    + rewrite elem_of_app, list_elem_of_singleton. tauto.
Qed.

Lemma mapOf_NoDup (entries : list (string * V)) : NoDup (Js.mapOf entries).*1.
Proof. apply foldl_set_keys. apply NoDup_nil_2. Qed.

Lemma mapOf_distinct (entries : list (string * V)) :
  NoDup entries.*1 -> Js.mapOf entries = entries.
Proof.
  unfold Js.mapOf. induction entries as [|[k v] entries IH] using rev_ind; [done|].
  rewrite fmap_app, foldl_app. simpl. intros Hnd.
  apply NoDup_app in Hnd as (Hnd & Hk & _). rewrite IH by done.
  apply set_fresh. intros Hin. apply (Hk k Hin). by left.
Qed.
End JsMaps.

(* ================================================================== *)
(** * The feed: api/trains.ts *)
Section Lists.
Context {A : Type}.

(** The last element of a list with a property. *)
Lemma last_filter_Some (P : A -> Prop) `{!forall x, Decision (P x)} (l : list A) (x : A) :
  last (filter P l) = Some x <->
  exists l1 l2, l = l1 ++ x :: l2 /\ P x /\ Forall (fun y => ~ P y) l2.
Proof.
  induction l as [|y l IH] using rev_ind.
  - split; [done|]. intros (l1 & l2 & Hl & _). by destruct l1.
  - rewrite filter_app, filter_cons, filter_nil. destruct (decide (P y)) as [Hy|Hy].
    + rewrite last_snoc. split.
      * intros [= ->]. exists l, []. by repeat split.
      * intros (l1 & l2 & Hl & Hx & Hl2).
        destruct l2 as [|z l2 _] using rev_ind.
        -- apply app_inj_tail in Hl as [_ ->]. done.
        -- rewrite app_comm_cons, app_assoc in Hl. apply app_inj_tail in Hl as [_ ->].
           apply Forall_app in Hl2 as [_ Hz]. rewrite Forall_singleton in Hz. done.
    + rewrite app_nil_r, IH. split.
      * intros (l1 & l2 & -> & Hx & Hl2). exists l1, (l2 ++ [y]).
        split; [by rewrite <- app_assoc|]. split; [done|].
        apply Forall_app. split; [done|]. by apply Forall_singleton.
      * intros (l1 & l2 & Hl & Hx & Hl2).
        destruct l2 as [|z l2 _] using rev_ind.
        -- apply app_inj_tail in Hl as [_ ->]. done.
        -- rewrite app_comm_cons, app_assoc in Hl. apply app_inj_tail in Hl as [-> ->].
           apply Forall_app in Hl2 as [Hl2 _]. by exists l1, l2.
Qed.
End Lists.

Section Feed.
Context {num : Type} `{Number num}.
Local Open Scope num_scope.
Import Api.

Abbreviation Train := (TrainTypes.Train num).
Abbreviation Arrival := (@Api.TflArrival num).

(** The loop of [fetchLineData], from any state it can be in. *)
Lemma foldl_arrivalStep (line : string) (arrivals : list Arrival) :
  forall (trains : list Train) (seenVehicles : gset string),
  exists kept,
    (foldl (arrivalStep line) (trains, seenVehicles) arrivals).1
      = trains ++ (trainOfArrival line <$> kept) /\
    kept `sublist_of` arrivals /\
    NoDup (vehicleId <$> kept) /\
    forall a, a ∈ kept <->
      exists l1 l2, arrivals = l1 ++ a :: l2 /\
        (vehicleId a ∉ seenVehicles) /\ (vehicleId a ∉ vehicleId <$> l1) /\
        (timeToStation a >? lit 300) = false.
Proof.
  induction arrivals as [|a arrivals IH]; intros trains seen.
  { exists []. simpl. rewrite app_nil_r. split; [done|]. split; [done|].
    split; [apply NoDup_nil_2|]. intros x. split; [by intros ?%elem_of_nil|].
    intros (l1 & l2 & Hl & _). by destruct l1. }
  cbn [foldl]. unfold arrivalStep at 2.
  destruct (decide (vehicleId a ∈ seen)) as [Hseen|Hnew].
  - destruct (IH trains seen) as (kept & Hout & Hsub & Hnd & Hkept).
    exists kept. split; [done|]. split; [by apply sublist_cons|]. split; [done|].
    intros x. rewrite Hkept. split.
    + intros (l1 & l2 & -> & Hx & Hl1 & Hnear). exists (a :: l1), l2.
      split; [done|]. split; [done|]. split; [|done].
      rewrite fmap_cons, not_elem_of_cons. split; [congruence|done].
    + intros (l1 & l2 & Hl & Hx & Hl1 & Hnear). destruct l1 as [|b l1].
      * injection Hl as -> ->. done.
      * injection Hl as -> ->. rewrite fmap_cons, not_elem_of_cons in Hl1.
        exists l1, l2. by destruct Hl1.
  - destruct (timeToStation a >? lit 300) eqn:Hfar.
    + destruct (IH trains (seen ∪ {[vehicleId a]})) as (kept & Hout & Hsub & Hnd & Hkept).
      exists kept. split; [done|]. split; [by apply sublist_cons|]. split; [done|].
      intros x. rewrite Hkept. split.
      * intros (l1 & l2 & -> & Hx & Hl1 & Hnear). exists (a :: l1), l2.
        rewrite not_elem_of_union, not_elem_of_singleton in Hx. destruct Hx as [Hx Hxa].
        split; [done|]. split; [done|]. split; [|done].
        rewrite fmap_cons, not_elem_of_cons. done.
      * intros (l1 & l2 & Hl & Hx & Hl1 & Hnear). destruct l1 as [|b l1].
        -- injection Hl as -> ->. congruence.
        -- injection Hl as -> ->. rewrite fmap_cons, not_elem_of_cons in Hl1.
           exists l1, l2. split; [done|].
           rewrite not_elem_of_union, not_elem_of_singleton. by destruct Hl1.
    + destruct (IH (trains ++ [trainOfArrival line a]) (seen ∪ {[vehicleId a]}))
        as (kept & Hout & Hsub & Hnd & Hkept).
      exists (a :: kept). split; [by rewrite Hout, <- app_assoc|].
      split; [by apply sublist_skip|]. split.
      { rewrite fmap_cons. apply NoDup_cons. split; [|done].
        intros (x & Hxa & Hx)%list_elem_of_fmap. apply Hkept in Hx
          as (_ & _ & _ & Hx & _). apply Hx. rewrite Hxa.
        apply elem_of_union. right. by apply elem_of_singleton. }
      intros x. rewrite elem_of_cons, Hkept. split.
      * intros [->|(l1 & l2 & -> & Hx & Hl1 & Hnear)].
        -- exists [], arrivals. split; [done|]. split; [done|]. split; [|done].
           apply not_elem_of_nil.
        -- exists (a :: l1), l2.
           rewrite not_elem_of_union, not_elem_of_singleton in Hx. destruct Hx as [Hx Hxa].
           split; [done|]. split; [done|]. split; [|done].
           rewrite fmap_cons, not_elem_of_cons. done.
      * intros (l1 & l2 & Hl & Hx & Hl1 & Hnear). destruct l1 as [|b l1].
        -- injection Hl as -> ->. by left.
        -- injection Hl as -> ->. rewrite fmap_cons, not_elem_of_cons in Hl1.
           right. exists l1, l2. split; [done|].
           rewrite not_elem_of_union, not_elem_of_singleton. by destruct Hl1.
Qed.

(** X21. [fetchLineData] on an array of arrivals returns one train per arrival
    it keeps, in the order of the array; the arrivals it keeps are those that
    are the first of the array for their vehicle and are not more than 300 s
    away. So the vehicles of the trains are distinct; and a vehicle whose
    first listed arrival is more than 300 s away is left out, whatever
    arrivals are listed for it further on. *)
Theorem X21_first_listed_arrival (line : string) (arrivals : list Arrival) :
  exists kept,
    fetchLineData line (Some arrivals) = trainOfArrival line <$> kept /\
    kept `sublist_of` arrivals /\
    NoDup (vehicleId <$> kept) /\
    forall a, a ∈ kept <->
      exists l1 l2, arrivals = l1 ++ a :: l2 /\
        (vehicleId a ∉ vehicleId <$> l1) /\
        (timeToStation a >? lit 300) = false.
Proof.
  destruct (foldl_arrivalStep line arrivals [] ∅) as (kept & Hout & Hsub & Hnd & Hkept).
  exists kept. split; [exact Hout|]. split; [done|]. split; [done|].
  intros a. rewrite Hkept. split.
  - intros (l1 & l2 & ? & _ & ? & ?). by exists l1, l2.
  - intros (l1 & l2 & ? & ? & ?). exists l1, l2. split; [done|].
    split; [apply not_elem_of_empty|done].
Qed.

(** The trains of one line have ids of their own. *)
Lemma fetchLineData_ids (line : string) response :
  NoDup (TrainTypes.id <$> fetchLineData line response) /\
  forall t, t ∈ fetchLineData line response ->
    TrainTypes.id t = line +:+ "-" +:+ TrainTypes.vehicleId t /\
    TrainTypes.lineId t = line /\
    (TrainTypes.timeToStation t >? lit 300) = false /\
    forall name, Js.get line LINE_DISPLAY_NAMES = Some name -> TrainTypes.lineName t = name.
Proof.
  destruct response as [arrivals|].
  2: { split; [apply NoDup_nil_2|]. by intros t ?%elem_of_nil. }
  destruct (foldl_arrivalStep line arrivals [] ∅) as (kept & Hout & _ & Hnd & Hkept).
  cbn [fetchLineData]. unfold trainsOfArrivals. rewrite Hout. cbn [app]. split.
  - replace (TrainTypes.id <$> (trainOfArrival line <$> kept))
      with ((fun v => line +:+ "-" +:+ v) <$> (vehicleId <$> kept))
      by (by rewrite <- !list_fmap_compose).
    apply NoDup_fmap_2_strong; [|done].
    intros v1 v2 _ _ Heq. by apply String.app_inj, String.app_inj in Heq.
  - intros t (a & -> & Ha)%list_elem_of_fmap. apply Hkept in Ha as (_ & _ & _ & _ & _ & Hnear).
    split; [done|]. split; [done|]. split; [done|].
    intros name Hname. cbn [trainOfArrival TrainTypes.lineName]. rewrite Hname.
    apply get_elem_of in Hname. unfold LINE_DISPLAY_NAMES in Hname.
    repeat (apply elem_of_cons in Hname as [[= -> ->]|Hname]; [done|]).
    by apply elem_of_nil in Hname.
Qed.

Lemma mapOf_elem_of {V} (entries : list (string * V)) k v :
  (k, v) ∈ Js.mapOf entries <->
  exists l1 l2, entries = l1 ++ (k, v) :: l2 /\ (k ∉ l2.*1).
Proof.
  rewrite <- get_Some by apply mapOf_NoDup. unfold Js.mapOf. rewrite foldl_set_get.
  destruct (last (filter _ entries)) as [e|] eqn:Hlast.
  - apply last_filter_Some in Hlast as (l1 & l2 & Hentries & He & Hl2). split.
    + intros [= <-]. exists l1, l2. destruct e as [k' v']. simpl in He. subst k'.
      split; [done|]. intros (e & He & Hin)%list_elem_of_fmap.
      rewrite Forall_forall in Hl2. by apply (Hl2 e Hin).
    + intros (l1' & l2' & Hentries' & Hl2'). f_equal.
      destruct (not_elem_of_app_cons_inv_r e (k, v) l1 l2 l1' l2') as (_ & -> & _);
        [| |congruence|done].
      * intros Hin. apply Hl2'. apply list_elem_of_fmap. by exists e.
      * intros Hin. rewrite Forall_forall in Hl2. by apply (Hl2 _ Hin).
  - split; [done|]. intros (l1 & l2 & Hentries & Hl2).
    assert (Hsome : last (filter (fun entry : string * V => entry.1 = k) entries)
                    = Some (k, v)); [|congruence].
    apply last_filter_Some. exists l1, l2. split; [done|]. split; [done|].
    apply Forall_forall. intros e Hin He. apply Hl2. apply list_elem_of_fmap. by exists e.
Qed.

(** On trains with ids of their own the deduplication changes nothing. *)
Lemma uniqueTrains_distinct (trains : list Train) :
  NoDup (TrainTypes.id <$> trains) -> uniqueTrains trains = trains.
Proof.
  intros Hnd. unfold uniqueTrains, Js.values.
  rewrite mapOf_distinct by (by rewrite <- list_fmap_compose).
  rewrite <- list_fmap_compose. apply list_fmap_id.
Qed.

(** X22. [uniqueTrains]: the ids of the result are distinct; a train is in the
    result exactly when it is the last of the array with its id; and an array
    whose ids are distinct is returned as it is. *)
Theorem X22_unique_trains_last_wins (trains : list Train) :
  NoDup (TrainTypes.id <$> uniqueTrains trains) /\
  (forall t, t ∈ uniqueTrains trains <->
     exists l1 l2, trains = l1 ++ t :: l2 /\ (TrainTypes.id t ∉ TrainTypes.id <$> l2)) /\
  (NoDup (TrainTypes.id <$> trains) -> uniqueTrains trains = trains).
Proof.
  unfold uniqueTrains, Js.values.
  set (entry := fun t : Train => (TrainTypes.id t, t)).
  assert (Hkeys : forall l : list Train, (entry <$> l).*1 = TrainTypes.id <$> l).
  { intros l. by rewrite <- list_fmap_compose. }
  assert (Hin : forall k t, (k, t) ∈ Js.mapOf (entry <$> trains) <->
            k = TrainTypes.id t /\
            exists l1 l2, trains = l1 ++ t :: l2 /\ (TrainTypes.id t ∉ TrainTypes.id <$> l2)).
  { intros k t. rewrite mapOf_elem_of. split.
    - intros (l1e & l2e & Hentries & Hl2).
      apply fmap_app_inv in Hentries as (l1 & rest & -> & Hrest & ->). symmetry in Hrest.
      apply fmap_cons_inv in Hrest as (t' & l2 & [= -> ->] & -> & ->).
      split; [done|]. exists l1, l2. by rewrite <- Hkeys.
    - intros (-> & l1 & l2 & -> & Hl2). exists (entry <$> l1), (entry <$> l2).
      split; [by rewrite fmap_app|]. by rewrite Hkeys. }
  split; [|split].
  - replace (TrainTypes.id <$> (Js.mapOf (entry <$> trains)).*2)
      with ((Js.mapOf (entry <$> trains)).*1); [apply mapOf_NoDup|].
    rewrite <- list_fmap_compose. apply Forall_fmap_ext, Forall_forall.
    intros [k t] Hkt. by apply Hin in Hkt as [-> _].
  - intros t. rewrite list_elem_of_fmap. split.
    + intros ([k t'] & -> & Hkt). by apply Hin in Hkt as [_ ?].
    + intros Hlast. exists (TrainTypes.id t, t). split; [done|]. by apply Hin.
  - apply uniqueTrains_distinct.
Qed.

(** ** The trains of the lines together *)

Lemma append_assoc (s t u : string) : (s +:+ t) +:+ u = s +:+ t +:+ u.
Proof.
  induction s as [|c s IH]; [done|].
  change (String c ((s +:+ t) +:+ u) = String c (s +:+ t +:+ u)). by f_equal.
Qed.

(** Two strings with a common extension: one begins with the other. *)
Lemma append_prefix (s1 s2 r1 r2 : string) :
  s1 +:+ r1 = s2 +:+ r2 -> String.prefix s1 s2 = true \/ String.prefix s2 s1 = true.
Proof.
  revert s2. induction s1 as [|c s1 IH]; intros [|c' s2]; simpl; auto.
  intros [= -> Heq]. destruct (IH _ Heq) as [Hp|Hp]; [left|right];
    by destruct (Ascii.ascii_dec c' c').
Qed.

(** No line id followed by a hyphen begins another one followed by a hyphen. *)
Lemma LINE_IDS_apart (line1 line2 v1 v2 : string) :
  line1 ∈ LINE_IDS -> line2 ∈ LINE_IDS ->
  line1 +:+ "-" +:+ v1 = line2 +:+ "-" +:+ v2 -> line1 = line2.
Proof.
  intros H1 H2 Heq.
  rewrite <- (append_assoc line1 "-" v1), <- (append_assoc line2 "-" v2) in Heq.
  assert (Htable : forallb (fun a => forallb (fun b =>
            implb (String.prefix (a +:+ "-") (b +:+ "-")) (String.eqb a b))
            LINE_IDS) LINE_IDS = true) by reflexivity.
  rewrite forallb_forall in Htable.
  assert (Hone : forall a b, a ∈ LINE_IDS -> b ∈ LINE_IDS ->
            String.prefix (a +:+ "-") (b +:+ "-") = true -> a = b).
  { intros a b Ha%list_elem_of_In Hb%list_elem_of_In Hp.
    specialize (Htable a Ha). rewrite forallb_forall in Htable.
    specialize (Htable b Hb). rewrite Hp in Htable. by apply String.eqb_eq. }
  destruct (append_prefix _ _ _ _ Heq) as [Hp|Hp]; [|symmetry]; by apply Hone.
Qed.

Lemma LINE_IDS_NoDup : NoDup LINE_IDS.
Proof. apply (bool_decide_unpack (NoDup LINE_IDS)). by vm_compute. Qed.

Lemma allTrains_elem_of responses (t : Train) :
  t ∈ allTrains responses <->
  exists line, line ∈ LINE_IDS /\ t ∈ fetchLineData line (responses line).
Proof.
  unfold allTrains. rewrite list_elem_of_join. split.
  - intros (l & Ht & (line & -> & Hline)%list_elem_of_fmap). by exists line.
  - intros (line & Hline & Ht). eexists. split; [exact Ht|].
    apply list_elem_of_fmap. by exists line.
Qed.

Lemma allTrains_NoDup responses : NoDup (TrainTypes.id <$> allTrains responses).
Proof.
  unfold allTrains. pose proof LINE_IDS_NoDup as Hnd.
  assert (Hsub : forall line, line ∈ LINE_IDS -> line ∈ LINE_IDS) by done.
  revert Hnd Hsub. generalize LINE_IDS at 1 2 4. intros lines.
  induction lines as [|line lines IH]; intros Hnd Hsub; [apply NoDup_nil_2|].
  apply NoDup_cons in Hnd as [Hline Hnd]. cbn [fmap list_fmap mjoin list_join].
  rewrite fmap_app. apply NoDup_app. split; [apply fetchLineData_ids|]. split.
  - intros k (t1 & -> & Ht1)%list_elem_of_fmap (t2 & Hk & Ht2)%list_elem_of_fmap.
    apply list_elem_of_join in Ht2 as (l & Ht2 & (line2 & -> & Hline2)%list_elem_of_fmap).
    destruct (fetchLineData_ids line (responses line)) as [_ Hid1].
    destruct (fetchLineData_ids line2 (responses line2)) as [_ Hid2].
    destruct (Hid1 t1 Ht1) as [Heq1 _]. destruct (Hid2 t2 Ht2) as [Heq2 _].
    rewrite Heq1, Heq2 in Hk.
    apply LINE_IDS_apart in Hk; [|apply Hsub; left|apply Hsub; by right].
    by subst line2.
  - apply IH; [done|]. intros l Hl. apply Hsub. by right.
Qed.

Lemma handler_allTrains responses : handler responses = allTrains responses.
Proof. apply uniqueTrains_distinct, allTrains_NoDup. Qed.

(** What holds of every train of a response. *)
Lemma handler_facts responses (t : Train) :
  t ∈ handler responses ->
  TrainTypes.lineId t ∈ LINE_IDS /\
  TrainTypes.id t = TrainTypes.lineId t +:+ "-" +:+ TrainTypes.vehicleId t /\
  TrainTypes.lineName t = TrackGeometry.getLineDisplayName (TrainTypes.lineId t) /\
  LineColors.isUndergroundLine (TrainTypes.lineName t) = true /\
  TubeMap.colorOf (TrainTypes.lineName t) <> "#888888" /\
  (TrainTypes.timeToStation t >? lit 300) = false.
Proof.
  rewrite handler_allTrains.
  intros (line & Hline & Ht)%allTrains_elem_of.
  destruct (fetchLineData_ids line (responses line)) as [_ Hfacts].
  destruct (Hfacts t Ht) as (Hid & Hlid & Hnear & Hname). rewrite Hlid.
  split; [done|]. split; [done|]. split; [|split; [|split; [|done]]];
    unfold LINE_IDS in Hline;
    repeat (apply elem_of_cons in Hline as [->|Hline];
            [by rewrite (Hname _ eq_refl)|]);
    by apply elem_of_nil in Hline.
Qed.

(** X23. The trains of a response of [/api/trains], whatever the TfL service
    answers. The deduplication removes nothing: the ids of the trains of all
    lines together are distinct already, as no line id followed by a hyphen
    begins another. So the ids of a response are distinct, which is what the
    theorems on a batch ask of it. And every train has a line id of
    [LINE_IDS], the id [lineId-vehicleId], the line name [getLineDisplayName]
    gives the hook, which is an Underground line with a colour of its own,
    and a time to station not above 300. *)
Theorem X23_response_trains responses :
  handler responses = allTrains responses /\
  NoDup (TrainTypes.id <$> handler responses) /\
  forall t, t ∈ handler responses ->
    TrainTypes.lineId t ∈ LINE_IDS /\
    TrainTypes.id t = TrainTypes.lineId t +:+ "-" +:+ TrainTypes.vehicleId t /\
    TrainTypes.lineName t = TrackGeometry.getLineDisplayName (TrainTypes.lineId t) /\
    LineColors.isUndergroundLine (TrainTypes.lineName t) = true /\
    TubeMap.colorOf (TrainTypes.lineName t) <> "#888888" /\
    (TrainTypes.timeToStation t >? lit 300) = false.
Proof.
  split; [apply handler_allTrains|]. split; [|apply handler_facts].
  rewrite handler_allTrains. apply allTrains_NoDup.
Qed.
End Feed.


(* ================================================================== *)
(** * The station lookup *)
Section Strings.

Lemma prefix_refl (s : string) : String.prefix s s = true.
Proof.
  induction s as [|c s IH]; [done|]. simpl. by destruct (Ascii.ascii_dec c c).
Qed.

Lemma includes_refl (s : string) : Js.includes s s = true.
Proof. destruct s; cbn [Js.includes]; by rewrite prefix_refl. Qed.

(** Every string includes the empty string. *)
Lemma includes_empty (s : string) : Js.includes s "" = true.
Proof. by destruct s. Qed.
End Strings.

Section Lookup.
Context {num : Type}.
Context (normalizeStationName : string -> string).
Context (toLowerCase : string -> string).

Import StationLookup.

Abbreviation Position := (num * num)%type.
Abbreviation Feature := (@StationFeature num).
Abbreviation getStationCoordinates :=
  (@StationLookup.getStationCoordinates num normalizeStationName).
Abbreviation buildStationMap :=
  (@StationLookup.buildStationMap num normalizeStationName toLowerCase).
Abbreviation keyedBy := (@StationLookup.keyedBy num normalizeStationName toLowerCase).

Lemma find_partialMatch (stationMap : list (string * Position)) normalized :
  match List.find (partialMatch normalized) stationMap with
  | Some entry => entry ∈ stationMap /\ partialMatch normalized entry = true
  | None => forall entry, entry ∈ stationMap -> partialMatch normalized entry = false
  end.
Proof.
  destruct (List.find _ stationMap) as [entry|] eqn:Hfind.
  - apply find_some in Hfind as [Hin Hmatch]. by rewrite list_elem_of_In.
  - intros entry Hin%list_elem_of_In. by apply (find_none _ _ Hfind).
Qed.

(** A name whose normalization is a key of the map is found there. *)
Lemma getStationCoordinates_direct
    (stationMap : list (string * Position)) (stationName : string) coords :
  stationName <> EmptyString ->
  Js.get (normalizeStationName stationName) stationMap = Some coords ->
  getStationCoordinates stationMap stationName = Some coords.
Proof.
  intros Hname Hget. unfold StationLookup.getStationCoordinates.
  destruct stationName as [|c rest]; [done|]. by rewrite Hget.
Qed.

(** Whatever the lookup returns stands in the map: under the normalized
    name, under its alias, or under a key that includes it or that it
    includes. *)
Lemma getStationCoordinates_sound
    (stationMap : list (string * Position)) (stationName : string) coords :
  getStationCoordinates stationMap stationName = Some coords ->
  let normalized := normalizeStationName stationName in
  (normalized, coords) ∈ stationMap \/
  (exists alias, (normalized, alias) ∈ aliases /\ (alias, coords) ∈ stationMap) \/
  (exists key, (key, coords) ∈ stationMap /\
     (Js.includes key normalized || Js.includes normalized key) = true).
Proof.
  intros Hfound normalized. unfold StationLookup.getStationCoordinates in Hfound.
  destruct stationName as [|c rest]; [done|]. fold normalized in Hfound. revert Hfound.
  destruct (Js.get normalized stationMap) as [direct|] eqn:Hdirect.
  { intros [= ->]. left. by apply get_elem_of. }
  destruct (Js.get normalized aliases) as [alias|] eqn:Halias; simpl.
  - destruct (Js.get alias stationMap) as [aliased|] eqn:Haliased.
    { intros [= ->]. right; left. exists alias. split; by apply get_elem_of. }
    pose proof (find_partialMatch stationMap normalized) as Hfind.
    destruct (List.find _ stationMap) as [[key value]|]; [|done].
    intros [= ->]. right; right. exists key. by destruct Hfind.
  - pose proof (find_partialMatch stationMap normalized) as Hfind.
    destruct (List.find _ stationMap) as [[key value]|]; [|done].
    intros [= ->]. right; right. exists key. by destruct Hfind.
Qed.

(** X24. [getStationCoordinates] on a name that is not empty. A name whose
    normalization is a key of the map gets the coordinates under that key.
    Whatever coordinates are returned stand in the map: under the normalized
    name, under its alias, or under a key that includes the normalized name
    or is included in it. And [null] is returned exactly when no key of the
    map includes the normalized name or is included in it, and the alias of
    the normalized name, if it has one, is no key of the map. *)
Theorem X24_station_resolution
    (stationMap : list (string * Position)) (stationName : string) :
  stationName <> EmptyString ->
  let normalized := normalizeStationName stationName in
  (forall coords, Js.get normalized stationMap = Some coords ->
     getStationCoordinates stationMap stationName = Some coords) /\
  (forall coords, getStationCoordinates stationMap stationName = Some coords ->
     (normalized, coords) ∈ stationMap \/
     (exists alias, (normalized, alias) ∈ aliases /\ (alias, coords) ∈ stationMap) \/
     (exists key, (key, coords) ∈ stationMap /\
        (Js.includes key normalized || Js.includes normalized key) = true)) /\
  (getStationCoordinates stationMap stationName = None <->
     (forall key coords, (key, coords) ∈ stationMap ->
        Js.includes key normalized = false /\ Js.includes normalized key = false) /\
     (forall alias, (normalized, alias) ∈ aliases -> Js.get alias stationMap = None)).
Proof.
  intros Hname normalized. unfold StationLookup.getStationCoordinates.
  destruct stationName as [|c rest]; [done|]. fold normalized.
  assert (Haliases : NoDup (aliases.*1)).
  { apply (bool_decide_unpack (NoDup (aliases.*1))). by vm_compute. }
  split; [|split].
  - by intros coords ->.
  - intros coords Hfound.
    by apply (getStationCoordinates_sound stationMap (String c rest)).
  - pose proof (find_partialMatch stationMap normalized) as Hfind. split.
    + intros Hnone. destruct (Js.get normalized stationMap) as [direct|]; [done|].
      assert (Hpartial : List.find (partialMatch normalized) stationMap = None).
      { destruct (Js.get normalized aliases ≫= _); [done|].
        by destruct (List.find _ stationMap). }
      rewrite Hpartial in Hfind. split.
      * intros key coords Hin. by apply orb_false_iff, (Hfind (key, coords)).
      * intros alias Halias%get_Some; [|done]. rewrite Halias in Hnone. simpl in Hnone.
        by destruct (Js.get alias stationMap).
    + intros [Hpartial Halias].
      destruct (Js.get normalized stationMap) as [direct|] eqn:Hdirect.
      { apply get_elem_of, Hpartial in Hdirect as [Hself _].
        by rewrite includes_refl in Hself. }
      destruct (Js.get normalized aliases) as [alias|] eqn:Hget; simpl.
      { rewrite (Halias alias) by (by apply get_elem_of).
        destruct (List.find _ stationMap) as [[key value]|]; [|done].
        destruct Hfind as [Hin Hmatch]. destruct (Hpartial key value Hin) as [H1 H2].
        unfold partialMatch in Hmatch. simpl in Hmatch. by rewrite H1, H2 in Hmatch. }
      destruct (List.find _ stationMap) as [[key value]|]; [|done].
      destruct Hfind as [Hin Hmatch]. destruct (Hpartial key value Hin) as [H1 H2].
      unfold partialMatch in Hmatch. simpl in Hmatch. by rewrite H1, H2 in Hmatch.
Qed.

(** X25. A name that is not empty but normalizes to the empty string is never
    unknown on a map that is not empty: it gets the coordinates under the
    empty key if there is one, and those of the first station of the map
    otherwise, as every key includes the empty string. *)
Theorem X25_empty_normalization
    (stationMap : list (string * Position)) (stationName : string) key coords rest :
  stationName <> EmptyString ->
  normalizeStationName stationName = EmptyString ->
  stationMap = (key, coords) :: rest ->
  getStationCoordinates stationMap stationName
  = Some (default coords (Js.get EmptyString stationMap)).
Proof.
  intros Hname Hnorm ->. unfold StationLookup.getStationCoordinates.
  destruct stationName as [|c name]; [done|]. rewrite Hnorm.
  destruct (Js.get "" ((key, coords) :: rest)) as [direct|]; [done|].
  change (Js.get "" aliases) with (@None string). cbn [mbind option_bind].
  cbn [List.find]. unfold partialMatch. cbn [fst]. by rewrite includes_empty.
Qed.

(** ** The map the initialization builds *)

Lemma elem_of_set_inv {V} (m : list (string * V)) key v k w :
  (k, w) ∈ Js.set key v m -> (k = key /\ w = v) \/ (k, w) ∈ m.
Proof.
  induction m as [|[k' w'] m IH]; simpl.
  - intros [= -> ->]%list_elem_of_singleton. by left.
  - destruct (String.eqb_spec k' key) as [->|Hne].
    + intros [[= -> ->]|Hin]%elem_of_cons; [by left|]. right. by right.
    + intros [[= -> ->]|Hin]%elem_of_cons; [right; left|].
      destruct (IH Hin) as [?|?]; [by left|]. right. by right.
Qed.

Lemma get_addStation_keyed (stationMap : list (string * Position)) (f : Feature) key coords :
  keyedBy key f -> coordinates f = Some coords ->
  Js.get key (addStation normalizeStationName toLowerCase stationMap f) = Some coords.
Proof.
  intros (n & c & Hn & Hne & Hc & Hkey) Hcoords. unfold addStation.
  rewrite Hn, Hc. rewrite Hc in Hcoords. injection Hcoords as ->.
  destruct n as [|a n]; [done|]. rewrite !get_set.
  destruct (decide (key = toLowerCase _)); [done|].
  destruct (decide (key = normalizeStationName _)); [done|].
  destruct Hkey; congruence.
Qed.

Lemma get_addStation_other (stationMap : list (string * Position)) (f : Feature) key :
  ~ keyedBy key f ->
  Js.get key (addStation normalizeStationName toLowerCase stationMap f)
  = Js.get key stationMap.
Proof.
  intros Hkey. unfold addStation.
  destruct (name f) as [n|] eqn:Hn; [|done].
  destruct (coordinates f) as [c|] eqn:Hc; [|done].
  destruct n as [|a n]; [done|]. rewrite !get_set.
  destruct (decide (key = toLowerCase _)) as [->|].
  { exfalso. apply Hkey. exists (String a n), c. split; [done|]. split; [done|]. auto. }
  destruct (decide (key = normalizeStationName _)) as [->|]; [|done].
  exfalso. apply Hkey. exists (String a n), c. split; [done|]. split; [done|]. auto.
Qed.

Lemma elem_of_buildStationMap (features : list Feature) key coords :
  (key, coords) ∈ buildStationMap features ->
  exists f, f ∈ features /\ coordinates f = Some coords /\ keyedBy key f.
Proof.
  unfold StationLookup.buildStationMap.
  induction features as [|f features IH] using rev_ind.
  { by intros ?%elem_of_nil. }
  rewrite foldl_app. cbn [foldl]. unfold addStation at 1.
  set (m := foldl _ [] features) in *.
  assert (Hold : (key, coords) ∈ m ->
            exists g, g ∈ features ++ [f] /\ coordinates g = Some coords /\ keyedBy key g).
  { intros Hin. destruct (IH Hin) as (g & Hg & Hc). exists g.
    split; [|done]. apply elem_of_app. by left. }
  destruct (name f) as [n|] eqn:Hn; [|done].
  destruct (coordinates f) as [c|] eqn:Hc; [|done].
  destruct n as [|a n]; [done|].
  assert (Hf : f ∈ features ++ [f]).
  { apply elem_of_app. right. by apply list_elem_of_singleton. }
  intros [[-> ->]|[[-> ->]|Hin]%elem_of_set_inv]%elem_of_set_inv; [| |by apply Hold].
  - exists f. split; [done|]. split; [done|].
    exists (String a n), c. split; [done|]. split; [done|]. auto.
  - exists f. split; [done|]. split; [done|].
    exists (String a n), c. split; [done|]. split; [done|]. auto.
Qed.

(** X26. The map built from the file and the lookup together: a name, not
    empty, whose normalization is the normalized or the lower-case name of a
    station of the file resolves to the coordinates of the last such station
    in the file. In particular a station of the file with a name and
    coordinates is found under its own name. *)
Theorem X26_station_round_trip (l1 l2 : list Feature) (f : Feature)
    (n : string) (coords : Position) (stationName : string) :
  stationName <> EmptyString ->
  name f = Some n -> n <> EmptyString -> coordinates f = Some coords ->
  normalizeStationName n = normalizeStationName stationName \/
    toLowerCase n = normalizeStationName stationName ->
  Forall (fun g => ~ keyedBy (normalizeStationName stationName) g) l2 ->
  getStationCoordinates (buildStationMap (l1 ++ f :: l2)) stationName = Some coords.
Proof.
  intros Hname Hn Hne Hc Hkey Hl2.
  apply getStationCoordinates_direct; [done|].
  unfold StationLookup.buildStationMap. rewrite foldl_app. cbn [foldl].
  set (m := foldl _ [] l1). clearbody m.
  induction l2 as [|g l2 IH] using rev_ind.
  - simpl. apply get_addStation_keyed; [|done]. by exists n, coords.
  - apply Forall_app in Hl2 as [Hl2 Hg]. rewrite Forall_singleton in Hg.
    rewrite foldl_app. cbn [foldl]. rewrite get_addStation_other by done. by apply IH.
Qed.
End Lookup.

(* ================================================================== *)
(** * Trains stand at stations *)
Section Anchored.
Context {num : Type} `{Number num} `{Infinity num}.
Context (lineSegments : gmap string (list (@TrackGeometry.LineSegment num))).
Context (getStationCoordinates : string -> option (num * num)).
Context (calculateHeading : num * num -> num * num -> num).

Import TrainPositions.

Abbreviation TrainState := (@TrainPositions.TrainState num).
Abbreviation World := (@TrainPositions.World num).

(** The current keyframe of a record is where the lookup puts the station
    its train was last reported at with a new position. *)
Lemma reachable_anchored (w : World) k (s : TrainState) :
  TrainPositions.reachable lineSegments getStationCoordinates calculateHeading w ->
  trainStates w !! k = Some s ->
  exists stationName, getStationCoordinates stationName = Some (position (current s)).
Proof.
  intros Hw. revert k s.
  induction Hw as [t0|w now trains _ IH|w now w' out _ IH Hframe]; intros k s Hk.
  - done.
  - destruct trains as [trains|]; [|by apply (IH k)].
    cbn [arrive trainStates ingest] in Hk. unfold removeStale in Hk.
    apply map_lookup_filter_Some in Hk as [Hk _].
    revert k s Hk. generalize dependent (trainStates w). clear w.
    induction trains as [|t trains IHt]; intros st IH k s Hk; [by apply (IH k)|].
    cbn [foldl] in Hk. apply (IHt _) in Hk; [done|]. clear k s Hk. intros k s Hk.
    unfold updateTrain in Hk.
    destruct (getStationCoordinates (TrainTypes.currentStation t)) as [coords|] eqn:Hc;
      [|by apply (IH k)].
    destruct (decide (TrainTypes.id t = k)) as [<-|Hne].
    2: { destruct (st !! TrainTypes.id t) as [existing|];
           [destruct (posChanged coords existing)|];
           rewrite lookup_insert_ne in Hk by done; by apply (IH k). }
    destruct (st !! TrainTypes.id t) as [existing|] eqn:Hex.
    + destruct (posChanged coords existing); rewrite lookup_insert_eq in Hk;
        injection Hk as <-; simpl.
      * by eexists.
      * by apply (IH (TrainTypes.id t)).
    + rewrite lookup_insert_eq in Hk. injection Hk as <-. simpl. by eexists.
  - destruct (animate_lookup _ _ _ _ _ _ _ Hframe Hk) as (s0 & o & Hs0 & Hs').
    destruct (IH k s0 Hs0) as [stationName Hstation]. exists stationName.
    unfold animateState in Hs'. destruct (previous s0) as [prev|].
    + cbn zeta in Hs'.
      destruct (match trackPath s0 with Some _ => _ | None => _ end) as [[target hd]|];
        [|done].
      cbn [mbind option_bind] in Hs'. destruct (last (trail s0)); [|done].
      cbn [mbind option_bind] in Hs'. by injection Hs' as <- _.
    + by injection Hs' as <- _.
Qed.
End Anchored.

Section AnchoredAtStations.
Context {num : Type} `{Number num} `{Infinity num}.
Context (normalizeStationName : string -> string).
Context (toLowerCase : string -> string).
Context (features : list (@StationLookup.StationFeature num)).
Context (lineSegments : gmap string (list (@TrackGeometry.LineSegment num))).
Context (calculateHeading : num * num -> num * num -> num).

(** X27. With the lookup of [stationLookup.ts] on the map built from the
    file: in every world the hook reaches, the current keyframe of every
    record is at the coordinates of a station of the file. *)
Theorem X27_trains_stand_at_stations (w : @TrainPositions.World num) k s :
  TrainPositions.reachable lineSegments
    (StationLookup.getStationCoordinates normalizeStationName
       (StationLookup.buildStationMap normalizeStationName toLowerCase features))
    calculateHeading w ->
  TrainPositions.trainStates w !! k = Some s ->
  exists f, f ∈ features /\
    StationLookup.coordinates f
    = Some (TrainPositions.position (TrainPositions.current s)).
Proof.
  intros Hw Hk.
  destruct (reachable_anchored _ _ _ w k s Hw Hk) as [stationName Hfound].
  destruct (getStationCoordinates_sound normalizeStationName _ _ _ Hfound)
    as [Hin|[(alias & _ & Hin)|(key & Hin & _)]];
    apply elem_of_buildStationMap in Hin as (f & Hf & Hc & _); by exists f.
Qed.
End AnchoredAtStations.


(* ================================================================== *)
(** * The geometry index *)
Section Index.
Context {num : Type} `{Number num}.
Import TrackGeometry GeometryIndex.

Abbreviation LineSegment := (@TrackGeometry.LineSegment num).
Abbreviation Feature := (@TrackGeometry.Feature num).

(** The polylines an index holds under a name, none if it holds no entry. *)
Abbreviation held index name := (default [] ((index : gmap string (list LineSegment)) !! name)).

Lemma pushSegment_lookup cs (index : gmap string (list LineSegment)) line name :
  pushSegment cs index line !! name
  = if decide (name = line)
    then Some (held index name ++ [{| lineName := line; coordinates := cs |}])
    else index !! name.
Proof.
  unfold pushSegment. destruct (decide (name = line)) as [->|Hne].
  - rewrite lookup_insert_eq. destruct (index !! line) eqn:Hline.
    + by rewrite Hline.
    + by rewrite lookup_insert_eq.
  - rewrite lookup_insert_ne by done.
    destruct (index !! line); [done|]. by rewrite lookup_insert_ne.
Qed.

Lemma foldl_pushSegment cs lines (index : gmap string (list LineSegment)) name :
  (forall n, index !! n <> Some []) ->
  (forall n, foldl (pushSegment cs) index lines !! n <> Some []) /\
  held (foldl (pushSegment cs) index lines) name
  = held index name
    ++ ((fun _ => {| lineName := name; coordinates := cs |})
          <$> filter (fun line => line = name) lines).
Proof.
  revert index. induction lines as [|line lines IH]; intros index Hfull.
  { split; [done|]. simpl. by rewrite app_nil_r. }
  cbn [foldl]. destruct (IH (pushSegment cs index line)) as [Hfull' Hheld].
  { intros n. rewrite pushSegment_lookup. destruct (decide (n = line)); [|done].
    intros [= Hnil]. by destruct (held index n). }
  split; [done|]. rewrite Hheld, pushSegment_lookup, filter_cons.
  destruct (decide (name = line)) as [->|Hne].
  - rewrite decide_True by done. simpl. by rewrite <- app_assoc.
  - rewrite decide_False by done. done.
Qed.

Lemma initializeLineSegments_held (features : list Feature) name :
  (forall n, initializeLineSegments features !! n <> Some []) /\
  held (initializeLineSegments features) name = segmentsNamed name features.
Proof.
  unfold initializeLineSegments, segmentsNamed.
  induction features as [|f features IH] using rev_ind.
  { split; [|done]. intros n. simpl. by rewrite lookup_empty. }
  rewrite foldl_app, bind_app. cbn [foldl]. destruct IH as [Hfull Hheld].
  set (index := foldl _ ∅ features) in *.
  destruct (length (coords f) <? 2)%nat eqn:Hshort.
  - split; [done|]. rewrite Hheld. simpl. by rewrite Hshort, !app_nil_r.
  - destruct (foldl_pushSegment (coords f) (lines f) index name Hfull) as [Hfull' ->].
    split; [done|]. rewrite Hheld. simpl. by rewrite Hshort, app_nil_r.
Qed.

(** X1. The geometry index holds under a line name exactly the polylines of
    the features that name the line and have two coordinates or more, in the
    order of the file, once for each time a feature names the line; a name no
    such feature carries has no entry. So an entry is never the empty array
    (the test [segments.length === 0] of [findTrackPath] never fires on a name
    the index holds), and every polyline kept under a name carries that name,
    has two points or more, and is the line string of a feature that names
    the line. *)
Theorem X1_geometry_index (features : list Feature) (name : string) :
  initializeLineSegments features !! name
  = match segmentsNamed name features with
    | [] => None
    | segments => Some segments
    end /\
  forall segments, initializeLineSegments features !! name = Some segments ->
    segments <> [] /\
    forall segment, segment ∈ segments ->
      lineName segment = name /\
      (2 <= length (coordinates segment))%nat /\
      exists feature, feature ∈ features /\
        coordinates segment = coords feature /\ name ∈ lines feature.
Proof.
  destruct (initializeLineSegments_held features name) as [Hfull Hheld].
  assert (Hlookup : initializeLineSegments features !! name
                    = match segmentsNamed name features with
                      | [] => None
                      | segments => Some segments
                      end).
  { rewrite <- Hheld. destruct (initializeLineSegments features !! name) as [[|x l]|] eqn:Hl;
      [|done..]. by destruct (Hfull name). }
  split; [done|]. intros segments Hsome. split.
  { intros ->. by destruct (Hfull name). }
  assert (segments = segmentsNamed name features) as ->.
  { rewrite <- Hheld. by rewrite Hsome. }
  intros segment. unfold segmentsNamed. rewrite list_elem_of_bind.
  intros (f & Hseg & Hf). destruct (Nat.ltb_spec (length (coords f)) 2); [by apply elem_of_nil in Hseg|].
  apply list_elem_of_fmap in Hseg as (line & -> & Hline).
  apply list_elem_of_filter in Hline as [-> Hline].
  split; [done|]. split; [done|]. by exists f.
Qed.
End Index.

(* ================================================================== *)
(** * The tables of lines *)
Section Tables.
Import LineColors.

Lemma isUndergroundLine_elem_of name :
  isUndergroundLine name = true <-> name ∈ UNDERGROUND_LINES.
Proof. unfold isUndergroundLine. apply bool_decide_eq_true. Qed.

Ltac each_entry Hin :=
  repeat (apply elem_of_cons in Hin as [Hin|Hin]; [try injection Hin as ? ?; subst|]);
  [..|by apply elem_of_nil in Hin].

(** X5. The tables of lines agree. [getLineDisplayName] is idempotent; the
    [LINE_DISPLAY_NAMES] of the feed maps exactly the ids of [LINE_IDS], each
    to what [getLineDisplayName] gives; a name is an Underground line for
    [isUndergroundLine] exactly when it is the display name of one of the
    line ids of the feed, and exactly when a code of [LINE_CODES] stands for
    it; and every Underground line has a colour of its own in [LINE_COLORS],
    so that neither [getLineColor] nor the [LINE_COLORS[...] || '#888888'] of
    the map falls back to grey on it. *)
Theorem X5_line_tables_agree :
  (forall lineId,
     TrackGeometry.getLineDisplayName (TrackGeometry.getLineDisplayName lineId)
     = TrackGeometry.getLineDisplayName lineId) /\
  (forall lineId name,
     Js.get lineId Api.LINE_DISPLAY_NAMES = Some name <->
     lineId ∈ Api.LINE_IDS /\ TrackGeometry.getLineDisplayName lineId = name) /\
  forall name,
    (isUndergroundLine name = true <->
     exists lineId, lineId ∈ Api.LINE_IDS /\ TrackGeometry.getLineDisplayName lineId = name) /\
    (isUndergroundLine name = true <-> exists code, Js.get code LINE_CODES = Some name) /\
    (isUndergroundLine name = true ->
     getLineColor name <> "#888888" /\ TubeMap.colorOf name = getLineColor name).
Proof.
  split; [|split].
  - intros lineId. unfold TrackGeometry.getLineDisplayName at 2 3.
    destruct (_ !! lineId) as [name|] eqn:Hname.
    + apply elem_of_list_to_map_2 in Hname. unfold TrackGeometry.LINE_ID_TO_NAME in Hname.
      each_entry Hname; reflexivity.
    + unfold TrackGeometry.getLineDisplayName. by rewrite Hname.
  - intros lineId name. split.
    + intros Hin%get_elem_of. unfold Api.LINE_DISPLAY_NAMES in Hin.
      each_entry Hin; (split; [|reflexivity]); unfold Api.LINE_IDS;
        rewrite !elem_of_cons; tauto.
    + intros [Hin <-]. unfold Api.LINE_IDS in Hin. each_entry Hin; reflexivity.
  - intros name. rewrite isUndergroundLine_elem_of. split; [|split].
    + split.
      * intros Hin. unfold UNDERGROUND_LINES in Hin.
        each_entry Hin;
          [exists "bakerloo"|exists "central"|exists "circle"|exists "district"
          |exists "hammersmith-city"|exists "jubilee"|exists "metropolitan"
          |exists "northern"|exists "piccadilly"|exists "victoria"
          |exists "waterloo-city"];
          (split; [|reflexivity]); unfold Api.LINE_IDS; rewrite !elem_of_cons; tauto.
      * intros (lineId & Hin & <-). unfold Api.LINE_IDS in Hin.
        each_entry Hin; vm_compute; repeat constructor.
    + split.
      * intros Hin. unfold UNDERGROUND_LINES in Hin.
        each_entry Hin;
          [exists "B"|exists "C"|exists "L"|exists "D"|exists "H"|exists "J"
          |exists "M"|exists "N"|exists "P"|exists "V"|exists "W"]; reflexivity.
      * intros (code & Hin%get_elem_of). unfold LINE_CODES in Hin.
        each_entry Hin; unfold UNDERGROUND_LINES; rewrite !elem_of_cons; tauto.
    + intros Hin. unfold UNDERGROUND_LINES in Hin. each_entry Hin; by split.
Qed.
End Tables.

(* ================================================================== *)
(** * The lines drawn *)
Section Drawn.
Import LineColors TubeMap.

Lemma find_first {A} (p : A -> bool) (l : list A) (x : A) :
  List.find p l = Some x <->
  exists l1 l2, l = l1 ++ x :: l2 /\ p x = true /\ Forall (fun y => p y = false) l1.
Proof.
  induction l as [|y l IH]; simpl.
  - split; [done|]. intros (l1 & l2 & Hl & _). by destruct l1.
  - destruct (p y) eqn:Hy.
    + split.
      * intros [= ->]. by exists [], l.
      * intros (l1 & l2 & Hl & Hx & Hl1). destruct l1 as [|z l1].
        -- by injection Hl as ->.
        -- injection Hl as -> ->. apply Forall_cons in Hl1 as [Hz _]. congruence.
    + rewrite IH. split.
      * intros (l1 & l2 & -> & Hx & Hl1). exists (y :: l1), l2.
        split; [done|]. split; [done|]. by apply Forall_cons.
      * intros (l1 & l2 & Hl & Hx & Hl1). destruct l1 as [|z l1].
        -- injection Hl as -> ->. congruence.
        -- injection Hl as -> ->. apply Forall_cons in Hl1 as [_ Hl1]. by exists l1, l2.
Qed.

Lemma underground_named name :
  isUndergroundLine name = true ->
  Js.orElse name "Unknown" = name /\ name <> "Unknown" /\ colorOf name <> "#888888".
Proof.
  intros Hin%isUndergroundLine_elem_of. unfold UNDERGROUND_LINES in Hin.
  repeat (apply elem_of_cons in Hin as [->|Hin]; [done|]). by apply elem_of_nil in Hin.
Qed.

(** X28. [filterUndergroundLines] returns a feature with the [lineName]
    property [name] exactly when the feature is in the data and [name] is the
    first Underground line among its lines; so the ['Unknown'] fallback is
    never taken, and the name has a colour of its own. The features it keeps
    are those [filterUndergroundStations] keeps, in the order of the data. *)
Theorem X28_underground_lines_named {A} (features : list (DataFeature A))
    (feature : DataFeature A) (name : string) :
  ((feature, name) ∈ filterUndergroundLines features <->
   feature ∈ features /\
   exists l1 l2, lines feature = Some (l1 ++ name :: l2) /\
     isUndergroundLine name = true /\
     Forall (fun line => isUndergroundLine line = false) l1) /\
  ((feature, name) ∈ filterUndergroundLines features ->
   name <> "Unknown" /\ colorOf name <> "#888888") /\
  (filterUndergroundLines features).*1 = filterUndergroundStations features /\
  filterUndergroundStations features `sublist_of` features.
Proof.
  assert (Hiff : (feature, name) ∈ filterUndergroundLines features <->
            feature ∈ features /\
            exists l1 l2, lines feature = Some (l1 ++ name :: l2) /\
              isUndergroundLine name = true /\
              Forall (fun line => isUndergroundLine line = false) l1).
  { unfold filterUndergroundLines. rewrite list_elem_of_fmap. split.
    - intros (f & [= <- ->] & Hf). apply list_elem_of_In, filter_In in Hf as [Hf Hsome].
      split; [by apply list_elem_of_In|].
      unfold someUnderground in Hsome. unfold firstUnderground.
      destruct (lines feature) as [ls|]; [|done]. simpl in *.
      destruct (List.find isUndergroundLine ls) as [n|] eqn:Hfind.
      + apply find_first in Hfind as (l1 & l2 & -> & Hn & Hl1).
        destruct (underground_named n Hn) as [-> _]. by exists l1, l2.
      + apply existsb_exists in Hsome as (n & Hn & Hunder).
        by rewrite (find_none _ _ Hfind n Hn) in Hunder.
    - intros (Hf & l1 & l2 & Hlines & Hname & Hl1). exists feature. split.
      + f_equal. unfold firstUnderground. rewrite Hlines. simpl.
        rewrite (proj2 (find_first _ _ name)) by (by exists l1, l2).
        by destruct (underground_named name Hname) as [-> _].
      + apply list_elem_of_In, filter_In. split; [by apply list_elem_of_In|].
        unfold someUnderground. rewrite Hlines. simpl. apply existsb_exists.
        exists name. split; [|done]. apply in_app_iff. right. by left. }
  split; [done|]. split; [|split].
  - intros (_ & l1 & l2 & _ & Hname & _)%Hiff.
    by destruct (underground_named name Hname) as (_ & ? & ?).
  - unfold filterUndergroundLines, filterUndergroundStations.
    rewrite <- list_fmap_compose. apply list_fmap_id.
  - unfold filterUndergroundStations. clear.
    induction features as [|f features IH]; simpl; [done|].
    destruct (someUnderground f); [by apply sublist_skip|by apply sublist_cons].
Qed.
End Drawn.

(* ================================================================== *)
(** * From the feed to the map *)
Section FeedToMap.
Context {num : Type} `{Number num} `{Infinity num}.
Context (lineSegments : gmap string (list (@TrackGeometry.LineSegment num))).
Context (getStationCoordinates : string -> option (num * num)).
Context (calculateHeading : num * num -> num * num -> num).

Import TrainPositions.

Abbreviation TrainState := (@TrainPositions.TrainState num).
Abbreviation World := (@TrainPositions.World num).
Abbreviation live := (Pipeline.live lineSegments getStationCoordinates calculateHeading).

Lemma live_reachable (w : World) :
  live w -> TrainPositions.reachable lineSegments getStationCoordinates calculateHeading w.
Proof.
  induction 1 as [t0|w now responses _ IH|w now w' out _ IH Hframe].
  - apply reachable_start.
  - by apply reachable_arrive.
  - by eapply reachable_animate.
Qed.

(** The train data of the records come from the batches. *)
Lemma ingest_trains (P : TrainTypes.Train num -> Prop) now trains
    (st : gmap string TrainState) :
  (forall t, t ∈ trains -> P t) ->
  map_Forall (fun _ s => P (train s)) st ->
  map_Forall (fun _ s => P (train s))
    (ingest lineSegments getStationCoordinates now (Some trains) st).
Proof.
  intros Hbatch Hst. cbn [ingest].
  assert (Hfold : map_Forall (fun _ s => P (train s))
            (foldl (updateTrain lineSegments getStationCoordinates now) st trains)).
  { revert st Hst. induction trains as [|t trains IH]; intros st Hst; [done|].
    cbn [foldl]. apply IH; [intros t' Ht'; apply Hbatch; by right|].
    assert (Ht : P t) by (apply Hbatch; left).
    unfold updateTrain. destruct (getStationCoordinates _) as [coords|]; [|done].
    destruct (st !! TrainTypes.id t) as [existing|];
      [destruct (posChanged coords existing)|]; by apply map_Forall_insert_2. }
  intros k s Hk. unfold removeStale in Hk.
  apply map_lookup_filter_Some in Hk as [Hk _]. by apply (Hfold k).
Qed.

Lemma live_from_feed (w : World) :
  live w ->
  map_Forall (fun _ s => exists responses, train s ∈ Api.handler responses) (trainStates w).
Proof.
  induction 1 as [t0|w now responses _ IH|w now w' out _ IH Hframe].
  - apply map_Forall_empty.
  - apply (ingest_trains (fun t => exists responses, t ∈ Api.handler responses)); [|done].
    intros t Ht. by exists responses.
  - intros k s' Hk.
    destruct (animate_lookup _ _ _ _ _ _ _ Hframe Hk) as (s & o & Hs & Hs').
    destruct (animateState_keeps _ _ _ _ _ _ Hs') as (_ & _ & -> & _).
    by apply (IH k).
Qed.

(** X29. From the feed to the map: when the batches the hook takes in are
    responses of [/api/trains], the features a frame hands to the [trains]
    source have distinct ids, and each of them is the feature of a record of
    the hook, under its id; it carries a line id of [LINE_IDS] and the name
    of an Underground line, and is drawn in the colour of that line, never in
    the grey of the fallback. *)
Theorem X29_drawn_in_line_colour now (w w' : World) out :
  live w -> animate calculateHeading now w = Some (w', out) ->
  NoDup (TubeMap.id <$> Pipeline.trainFeatures out) /\
  forall feature, feature ∈ Pipeline.trainFeatures out ->
    exists s,
      trainStates w !! TubeMap.id feature = Some s /\
      TubeMap.id feature = TrainTypes.id (train s) /\
      TubeMap.lineId feature ∈ Api.LINE_IDS /\
      TubeMap.lineName feature = TrackGeometry.getLineDisplayName (TubeMap.lineId feature) /\
      LineColors.isUndergroundLine (TubeMap.lineName feature) = true /\
      TubeMap.color feature = LineColors.getLineColor (TubeMap.lineName feature) /\
      TubeMap.color feature <> "#888888".
Proof.
  intros Hw Hframe.
  pose proof (reachable_recordSound _ _ _ w (live_reachable w Hw)) as Hsound.
  pose proof (live_from_feed w Hw) as Hfeed.
  assert (Hout : forall k o, out !! k = Some o ->
            exists s, trainStates w !! k = Some s /\ TrainTypes.train_of o = train s).
  { intros k o Ho. destruct (animate_frames _ _ _ _ _ k Hframe) as [_ Hk].
    destruct (trainStates w !! k) as [s|]; [|destruct Hk; congruence].
    destruct Hk as (s' & o' & Hs & _ & Ho'). exists s. split; [done|].
    assert (o' = o) as -> by congruence.
    by destruct (animateState_keeps _ _ _ _ _ _ Hs) as (_ & _ & _ & _ & ?). }
  assert (Hkey : forall k o, (k, o) ∈ map_to_list out ->
            TrainTypes.id (TrainTypes.train_of o) = k).
  { intros k o Hko%elem_of_map_to_list. destruct (Hout k o Hko) as (s & Hs & ->).
    by destruct (Hsound k s Hs). }
  unfold Pipeline.trainFeatures, TubeMap.trainsToGeoJSON. split.
  - rewrite <- !list_fmap_compose.
    replace (_ <$> map_to_list out) with ((map_to_list out).*1);
      [apply NoDup_fst_map_to_list|].
    apply Forall_fmap_ext, Forall_forall. intros [k o] Hko. simpl. symmetry. by apply Hkey.
  - intros feature (o & -> & ([k o'] & -> & Hko)%list_elem_of_fmap)%list_elem_of_fmap.
    cbn [snd TubeMap.id TubeMap.lineId TubeMap.lineName TubeMap.color].
    pose proof (Hkey k o' Hko) as Hid. apply elem_of_map_to_list in Hko.
    destruct (Hout k o' Hko) as (s & Hs & Htrain). rewrite Htrain in *.
    destruct (Hfeed k s Hs) as [responses Hin].
    destruct (handler_facts responses _ Hin) as (Hline & _ & Hname & Hunder & Hcolor & _).
    exists s. rewrite Hid. by repeat split.
Qed.
End FeedToMap.


(* ================================================================== *)
(** * The straight-line hook *)
Section Legacy.
Context {num : Type} `{Number num}.
Context (getStationCoordinates : string -> option (num * num)).
Context (calculateHeading : num * num -> num * num -> num).
Local Open Scope num_scope.

Import TrainPositionsLegacy LegacyAnimation.

Abbreviation Position := (num * num)%type.
Abbreviation LegacyState := (@TrainPositionsLegacy.TrainState num).
Abbreviation legacyUpdate := (TrainPositionsLegacy.updateTrain getStationCoordinates).
Abbreviation legacyIngest := (TrainPositionsLegacy.ingest getStationCoordinates).
Abbreviation legacyFrame := (LegacyAnimation.animateState calculateHeading).
Abbreviation legacyAnimate := (LegacyAnimation.animate calculateHeading).
Abbreviation legacyReachable :=
  (LegacyAnimation.reachable getStationCoordinates calculateHeading).

(** In a batch whose ids are distinct, the record of a train of the batch is
    the one its own update leaves. *)
Lemma legacy_ingest_lookup_unique now trains (st : gmap string LegacyState) t :
  NoDup (TrainTypes.id <$> trains) -> t ∈ trains ->
  legacyIngest now (Some trains) st !! TrainTypes.id t
  = legacyUpdate now st t !! TrainTypes.id t.
Proof.
  intros Hnd Hin. cbn [ingest].
  assert (Hkept : forall m : gmap string LegacyState,
            removeStale now trains m !! TrainTypes.id t = m !! TrainTypes.id t).
  { intros m. unfold removeStale. destruct (m !! TrainTypes.id t) as [s|] eqn:Hs.
    - apply map_lookup_filter_Some. split; [done|]. unfold isStale. simpl.
      rewrite bool_decide_eq_true_2; [done|]. unfold currentIds.
      apply elem_of_list_to_set. by apply list_elem_of_fmap_2.
    - apply map_lookup_filter_None. by left. }
  rewrite Hkept. apply list_elem_of_split in Hin as (l1 & l2 & ->).
  rewrite fmap_app, fmap_cons in Hnd.
  apply NoDup_app in Hnd as (_ & Hl1 & Hnd). apply NoDup_cons in Hnd as [Hl2 _].
  rewrite foldl_app. cbn [foldl]. rewrite legacy_foldl_other by done.
  assert (Hk : TrainTypes.id t ∉ TrainTypes.id <$> l1).
  { intros Hk. apply (Hl1 _ Hk). left. }
  unfold updateTrain at 1 3.
  destruct (getStationCoordinates _) as [coords|].
  - rewrite (legacy_foldl_other _ now l1 st _ Hk).
    destruct (st !! TrainTypes.id t) as [existing|]; by rewrite !lookup_insert_eq.
  - by apply legacy_foldl_other.
Qed.

(** X17. The straight-line hook: a train of a batch with distinct ids that has
    a record and whose station resolves gets, at the same station or at
    another one, the record below. Its previous keyframe is the current
    keyframe the record had; its current keyframe is the resolved coordinate
    at [now], with the time to station of the train; the trail is kept; the
    velocity points from the old position to the new one when they are more
    than 0.0001 apart, and is the old velocity otherwise. *)
Theorem X17_legacy_report now (st : gmap string LegacyState) t coords existing trains :
  getStationCoordinates (TrainTypes.currentStation t) = Some coords ->
  st !! TrainTypes.id t = Some existing ->
  NoDup (TrainTypes.id <$> trains) -> t ∈ trains ->
  let dx := coords.1 - (position (current existing)).1 in
  let dy := coords.2 - (position (current existing)).2 in
  let dist := num_sqrt (dx * dx + dy * dy) in
  legacyIngest now (Some trains) st !! TrainTypes.id t
  = Some {| previous := Some (current existing);
            current := {| position := coords; timestamp := now;
                          timeToStation := TrainTypes.timeToStation t |};
            train := t;
            trail := trail existing;
            velocity := if dist >? dec 1 10000
                        then (dx / dist * dec 1 100000, dy / dist * dec 1 100000)
                        else velocity existing |}.
Proof.
  intros Hcoords Hex Hnd Hin dx dy dist. rewrite legacy_ingest_lookup_unique by done.
  unfold updateTrain. rewrite Hcoords, Hex. by rewrite lookup_insert_eq.
Qed.

(** ** The trail *)

Lemma legacyFrame_ok now (s s' : LegacyState) out :
  legacyFrame now s = Some (s', out) -> trailOk s -> trailOk s'.
Proof.
  unfold LegacyAnimation.animateState, trailOk. destruct (previous s) as [prev|].
  - cbn zeta. destruct (last (trail s)) as [lastTrailPos|]; [|done].
    cbn [mbind option_bind]. intros [= <- _]. cbn [trail].
    destruct (num_ltb _ _); [|done]. intros Hok.
    unfold LegacyAnimation.TRAIL_LENGTH. rewrite slice_suffix by lia.
    rewrite length_drop, length_app. simpl. lia.
  - by intros [= <- _].
Qed.

Lemma legacyFrame_is_Some now (s : LegacyState) :
  trail s <> [] -> is_Some (legacyFrame now s).
Proof.
  intros Htrail. unfold LegacyAnimation.animateState.
  destruct (previous s) as [prev|]; [|by eexists]. cbn zeta.
  destruct (last (trail s)) as [lastTrailPos|] eqn:Hlast;
    [|by apply last_None in Hlast].
  by eexists.
Qed.

Lemma legacyAnimate_lookup now (st st' : gmap string LegacyState) out k s' :
  legacyAnimate now st = Some (st', out) -> st' !! k = Some s' ->
  exists s o, st !! k = Some s /\ legacyFrame now s = Some (s', o).
Proof.
  unfold LegacyAnimation.animate. destruct (decide _) as [_|]; [|done].
  intros [= <- <-]. rewrite lookup_omap, lookup_fmap.
  destruct (st !! k) as [s|]; [|done]. simpl.
  destruct (LegacyAnimation.animateState _ _ s) as [[s1 o]|] eqn:Hframe; [|done].
  simpl. intros [= <-]. by exists s, o.
Qed.

Lemma legacyReachable_ok (st : gmap string LegacyState) :
  legacyReachable st -> map_Forall (fun _ s => trailOk s) st.
Proof.
  induction 1 as [|st now trains _ IH|st now st' out _ IH Hframe].
  - apply map_Forall_empty.
  - destruct trains as [trains|]; [|done]. cbn [ingest].
    assert (Hfold : map_Forall (fun _ s => trailOk s)
              (foldl (legacyUpdate now) st trains)).
    { clear -IH. revert st IH. induction trains as [|t trains IHt]; intros st IH; [done|].
      cbn [foldl]. apply IHt. unfold updateTrain.
      destruct (getStationCoordinates _) as [coords|]; [|done].
      destruct (st !! TrainTypes.id t) as [existing|] eqn:Hex.
      - apply map_Forall_insert_2; [|done]. exact (IH _ _ Hex).
      - apply map_Forall_insert_2; [|done]. unfold trailOk. simpl. lia. }
    intros k s Hk. unfold removeStale in Hk.
    apply map_lookup_filter_Some in Hk as [Hk _]. by apply (Hfold k).
  - intros k s' Hk.
    destruct (legacyAnimate_lookup _ _ _ _ _ _ Hframe Hk) as (s & o & Hs & Hs').
    eapply legacyFrame_ok; [exact Hs'|]. by apply (IH k).
Qed.

(** X19. The straight-line hook: in every store it reaches, every trail has
    between 1 and 15 points; a frame raises nothing; every trail [getTrails]
    returns has between 2 and 15 points; and a frame adds and removes no
    record, pushes one position per record, and keeps the keyframes, the train
    data and the velocity of each. *)
Theorem X19_legacy_trail_bounded (st : gmap string LegacyState) :
  legacyReachable st ->
  (forall k s, st !! k = Some s -> (1 <= length (trail s) <= 15)%nat) /\
  (forall now, is_Some (legacyAnimate now st)) /\
  (forall k coordinates, getTrails st !! k = Some coordinates ->
     (2 <= length coordinates <= 15)%nat) /\
  (forall now st' out, legacyAnimate now st = Some (st', out) ->
     forall k, match st !! k with
               | None => st' !! k = None /\ out !! k = None
               | Some s =>
                 exists s' o, st' !! k = Some s' /\ out !! k = Some o /\
                   current s' = current s /\ previous s' = previous s /\
                   train s' = train s /\ velocity s' = velocity s /\
                   TrainTypes.train_of o = train s
               end).
Proof.
  intros Hst. pose proof (legacyReachable_ok st Hst) as Hok.
  split; [|split; [|split]].
  - intros k s Hk. exact (Hok k s Hk).
  - intros now. unfold LegacyAnimation.animate.
    destruct (decide _) as [_|Hbad]; [by eexists|]. exfalso. apply Hbad.
    intros k frame. rewrite lookup_fmap.
    destruct (st !! k) as [s|] eqn:Hk; [|done]. simpl. intros [= <-].
    apply legacyFrame_is_Some. pose proof (Hok k s Hk) as Hs. unfold trailOk in Hs.
    intros Hnil. rewrite Hnil in Hs. simpl in Hs. lia.
  - intros k coordinates. unfold getTrails. rewrite lookup_fmap.
    destruct (filter _ st !! k) as [s|] eqn:Hs; [|done].
    apply map_lookup_filter_Some in Hs as [Hs Hlong]. simpl in Hlong.
    intros [= <-]. pose proof (Hok k s Hs) as Hb. unfold trailOk in Hb. lia.
  - intros now st' out. unfold LegacyAnimation.animate.
    destruct (decide _) as [Hall|]; [|done]. intros [= <- <-] k.
    rewrite !lookup_omap, !lookup_fmap. destruct (st !! k) as [s|] eqn:Hs; [|done].
    simpl. destruct (Hall k (LegacyAnimation.animateState calculateHeading now s))
      as [[s' o] Hframe]; [by rewrite lookup_fmap, Hs|].
    rewrite Hframe. simpl. exists s', o. split; [done|]. split; [done|].
    unfold LegacyAnimation.animateState in Hframe. destruct (previous s) as [prev|] eqn:Hprev.
    + cbn zeta in Hframe. destruct (last (trail s)); [|done].
      cbn [mbind option_bind] in Hframe. by injection Hframe as <- <-.
    + by injection Hframe as <- <-.
Qed.
End Legacy.


(* ================================================================== *)
(** * Damping *)
Section Damping.
Context {num : Type} `{NumberLaws num}.
Local Open Scope num_scope.
Import TrainPositions.

(** X14. Under the order laws, which binary64 has: the value [smoothDamp]
    returns is never beyond the target. When the target lies above the current
    value ([target - current > 0]) the result is not above the target, and
    when it does not, the result is not below the target. *)
Theorem X14_damping_no_overshoot (current target velocity smoothTime deltaTime : num) :
  let damped := smoothDamp current target velocity smoothTime deltaTime in
  ((target - current >? lit 0) = true -> (value damped >? target) = false) /\
  ((target - current >? lit 0) = false -> (value damped <? target) = false).
Proof.
  cbn zeta. unfold smoothDamp.
  set (newValue := target + _).
  destruct (target - current >? lit 0) eqn:Hup; destruct (newValue >? target) eqn:Hover;
    cbn [Bool.eqb value]; (split; [intros Hdir|intros Hdir]); try discriminate.
  - apply ltb_irrefl.
  - exact Hover.
  - destruct (newValue <? target) eqn:Hunder; [|done].
    by rewrite <- (ltb_irrefl target), <- (ltb_trans _ _ _ Hover Hunder).
  - apply ltb_irrefl.
Qed.
End Damping.



(* ================================================================== *)
(** * The sampler's division in binary64 *)
Section SamplerDivision.
Import Floats JsNumber.

Abbreviation float := PrimFloat.float.

Lemma float_mul_nan (x : float) : PrimFloat.mul x PrimFloat.nan = PrimFloat.nan.
Proof.
  apply Prim2SF_inj. rewrite mul_spec.
  replace (Prim2SF PrimFloat.nan) with S754_nan by reflexivity.
  unfold SF64mul, SFmul. by destruct (Prim2SF x) as [[|]|[|]| |[|] m e].
Qed.

Lemma float_add_nan (x : float) : PrimFloat.add x PrimFloat.nan = PrimFloat.nan.
Proof.
  apply Prim2SF_inj. rewrite FloatAxioms.add_spec.
  replace (Prim2SF PrimFloat.nan) with S754_nan by reflexivity.
  unfold SF64add, SFadd. by destruct (Prim2SF x) as [[|]|[|]| |[|] m e].
Qed.

(** X4. The sampler can divide zero by zero. In binary64, on a path whose
    first segment has length zero and whose total length is not zero, at a
    progress that is neither [<= 0] nor [>= 1] and so small that its product
    with the total length underflows to zero, the walk stops in the first
    segment, the quotient of the remaining distance by the length of the
    segment is 0/0, and both coordinates of the point returned are NaN. *)
Theorem X4_sampler_zero_over_zero (p0 p1 : float * float) (rest : list (float * float))
    (t : float) :
  let path := p0 :: p1 :: rest in
  (t <=? lit 0)%num = false -> (t >=? lit 1)%num = false ->
  (TrackGeometry.distance p0 p1 =? lit 0)%num = true ->
  (ArcLength.arcLength path =? lit 0)%num = false ->
  (t * ArcLength.arcLength path =? lit 0)%num = true ->
  ArcLength.sampledSegment path t = 0%nat /\
  TrackGeometry.interpolateAlongPath path t = Some (PrimFloat.nan, PrimFloat.nan).
Proof.
  cbn zeta. intros Hlow Hhigh Hflat Hlength Hunder.
  unfold ArcLength.sampledSegment, TrackGeometry.interpolateAlongPath.
  cbn [length Nat.eqb]. rewrite Hlow, Hhigh, measure_spec. cbn [mbind option_bind].
  rewrite Hlength.
  change (ArcLength.segmentLengths (p0 :: p1 :: rest))
    with (TrackGeometry.distance p0 p1 :: ArcLength.segmentLengths (p1 :: rest)).
  cbn [ArcLength.reachedIndex TrackGeometry.walk].
  set (segLen := TrackGeometry.distance p0 p1) in *.
  set (target := (t * ArcLength.arcLength (p0 :: p1 :: rest))%num) in *.
  assert (Hquotient : (lit 0 + segLen >=? target)%num = true /\
                      ((target - lit 0) / segLen)%num = PrimFloat.nan).
  { destruct (JsLaws.float_eqb_zero segLen Hflat) as [->| ->],
             (JsLaws.float_eqb_zero target Hunder) as [->| ->]; split; reflexivity. }
  destruct Hquotient as [-> ->]. split; [done|].
  change (0 + 1)%nat with 1%nat. cbn [lookup list_lookup mbind option_bind]. f_equal.
  change ((PrimFloat.add p0.1 (PrimFloat.mul (PrimFloat.sub p1.1 p0.1) PrimFloat.nan),
           PrimFloat.add p0.2 (PrimFloat.mul (PrimFloat.sub p1.2 p0.2) PrimFloat.nan))
          = (PrimFloat.nan, PrimFloat.nan)).
  by rewrite !float_mul_nan, !float_add_nan.
Qed.
End SamplerDivision.

(* ================================================================== *)
(** * The further theorems on the small network *)

(** From A to B the path starts at the first point of the polyline and ends
    at its last. *)
Lemma X2_path_ends_at_nearest_points_witness :
  exists first final,
    head Scenario.polyline = Some first /\ last Scenario.polyline = Some final /\
    first ∈ Scenario.polyline /\ final ∈ Scenario.polyline.
Proof.
  assert (Hpath : TrackGeometry.findTrackPath Scenario.lineSegments Scenario.stationA
                    Scenario.stationB "Central" = Some Scenario.polyline) by reflexivity.
  destruct (X2_path_ends_at_nearest_points Scenario.lineSegments Scenario.stationA Scenario.stationB
              "Central" Scenario.polyline Hpath)
    as (segs & seg & first & final & Hsegs & Hseg & _ & _ & Hhead & Hlast & _ & _ & Hin).
  assert (segs = [Scenario.segment]) as ->.
  { apply (inj Some). rewrite <- Hsegs. reflexivity. }
  apply list_elem_of_singleton in Hseg as ->.
  exists first, final. split; [exact Hhead|]. split; [exact Hlast|]. split.
  - apply Hin. apply head_Some_elem_of. exact Hhead.
  - apply Hin. apply last_Some_elem_of. exact Hlast.
Defined.

(** From B to A the resolver returns the path from A to B reversed. *)
Lemma X3_swapped_ends_reverse_path_witness :
  TrackGeometry.findTrackPath Scenario.lineSegments Scenario.stationB Scenario.stationA
    "Central"
  = reverse <$> TrackGeometry.findTrackPath Scenario.lineSegments Scenario.stationA
                  Scenario.stationB "Central".
Proof. apply X3_swapped_ends_reverse_path. Defined.

(** The first batch creates the record of the train at A. *)
Lemma X7_first_sighting_witness :
  TrainPositions.ingest Scenario.lineSegments Scenario.getStationCoordinates
    (lit 1000) (Some [Scenario.trainAt "A"]) ∅ !! "central-1"%string
  = Some Scenario.seenAtA.
Proof.
  etrans; [apply (X7_first_sighting Scenario.lineSegments Scenario.getStationCoordinates
                    (lit 1000) ∅ (Scenario.trainAt "A") Scenario.stationA
                    [Scenario.trainAt "A"])|reflexivity].
  - reflexivity.
  - reflexivity.
  - apply NoDup_singleton.
  - apply list_elem_of_singleton. reflexivity.
Defined.

(** Reported at A again at 16000, the record keeps its keyframe of 1000. *)
Lemma X8_same_station_report_witness :
  TrainPositions.ingest Scenario.lineSegments Scenario.getStationCoordinates
    (lit 16000) (Some [Scenario.trainAt "A"]) Scenario.storeA !! "central-1"%string
  = Some (Records.withTrain (Scenario.trainAt "A") Scenario.seenAtA).
Proof.
  etrans; [apply (X8_same_station_report Scenario.lineSegments Scenario.getStationCoordinates
                    (lit 16000) Scenario.storeA (Scenario.trainAt "A") Scenario.stationA
                    Scenario.seenAtA [Scenario.trainAt "A"])|reflexivity].
  - reflexivity.
  - reflexivity.
  - reflexivity.
  - apply NoDup_singleton.
  - apply list_elem_of_singleton. reflexivity.
Defined.

(** The batch of 1000 delivered again at 16000 leaves the store as it is. *)
Lemma X9_arrival_idempotent_witness :
  TrainPositions.ingest Scenario.lineSegments Scenario.getStationCoordinates
    (lit 16000) (Some [Scenario.trainAt "A"]) Scenario.storeA
  = Scenario.storeA.
Proof.
  apply (X9_arrival_idempotent Scenario.lineSegments Scenario.getStationCoordinates
           (lit 1000) (lit 16000) [Scenario.trainAt "A"] ∅).
  - apply NoDup_singleton.
  - intros t c Ht Hc. apply list_elem_of_singleton in Ht. subst t.
    assert (c = Scenario.stationA) as ->.
    { apply (inj Some). rewrite <- Hc. reflexivity. }
    split; reflexivity.
Defined.

(** A frame at 1016 on the world with the train at A. *)
Lemma X10_frame_keeps_trains_witness :
  TrainPositions.lastFrameTime (Journey.frame (lit 1016) Scenario.world1) = lit 1016.
Proof.
  destruct (X10_frame_keeps_trains Scenario.noHeading (lit 1016) Scenario.world1
              (Journey.frame (lit 1016) Scenario.world1)
              (Journey.positions (lit 1016) Scenario.world1)) as [Htime _].
  - vm_compute. reflexivity.
  - exact Htime.
Defined.

Lemma X11_reachable_records_witness :
  TrainTypes.id (TrainPositions.train Scenario.seenAtA) = "central-1"%string.
Proof.
  apply (X11_reachable_records Scenario.lineSegments Scenario.getStationCoordinates
           Scenario.noHeading Scenario.world1 "central-1" Scenario.seenAtA).
  - apply TrainPositions.reachable_arrive, TrainPositions.reachable_start.
  - reflexivity.
Defined.

(** The train seen at A only is drawn at A, and has no trail. *)
Lemma X12_standing_train_witness :
  Journey.positions (lit 1016) Scenario.world1 !! "central-1"%string
  = Some {| TrainTypes.train_of := Scenario.trainAt "A";
            TrainTypes.position := Scenario.stationA;
            TrainTypes.heading := lit 0 |} /\
  TrainPositions.getTrails (Journey.frame (lit 1016) Scenario.world1)
    !! "central-1"%string = None.
Proof.
  apply (X12_standing_train Scenario.lineSegments Scenario.getStationCoordinates
           Scenario.noHeading (lit 1016) Scenario.world1
           (Journey.frame (lit 1016) Scenario.world1)
           (Journey.positions (lit 1016) Scenario.world1) "central-1" Scenario.seenAtA).
  - apply TrainPositions.reachable_arrive, TrainPositions.reachable_start.
  - reflexivity.
  - reflexivity.
  - vm_compute. reflexivity.
Defined.

(** Two frames after the report at B the trail of the train is drawn. *)
Lemma X13_trails_drawn_witness :
  exists coordinates,
    TrainPositions.getTrails Journey.world4 !! "central-1"%string = Some coordinates /\
    (3 <= length coordinates <= 20)%nat.
Proof.
  assert (Hworld : TrainPositions.reachable Scenario.lineSegments
            Scenario.getStationCoordinates Scenario.noHeading Journey.world4).
  { apply (TrainPositions.reachable_animate _ _ _ Journey.world3 (lit 17100) _
             (Journey.positions (lit 17100) Journey.world3)); [|vm_compute; reflexivity].
    apply (TrainPositions.reachable_animate _ _ _ Journey.world2 (lit 17000) _
             (Journey.positions (lit 17000) Journey.world2)); [|vm_compute; reflexivity].
    apply TrainPositions.reachable_arrive, TrainPositions.reachable_arrive,
      TrainPositions.reachable_start. }
  assert (Hdrawn : is_Some (TrainPositions.getTrails Journey.world4 !! "central-1"%string)).
  { vm_compute. eexists. reflexivity. }
  destruct Hdrawn as [coordinates Hdrawn]. exists coordinates. split; [exact Hdrawn|].
  destruct (X13_trails_drawn Scenario.lineSegments Scenario.getStationCoordinates
              Scenario.noHeading Journey.world4 "central-1" coordinates Hworld Hdrawn)
    as (s & _ & _ & Hlen & _).
  exact Hlen.
Defined.

(** ** The feed *)

(** The response for the Central line: vehicle 201, listed first 400 s from
    A, is left out although it is listed again 100 s from B; vehicle 202
    is taken in. *)
Example first_listed_arrival_decides :
  TrainTypes.id <$> Api.handler Journey.responses = ["central-202"%string] /\
  TrainTypes.currentStation <$> Api.handler Journey.responses = ["B"%string] /\
  TrainTypes.destination <$> Api.handler Journey.responses = ["Ealing Broadway"%string].
Proof. repeat split; reflexivity. Qed.

(** The train of that response is drawn once, in red. *)
Lemma X29_drawn_in_line_colour_witness :
  NoDup (TubeMap.id <$> Pipeline.trainFeatures (Journey.positions (lit 1016) Journey.fed)) /\
  TubeMap.color <$> Pipeline.trainFeatures (Journey.positions (lit 1016) Journey.fed)
  = ["#E32017"%string].
Proof.
  destruct (X29_drawn_in_line_colour Scenario.lineSegments Scenario.getStationCoordinates
              Scenario.noHeading (lit 1016) Journey.fed
              (Journey.frame (lit 1016) Journey.fed)
              (Journey.positions (lit 1016) Journey.fed)) as [Hdistinct _].
  - apply (Pipeline.live_response _ _ _ Scenario.world0 (lit 1000) Journey.responses).
    apply Pipeline.live_start.
  - vm_compute. reflexivity.
  - split; [exact Hdistinct|]. vm_compute. reflexivity.
Defined.

(** ** The stations *)

(** ["Oval"] is found under its normalized name. *)
Lemma X24_station_resolution_witness :
  StationLookup.getStationCoordinates Journey.normalizeStationName Journey.stationMap "Oval"
  = Some Scenario.stationA.
Proof.
  destruct (X24_station_resolution Journey.normalizeStationName
              Journey.stationMap "Oval") as (Hdirect & _ & _).
  - discriminate.
  - apply Hdirect. reflexivity.
Defined.

(** [" Station"] normalizes to the empty string, which every key includes:
    the lookup answers with the first station of the map, Bank. *)
Lemma X25_empty_normalization_witness :
  StationLookup.getStationCoordinates Journey.normalizeStationName Journey.stationMap
    " Station" = Some Scenario.stationB.
Proof.
  etrans; [apply (X25_empty_normalization Journey.normalizeStationName
                    Journey.stationMap " Station" "bank" Scenario.stationB
                    [("bank station"%string, Scenario.stationB);
                     ("oval"%string, Scenario.stationA)])|reflexivity].
  - discriminate.
  - reflexivity.
  - reflexivity.
Defined.

(** Bank is found under the name the file gives it. *)
Lemma X26_station_round_trip_witness :
  StationLookup.getStationCoordinates Journey.normalizeStationName
    (StationLookup.buildStationMap Journey.normalizeStationName Journey.toLowerCase
       ([] ++ Journey.bank :: [Journey.oval]))
    "Bank Station" = Some Scenario.stationB.
Proof.
  apply (X26_station_round_trip Journey.normalizeStationName Journey.toLowerCase
           [] [Journey.oval] Journey.bank "Bank Station" Scenario.stationB "Bank Station").
  - discriminate.
  - reflexivity.
  - discriminate.
  - reflexivity.
  - left. reflexivity.
  - apply Forall_singleton. intros (n & c & Hn & _ & _ & Hkey).
    injection Hn as <-. destruct Hkey as [Hkey|Hkey]; vm_compute in Hkey; discriminate.
Defined.

(** The train reported at Oval stands where the file puts Oval. *)
Lemma X27_trains_stand_at_stations_witness :
  exists f, f ∈ Journey.stations /\ StationLookup.coordinates f = Some Scenario.stationA.
Proof.
  apply (X27_trains_stand_at_stations Journey.normalizeStationName Journey.toLowerCase
           Journey.stations Scenario.lineSegments Scenario.noHeading Journey.atOval
           "central-1" (Records.withTrain (Scenario.trainAt "Oval") Scenario.seenAtA)).
  - apply TrainPositions.reachable_arrive, TrainPositions.reachable_start.
  - reflexivity.
Defined.

(** ** The straight-line hook *)

(** Reported at B at 16000, the record of the train seen at A starts a
    transition from its keyframe at A. *)
Lemma X17_legacy_report_witness :
  TrainPositionsLegacy.previous <$>
    (TrainPositionsLegacy.ingest Scenario.getStationCoordinates (lit 16000)
       (Some [Scenario.trainAt "B"]) Scenario.legacyStoreA !! "central-1"%string)
  = Some (Some (TrainPositionsLegacy.current Scenario.legacySeenAtA)).
Proof.
  etrans; [apply (f_equal (fmap TrainPositionsLegacy.previous));
           apply (X17_legacy_report Scenario.getStationCoordinates (lit 16000)
                    Scenario.legacyStoreA (Scenario.trainAt "B") Scenario.stationB
                    Scenario.legacySeenAtA [Scenario.trainAt "B"])|reflexivity].
  - reflexivity.
  - reflexivity.
  - apply NoDup_singleton.
  - apply list_elem_of_singleton. reflexivity.
Defined.

Lemma X19_legacy_trail_bounded_witness :
  (1 <= length (TrainPositionsLegacy.trail Scenario.legacySeenAtA) <= 15)%nat /\
  is_Some (LegacyAnimation.animate Scenario.noHeading (lit 1016) Scenario.legacyStoreA).
Proof.
  destruct (X19_legacy_trail_bounded Scenario.getStationCoordinates Scenario.noHeading
              Scenario.legacyStoreA) as (Hbound & Htotal & _).
  - apply (LegacyAnimation.reachable_arrive _ _ ∅ (lit 1000) (Some [Scenario.trainAt "A"])).
    apply LegacyAnimation.reachable_start.
  - split; [|apply Htotal]. apply (Hbound "central-1"%string). reflexivity.
Defined.

(** ** Damping *)

(** A step of a tenth of a second from 0 towards 1 does not pass 1. *)
Lemma X14_damping_no_overshoot_witness :
  (TrainPositions.value
     (TrainPositions.smoothDamp (lit 0) (lit 1) (lit 0) (dec 5 10) (dec 1 10))
   >? (lit 1 : PrimFloat.float))%num = false.
Proof.
  apply (X14_damping_no_overshoot (lit 0) (lit 1) (lit 0) (dec 5 10) (dec 1 10)).
  reflexivity.
Defined.

(** ** The sampler's division *)
Section SamplerDivisionWitness.
Import Floats.

(** On the path (0,0), (0,0), (2^-496,0) at progress 2^-600 the target
    distance 2^-1096 underflows to zero, and the sample is (NaN, NaN). *)
Lemma X4_sampler_zero_over_zero_witness :
  TrackGeometry.interpolateAlongPath
    [(lit 0, lit 0); (lit 0, lit 0); (0x1p-496%float, lit 0)] 0x1p-600%float
  = Some (PrimFloat.nan, PrimFloat.nan).
Proof.
  destruct (X4_sampler_zero_over_zero (lit 0, lit 0) (lit 0, lit 0)
              [(0x1p-496%float, lit 0)] 0x1p-600%float) as [_ Hsample];
    [reflexivity..|exact Hsample].
Defined.
End SamplerDivisionWitness.
